(** * Onion routing workshop: the envelope protocol

    A shallow embedding of the sender (the [user] service), the relay
    ([simpleOnionRouter]) and the key manager (the [crypto] module).

    - JavaScript strings are sequences of UTF-16 code units ([list N]).
    - Binary buffers are [list byte].
    - The platform's block cipher and RSA-OAEP are operations of a
      [WebCrypto] record; their laws are separate propositions that the
      theorems take as hypotheses.  The CBC chaining, the PKCS#7 padding,
      [TextEncoder]/[TextDecoder] and the Base64 codec of [Buffer] are
      written out.
    - Randomness (keys, initialisation vectors, OAEP seeds, [Math.random])
      and the network are inputs of the handlers.
    - The constants of the [config] module, [BASE_USER_PORT] and
      [BASE_ONION_ROUTER_PORT], are parameters. *)

From Stdlib Require Import NArith ZArith QArith Qround List Lia ZifyNat Ascii String.
From Stdlib Require Import Strings.Byte.
From stdpp Require Import base list.

Local Open Scope N_scope.

(** ** JavaScript strings *)

(** A string is the list of its UTF-16 code units, each below 2^16;
    [well_formed] below includes the bound. *)
Abbreviation jsstring := (list N).

(** A string literal of ASCII characters as code units. *)
Definition js (s : string) : jsstring :=
  map N_of_ascii (list_ascii_of_string s).

(** [String.prototype.substring(start, end)] on non-negative integer
    arguments; [None] is an omitted [end]. *)
Definition substring (s : jsstring) (start : nat) (end_ : option nat) : jsstring :=
  let len := length s in
  let finalStart := Nat.min start len in
  let finalEnd := Nat.min (default len end_) len in
  let from := Nat.min finalStart finalEnd in
  let to := Nat.max finalStart finalEnd in
  take (to - from) (drop from s).

(** [String.prototype.padStart(maxLength, fillString)]. *)
Definition padStart (s : jsstring) (maxLength : nat) (fillString : jsstring) : jsstring :=
  if (maxLength <=? length s)%nat then s
  else match fillString with
       | [] => s
       | _ =>
         let fillLen := (maxLength - length s)%nat in
         take fillLen (concat (replicate fillLen fillString)) ++ s
       end.

(** Decimal digits of a non-negative integer, most significant first:
    the template literal [`${n}`] for an integer [n] below 10^21. *)
Fixpoint digits_aux (fuel : nat) (n : N) (acc : jsstring) : jsstring :=
  match fuel with
  | O => acc
  | S f =>
    let acc' := (48 + n mod 10) :: acc in
    if n / 10 =? 0 then acc' else digits_aux f (n / 10) acc'
  end.

Definition Number_toString (n : N) : jsstring :=
  digits_aux (S (N.to_nat (N.log2 n))) n [].

(** The result of [parseInt]: an integer or [NaN]. *)
Inductive jsnumber :=
| NaN
| Num (z : Z).

(** [StrWhiteSpaceChar]: white space and line terminators. *)
Definition is_whitespace (c : N) : bool :=
  ((9 <=? c) && (c <=? 13)) || (c =? 32) || (c =? 160) || (c =? 5760)
  || ((8192 <=? c) && (c <=? 8202)) || (c =? 8232) || (c =? 8233)
  || (c =? 8239) || (c =? 8287) || (c =? 12288) || (c =? 65279).

Fixpoint trim_start (s : jsstring) : jsstring :=
  match s with
  | c :: r => if is_whitespace c then trim_start r else s
  | [] => []
  end.

Definition is_digit (c : N) : bool := (48 <=? c) && (c <=? 57).

(** The longest prefix of decimal digits. *)
Fixpoint digit_prefix (s : jsstring) : jsstring :=
  match s with
  | c :: r => if is_digit c then c :: digit_prefix r else []
  | [] => []
  end.

Definition digits_value (ds : jsstring) : N :=
  fold_left (fun acc c => 10 * acc + (c - 48)) ds 0.

(** [parseInt(s, 10)].  The mathematical value is returned as is; it is
    the Number value whenever it is below 2^53, which holds for the
    ten-character strings the relay parses. *)
Definition parseInt (s : jsstring) : jsnumber :=
  let s1 := trim_start s in
  let '(sign, s2) :=
    match s1 with
    | 45 :: r => ((-1)%Z, r)
    | 43 :: r => (1%Z, r)
    | _ => (1%Z, s1)
    end in
  match digit_prefix s2 with
  | [] => NaN
  | ds => Num (sign * Z.of_N (digits_value ds))
  end.

(** ** Bytes *)

Definition byte_of_N (n : N) : byte := default x00 (Byte.of_N (n mod 256)).

Definition bxor (a b : byte) : byte :=
  byte_of_N (N.lxor (Byte.to_N a) (Byte.to_N b)).

Definition xor_bytes (a b : list byte) : list byte := zip_with bxor a b.

(** ** [TextEncoder] and [TextDecoder] (UTF-8) *)

Definition is_high_surrogate (u : N) : bool := (0xD800 <=? u) && (u <=? 0xDBFF).
Definition is_low_surrogate (u : N) : bool := (0xDC00 <=? u) && (u <=? 0xDFFF).

(** The scalar values of a string: a surrogate pair is one code point,
    an unpaired surrogate is replaced by U+FFFD. *)
Fixpoint to_scalars (s : jsstring) : list N :=
  match s with
  | [] => []
  | u :: r =>
    if is_high_surrogate u then
      match r with
      | l :: r' =>
        if is_low_surrogate l
        then (0x10000 + (u - 0xD800) * 0x400 + (l - 0xDC00)) :: to_scalars r'
        else 0xFFFD :: to_scalars r
      | [] => [0xFFFD]
      end
    else if is_low_surrogate u then 0xFFFD :: to_scalars r
    else u :: to_scalars r
  end.

(** Well-formed strings: every code unit is 16 bits wide and every
    surrogate is half of a pair. *)
Fixpoint well_formed (s : jsstring) : bool :=
  match s with
  | [] => true
  | u :: r =>
    if is_high_surrogate u then
      match r with
      | l :: r' => is_low_surrogate l && well_formed r'
      | [] => false
      end
    else negb (is_low_surrogate u) && (u <? 0x10000) && well_formed r
  end.

Definition utf8_encode_scalar (c : N) : list byte :=
  if c <? 0x80 then [byte_of_N c]
  else if c <? 0x800 then
    [byte_of_N (0xC0 + c / 64); byte_of_N (0x80 + c mod 64)]
  else if c <? 0x10000 then
    [byte_of_N (0xE0 + c / 4096); byte_of_N (0x80 + (c / 64) mod 64);
     byte_of_N (0x80 + c mod 64)]
  else
    [byte_of_N (0xF0 + c / 262144); byte_of_N (0x80 + (c / 4096) mod 64);
     byte_of_N (0x80 + (c / 64) mod 64); byte_of_N (0x80 + c mod 64)].

(** [new TextEncoder().encode(s)]: the UTF-8 bytes of the scalar values
    of the string. *)
Definition TextEncoder_encode (s : jsstring) : list byte :=
  flat_map utf8_encode_scalar (to_scalars s).

(** The state of the UTF-8 decoder of the Encoding standard. *)
Record utf8_state := {
  code_point : N;
  bytes_seen : nat;
  bytes_needed : nat;
  lower_boundary : N;
  upper_boundary : N
}.

Definition utf8_init : utf8_state :=
  {| code_point := 0; bytes_seen := 0; bytes_needed := 0;
     lower_boundary := 0x80; upper_boundary := 0xBF |}.

(** A byte read when no continuation byte is expected. *)
Definition utf8_lead (b : N) : utf8_state * list N :=
  if b <=? 0x7F then (utf8_init, [b])
  else if (0xC2 <=? b) && (b <=? 0xDF) then
    ({| code_point := b mod 32; bytes_seen := 0; bytes_needed := 1;
        lower_boundary := 0x80; upper_boundary := 0xBF |}, [])
  else if (0xE0 <=? b) && (b <=? 0xEF) then
    ({| code_point := b mod 16; bytes_seen := 0; bytes_needed := 2;
        lower_boundary := if b =? 0xE0 then 0xA0 else 0x80;
        upper_boundary := if b =? 0xED then 0x9F else 0xBF |}, [])
  else if (0xF0 <=? b) && (b <=? 0xF4) then
    ({| code_point := b mod 8; bytes_seen := 0; bytes_needed := 3;
        lower_boundary := if b =? 0xF0 then 0x90 else 0x80;
        upper_boundary := if b =? 0xF4 then 0x8F else 0xBF |}, [])
  else (utf8_init, [0xFFFD]).

(** One byte of input: the new state and the code points emitted.  A byte
    that cannot continue the sequence emits U+FFFD and is read again as a
    lead byte. *)
Definition utf8_step (st : utf8_state) (b : N) : utf8_state * list N :=
  match bytes_needed st with
  | O => utf8_lead b
  | _ =>
    if (lower_boundary st <=? b) && (b <=? upper_boundary st) then
      let c := code_point st * 64 + b mod 64 in
      if (S (bytes_seen st) =? bytes_needed st)%nat then (utf8_init, [c])
      else ({| code_point := c; bytes_seen := S (bytes_seen st);
               bytes_needed := bytes_needed st;
               lower_boundary := 0x80; upper_boundary := 0xBF |}, [])
    else
      let '(st', out) := utf8_lead b in (st', 0xFFFD :: out)
  end.

Fixpoint utf8_decode (st : utf8_state) (bs : list byte) : list N :=
  match bs with
  | [] => match bytes_needed st with O => [] | _ => [0xFFFD] end
  | b :: r =>
    let '(st', out) := utf8_step st (Byte.to_N b) in
    out ++ utf8_decode st' r
  end.

Definition utf16_encode_scalar (c : N) : jsstring :=
  if c <? 0x10000 then [c]
  else [0xD800 + (c - 0x10000) / 0x400; 0xDC00 + (c - 0x10000) mod 0x400].

Definition strip_bom (bs : list byte) : list byte :=
  match bs with
  | xef :: xbb :: xbf :: r => r
  | _ => bs
  end.

(** [new TextDecoder().decode(bs)] with the defaults of the constructor:
    UTF-8, [fatal] false (an ill-formed sequence decodes to U+FFFD and
    nothing is thrown), [ignoreBOM] false (a leading byte order mark is
    removed from the output). *)
Definition TextDecoder_decode (bs : list byte) : jsstring :=
  flat_map utf16_encode_scalar (utf8_decode utf8_init (strip_bom bs)).

(** ** Base64 of [Buffer] *)

Definition b64_char (v : N) : N :=
  if v <? 26 then 65 + v
  else if v <? 52 then 97 + (v - 26)
  else if v <? 62 then 48 + (v - 52)
  else if v =? 62 then 43
  else 47.

(** [Buffer.from(buffer).toString("base64")]. *)
Fixpoint arrayBufferToBase64 (bs : list byte) : jsstring :=
  match bs with
  | [] => []
  | [a] =>
    let a := Byte.to_N a in
    [b64_char (a / 4); b64_char (a mod 4 * 16); 61; 61]
  | [a; b] =>
    let a := Byte.to_N a in
    let b := Byte.to_N b in
    [b64_char (a / 4); b64_char (a mod 4 * 16 + b / 16);
     b64_char (b mod 16 * 4); 61]
  | a :: b :: c :: r =>
    let a := Byte.to_N a in
    let b := Byte.to_N b in
    let c := Byte.to_N c in
    b64_char (a / 4) :: b64_char (a mod 4 * 16 + b / 16)
    :: b64_char (b mod 16 * 4 + c / 64) :: b64_char (c mod 64)
    :: arrayBufferToBase64 r
  end.

(** The value of a Base64 character; the URL-safe [-] and [_] are
    accepted too. *)
Definition b64_value (c : N) : option N :=
  if (65 <=? c) && (c <=? 90) then Some (c - 65)
  else if (97 <=? c) && (c <=? 122) then Some (c - 97 + 26)
  else if (48 <=? c) && (c <=? 57) then Some (c - 48 + 52)
  else if (c =? 43) || (c =? 45) then Some 62
  else if (c =? 47) || (c =? 95) then Some 63
  else None.

(** The lenient decoder of [Buffer]: characters outside the alphabet are
    skipped, decoding stops at the first [=], and a last group of two or
    three characters gives one or two bytes. *)
Fixpoint b64_sextets (s : jsstring) : list N :=
  match s with
  | [] => []
  | c :: r =>
    if c =? 61 then []
    else match b64_value c with
         | Some v => v :: b64_sextets r
         | None => b64_sextets r
         end
  end.

Fixpoint b64_bytes (vs : list N) : list byte :=
  match vs with
  | a :: b :: c :: d :: r =>
    byte_of_N (a * 4 + b / 16) :: byte_of_N (b mod 16 * 16 + c / 4)
    :: byte_of_N (c mod 4 * 64 + d) :: b64_bytes r
  | [a; b; c] => [byte_of_N (a * 4 + b / 16); byte_of_N (b mod 16 * 16 + c / 4)]
  | [a; b] => [byte_of_N (a * 4 + b / 16)]
  | _ => []
  end.

(** [Buffer.from(base64, "base64")]: never fails. *)
Definition base64ToArrayBuffer (base64 : jsstring) : list byte :=
  b64_bytes (b64_sextets base64).

(** ** Exceptions *)

Inductive exn :=
| TypeError
| DataError
| OperationError
| NetworkError.

Inductive result (A : Type) :=
| Ok (a : A)
| Throw (e : exn).
Arguments Ok {A} a.
Arguments Throw {A} e.

Definition of_option {A} (e : exn) (o : option A) : result A :=
  match o with
  | Some a => Ok a
  | None => Throw e
  end.

(** ** The platform's cryptography *)

(** The block cipher of AES on 16-byte blocks, and RSA-OAEP with SHA-256.
    [rsa_oaep_encrypt] takes the random seed of the padding. *)
Record WebCrypto := {
  aes_encrypt_block : list byte -> list byte -> list byte;
  aes_decrypt_block : list byte -> list byte -> list byte;
  rsa_public : Type;
  rsa_private : Type;
  rsa_key_pair : rsa_public -> rsa_private -> Prop;
  rsa_modulus_bytes : rsa_public -> nat;
  import_spki : list byte -> option rsa_public;
  rsa_oaep_encrypt : rsa_public -> list byte -> list byte -> option (list byte);
  rsa_oaep_decrypt : rsa_private -> list byte -> option (list byte)
}.

(** An AES key is 128, 192 or 256 bits of raw key material. *)
Definition valid_aes_key (raw : list byte) : bool :=
  (length raw =? 16)%nat || (length raw =? 24)%nat || (length raw =? 32)%nat.

(** The block cipher is a permutation of 16-byte blocks under every AES
    key. *)
Record aes_laws (wc : WebCrypto) : Prop := {
  aes_encrypt_length : forall k b,
    valid_aes_key k = true -> length b = 16%nat ->
    length (aes_encrypt_block wc k b) = 16%nat;
  aes_decrypt_encrypt : forall k b,
    valid_aes_key k = true -> length b = 16%nat ->
    aes_decrypt_block wc k (aes_encrypt_block wc k b) = b
}.

(** RSA-OAEP with SHA-256: a message of at most [k - 66] bytes is
    encrypted to [k] bytes, [k] the byte length of the modulus, and the
    private key of the pair recovers it. *)
Record rsa_laws (wc : WebCrypto) : Prop := {
  rsa_encrypt_bound : forall pub seed m,
    (length m + 66 <= rsa_modulus_bytes wc pub)%nat ->
    is_Some (rsa_oaep_encrypt wc pub seed m);
  rsa_encrypt_length : forall pub seed m c,
    rsa_oaep_encrypt wc pub seed m = Some c ->
    length c = rsa_modulus_bytes wc pub;
  rsa_decrypt_encrypt : forall pub priv seed m c,
    rsa_key_pair wc pub priv ->
    rsa_oaep_encrypt wc pub seed m = Some c ->
    rsa_oaep_decrypt wc priv c = Some m
}.

(** The idealisation that a ciphertext is rejected under every private key
    but the one of the pair. *)
Definition rsa_rejects_foreign_keys (wc : WebCrypto) : Prop :=
  forall pub priv' seed m c,
    ~ rsa_key_pair wc pub priv' ->
    rsa_oaep_encrypt wc pub seed m = Some c ->
    rsa_oaep_decrypt wc priv' c = None.

(** PKCS#7 padding to a multiple of 16 bytes. *)
Definition pkcs7_pad (bs : list byte) : list byte :=
  let p := (16 - length bs mod 16)%nat in
  bs ++ replicate p (byte_of_N (N.of_nat p)).

Definition pkcs7_unpad (bs : list byte) : option (list byte) :=
  match last bs with
  | None => None
  | Some b =>
    let p := N.to_nat (Byte.to_N b) in
    if (1 <=? p)%nat && (p <=? 16)%nat && (p <=? length bs)%nat
       && forallb (Byte.eqb b) (drop (length bs - p) bs)
    then Some (take (length bs - p) bs)
    else None
  end.

Section Crypto.

Context (wc : WebCrypto).

(** Cipher block chaining over [n] blocks. *)
Fixpoint cbc_encrypt_blocks (n : nat) (key prev data : list byte) : list byte :=
  match n with
  | O => []
  | S n' =>
    let c := aes_encrypt_block wc key (xor_bytes (take 16 data) prev) in
    c ++ cbc_encrypt_blocks n' key c (drop 16 data)
  end.

Fixpoint cbc_decrypt_blocks (n : nat) (key prev data : list byte) : list byte :=
  match n with
  | O => []
  | S n' =>
    let c := take 16 data in
    xor_bytes (aes_decrypt_block wc key c) prev
    ++ cbc_decrypt_blocks n' key c (drop 16 data)
  end.

(** [subtle.encrypt({name: "AES-CBC", iv}, key, data)]. *)
Definition aes_cbc_encrypt (key iv data : list byte) : result (list byte) :=
  if (length iv =? 16)%nat then
    let padded := pkcs7_pad data in
    Ok (cbc_encrypt_blocks (length padded / 16) key iv padded)
  else Throw OperationError.

(** [subtle.decrypt({name: "AES-CBC", iv}, key, data)]. *)
Definition aes_cbc_decrypt (key iv data : list byte) : result (list byte) :=
  if negb (length iv =? 16)%nat then Throw OperationError
  else if (length data =? 0)%nat || negb (length data mod 16 =? 0)%nat
  then Throw OperationError
  else of_option OperationError
         (pkcs7_unpad (cbc_decrypt_blocks (length data / 16) key iv data)).

(** *** The [crypto] module *)

Definition importPubKey (chaîneDeLaClé : jsstring) : result (rsa_public wc) :=
  let tamponBinaire := base64ToArrayBuffer chaîneDeLaClé in
  of_option DataError (import_spki wc tamponBinaire).

Definition rsaEncrypt (seed : list byte) (donnéesBase64 chaîneCléPublique : jsstring)
  : result jsstring :=
  match importPubKey chaîneCléPublique with
  | Throw e => Throw e
  | Ok cléPublique =>
    let données := TextEncoder_encode donnéesBase64 in
    match rsa_oaep_encrypt wc cléPublique seed données with
    | None => Throw OperationError
    | Some donnéesChiffrées => Ok (arrayBufferToBase64 donnéesChiffrées)
    end
  end.

Definition rsaDecrypt (données : jsstring) (cléPrivée : rsa_private wc)
  : result jsstring :=
  let donnéesChiffrées := base64ToArrayBuffer données in
  match rsa_oaep_decrypt wc cléPrivée donnéesChiffrées with
  | None => Throw OperationError
  | Some donnéesDéchiffrées => Ok (TextDecoder_decode donnéesDéchiffrées)
  end.

(** A symmetric [CryptoKey] is its raw key material. *)
Definition exportSymKey (clé : list byte) : jsstring :=
  arrayBufferToBase64 clé.

Definition importSymKey (chaîneDeLaClé : jsstring) : result (list byte) :=
  let tamponBinaire := base64ToArrayBuffer chaîneDeLaClé in
  if valid_aes_key tamponBinaire then Ok tamponBinaire else Throw DataError.

(** [vecteurInitialisation] is the result of [getRandomValues]. *)
Definition symEncrypt (vecteurInitialisation : list byte) (clé : list byte)
    (données : jsstring) : result jsstring :=
  let donnéesEncodées := TextEncoder_encode données in
  match aes_cbc_encrypt clé vecteurInitialisation donnéesEncodées with
  | Throw e => Throw e
  | Ok donnéesChiffrées =>
    let combiné := vecteurInitialisation ++ donnéesChiffrées in
    Ok (arrayBufferToBase64 combiné)
  end.

Definition symDecrypt (chaîneDeLaClé donnéesChiffrées : jsstring) : result jsstring :=
  match importSymKey chaîneDeLaClé with
  | Throw e => Throw e
  | Ok clé =>
    let tamponBinaire := base64ToArrayBuffer donnéesChiffrées in
    let vecteurInitialisation := take 16 tamponBinaire in
    let données := drop 16 tamponBinaire in
    match aes_cbc_decrypt clé vecteurInitialisation données with
    | Throw e => Throw e
    | Ok donnéesDéchiffrées => Ok (TextDecoder_decode donnéesDéchiffrées)
    end
  end.

End Crypto.

(** ** Handlers: state, exceptions and outgoing requests *)

(** An outgoing [fetch(`http://localhost:${port}/message`, {method: "POST",
    body: JSON.stringify({message: body})})]. *)
Record request := {
  port : jsnumber;
  body : jsstring
}.

(** The variables of a participant and the requests it has sent. *)
Record Proc (S : Type) := {
  vars : S;
  outbox : list request
}.
Arguments vars {S} p.
Arguments outbox {S} p.

(** A computation that reads and writes a state and returns or throws;
    the state written before a throw is kept. *)
Definition M (S A : Type) : Type := S -> S * result A.

Definition ret {S A} (a : A) : M S A := fun s => (s, Ok a).

Definition bind {S A B} (m : M S A) (k : A -> M S B) : M S B :=
  fun s =>
    match m s with
    | (s', Ok a) => k a s'
    | (s', Throw e) => (s', Throw e)
    end.

Definition lift {S A} (r : result A) : M S A := fun s => (s, r).

Definition modify {S} (f : S -> S) : M (Proc S) unit :=
  fun p => ({| vars := f (vars p); outbox := outbox p |}, Ok tt).

Definition try_catch {S A} (m : M S A) (handler : exn -> M S A) : M S A :=
  fun s =>
    match m s with
    | (s', Ok a) => (s', Ok a)
    | (s', Throw e) => handler e s'
    end.

Notation "'let*' x ':=' m 'in' k" := (bind m (fun x => k))
  (at level 10, x name, m at level 100, k at level 200).
Notation "m ';;' k" := (bind m (fun _ => k))
  (at level 100, k at level 200, right associativity).

(** A property of the state that a computation keeps. *)
Definition preserves {S A} (P : S -> Prop) (m : M S A) : Prop :=
  forall s, P s -> P (m s).1.

(** A URL [http://localhost:${p}/message] parses when the port is an
    integer from 0 to 65535. *)
Definition valid_port (p : jsnumber) : bool :=
  match p with
  | Num z => (0 <=? z)%Z && (z <=? 65535)%Z
  | NaN => false
  end.

(** [await fetch(url, ...)]: a [TypeError] when the URL does not parse;
    otherwise the request is sent and [net] says whether the promise
    resolves (with any HTTP status) or rejects. *)
Definition fetch_message {S} (net : request -> result unit)
    (p : jsnumber) (message : jsstring) : M (Proc S) unit :=
  fun w =>
    if valid_port p then
      let rq := {| port := p; body := message |} in
      ({| vars := vars w; outbox := outbox w ++ [rq] |}, net rq)
    else (w, Throw TypeError).

(** An HTTP response: its status and what [res.send] or [res.json] was
    given. *)
Inductive content :=
| text (s : string)
| json_success
| json_error (error : string).

Record response := {
  status : N;
  sent : content
}.

(** The four answers of the handlers. *)
Definition answer_success : response := {| status := 200; sent := text "success" |}.
Definition answer_error : response := {| status := 500; sent := text "error" |}.
Definition answer_sent : response := {| status := 200; sent := json_success |}.
Definition answer_failed : response :=
  {| status := 500; sent := json_error "Échec de l'envoi du message" |}.

(** *** The registry's types *)

Record Node := {
  nodeId : N;
  pubKey : jsstring
}.

(** *** The [user] service *)

Record SendMessageBody := {
  message : jsstring;
  destinationUserId : N
}.

Record UserState := {
  dernierMessageReçu : option jsstring;
  dernierMessageEnvoyé : option jsstring;
  dernierCircuit : list N
}.

Definition set_dernierMessageReçu (m : jsstring) (s : UserState) : UserState :=
  {| dernierMessageReçu := Some m;
     dernierMessageEnvoyé := dernierMessageEnvoyé s;
     dernierCircuit := dernierCircuit s |}.

Definition set_dernierMessageEnvoyé (m : jsstring) (s : UserState) : UserState :=
  {| dernierMessageReçu := dernierMessageReçu s;
     dernierMessageEnvoyé := Some m;
     dernierCircuit := dernierCircuit s |}.

Definition set_dernierCircuit (c : list N) (s : UserState) : UserState :=
  {| dernierMessageReçu := dernierMessageReçu s;
     dernierMessageEnvoyé := dernierMessageEnvoyé s;
     dernierCircuit := c |}.

(** [Math.floor(Math.random() * (i + 1))] for a result [r] of
    [Math.random()], a number from 0 inclusive to 1 exclusive.  The
    product is taken exactly; its rounding to a double cannot reach
    [i + 1], so the index of the source lies in the same range. *)
Definition random_index (r : Q) (i : nat) : nat :=
  Z.to_nat (Qfloor (r * inject_Z (Z.of_nat i + 1))).

(** [[l[i], l[j]] = [l[j], l[i]]] for indices within the array. *)
Definition swap {A} (l : list A) (i j : nat) : list A :=
  match l !! i, l !! j with
  | Some x, Some y => <[j := x]> (<[i := y]> l)
  | _, _ => l
  end.

(** The loop of the shuffle from index [i] down to 1; [calls] counts the
    calls of [Math.random] so far. *)
Fixpoint mélanger (random : nat -> Q) (calls : nat) (i : nat) (mélangés : list Node)
  : list Node :=
  match i with
  | O => mélangés
  | S i' =>
    let j := random_index (random calls) i in
    mélanger random (S calls) i' (swap mélangés i j)
  end.

Definition sélectionnerNœudsAléatoires (random : nat -> Q) (nodes : list Node)
    (count : nat) : list Node :=
  let mélangés := mélanger random 0 (length nodes - 1) nodes in
  take count mélangés.

(** What one call of the handler of [/sendMessage] draws from its
    environment: the reply of the registry, the results of [Math.random],
    the three fresh keys, the initialisation vectors and OAEP seeds of the
    three layers, and the network. *)
Record SendEnv := {
  getNodeRegistry : result (list Node);
  Math_random : nat -> Q;
  cléEntrée : list byte;
  cléIntermédiaire : list byte;
  cléSortie : list byte;
  ivSortie : list byte;
  ivIntermédiaire : list byte;
  ivEntrée : list byte;
  seedSortie : list byte;
  seedIntermédiaire : list byte;
  seedEntrée : list byte;
  réseau : request -> result unit
}.

Section Participants.

Context (wc : WebCrypto).
Context (BASE_USER_PORT BASE_ONION_ROUTER_PORT : N).

(** [userApp.post("/message", ...)]. *)
Definition user_message (message : jsstring) : M (Proc UserState) response :=
  modify (set_dernierMessageReçu message);;
  ret answer_success.

(** [userApp.post("/sendMessage", ...)].  A hop that the circuit lacks is
    [undefined]; reading its [pubKey] throws. *)
Definition user_sendMessage (env : SendEnv) (req : SendMessageBody)
  : M (Proc UserState) response :=
  let message := message req in
  let destinationUserId := destinationUserId req in
  modify (set_dernierMessageEnvoyé message);;
  try_catch
    (let* nodes := lift (getNodeRegistry env) in
     let circuit := sélectionnerNœudsAléatoires (Math_random env) nodes 3 in
     modify (set_dernierCircuit (map nodeId circuit));;
     let nœudEntrée := circuit !! 0%nat in
     let nœudIntermédiaire := circuit !! 1%nat in
     let nœudSortie := circuit !! 2%nat in
     let données := message in
     let destinationFinale :=
       padStart (Number_toString (BASE_USER_PORT + destinationUserId)) 10 (js "0") in
     let couche := destinationFinale ++ données in
     let* coucheCryptée := lift (symEncrypt wc (ivSortie env) (cléSortie env) couche) in
     let* nœudSortie := lift (of_option TypeError nœudSortie) in
     let* cléCryptée :=
       lift (rsaEncrypt wc (seedSortie env) (exportSymKey (cléSortie env))
               (pubKey nœudSortie)) in
     let données := cléCryptée ++ coucheCryptée in
     let destinationIntermédiaire :=
       padStart (Number_toString (BASE_ONION_ROUTER_PORT + nodeId nœudSortie)) 10
         (js "0") in
     let couche := destinationIntermédiaire ++ données in
     let* coucheCryptée :=
       lift (symEncrypt wc (ivIntermédiaire env) (cléIntermédiaire env) couche) in
     let* nœudIntermédiaire := lift (of_option TypeError nœudIntermédiaire) in
     let* cléCryptée :=
       lift (rsaEncrypt wc (seedIntermédiaire env)
               (exportSymKey (cléIntermédiaire env)) (pubKey nœudIntermédiaire)) in
     let données := cléCryptée ++ coucheCryptée in
     let destinationEntrée :=
       padStart (Number_toString (BASE_ONION_ROUTER_PORT + nodeId nœudIntermédiaire))
         10 (js "0") in
     let couche := destinationEntrée ++ données in
     let* coucheCryptée := lift (symEncrypt wc (ivEntrée env) (cléEntrée env) couche) in
     let* nœudEntrée := lift (of_option TypeError nœudEntrée) in
     let* cléCryptée :=
       lift (rsaEncrypt wc (seedEntrée env) (exportSymKey (cléEntrée env))
               (pubKey nœudEntrée)) in
     let données := cléCryptée ++ coucheCryptée in
     fetch_message (réseau env)
       (Num (Z.of_N (BASE_ONION_ROUTER_PORT + nodeId nœudEntrée))) données;;
     ret answer_sent)
    (fun error =>
       ret answer_failed).

(** *** [simpleOnionRouter] *)

Record RouterState := {
  dernierMessageChiffréReçu : option jsstring;
  dernierMessageDéchiffréReçu : option jsstring;
  dernièreDestinationMessage : option jsnumber
}.

Definition set_dernierMessageChiffréReçu (m : jsstring) (s : RouterState) : RouterState :=
  {| dernierMessageChiffréReçu := Some m;
     dernierMessageDéchiffréReçu := dernierMessageDéchiffréReçu s;
     dernièreDestinationMessage := dernièreDestinationMessage s |}.

Definition set_dernierMessageDéchiffréReçu (m : jsstring) (s : RouterState) : RouterState :=
  {| dernierMessageChiffréReçu := dernierMessageChiffréReçu s;
     dernierMessageDéchiffréReçu := Some m;
     dernièreDestinationMessage := dernièreDestinationMessage s |}.

Definition set_dernièreDestinationMessage (d : jsnumber) (s : RouterState) : RouterState :=
  {| dernierMessageChiffréReçu := dernierMessageChiffréReçu s;
     dernierMessageDéchiffréReçu := dernierMessageDéchiffréReçu s;
     dernièreDestinationMessage := Some d |}.

(** [routeurOnion.post("/message", ...)] of the relay that holds
    [cléPrivéeCrypto]. *)
Definition routeurOnion_message (cléPrivéeCrypto : rsa_private wc)
    (net : request -> result unit) (message : jsstring)
  : M (Proc RouterState) response :=
  try_catch
    (modify (set_dernierMessageChiffréReçu message);;
     let cléChiffrée := substring message 0 (Some 344%nat) in
     let contenuChiffré := substring message 344 None in
     let* cléSymétriqueBase64 := lift (rsaDecrypt wc cléChiffrée cléPrivéeCrypto) in
     let* cléSymétrique := lift (importSymKey cléSymétriqueBase64) in
     let* contenuDéchiffré := lift (symDecrypt wc cléSymétriqueBase64 contenuChiffré) in
     let destinationSuivante := parseInt (substring contenuDéchiffré 0 (Some 10%nat)) in
     let messageSuivant := substring contenuDéchiffré 10 None in
     modify (set_dernierMessageDéchiffréReçu messageSuivant);;
     modify (set_dernièreDestinationMessage destinationSuivante);;
     fetch_message net destinationSuivante messageSuivant;;
     ret answer_success)
    (fun error =>
       ret answer_error).

End Participants.

(** ** A small instance of the platform

    A block cipher that masks every byte with the first key byte and
    reverses the block, and a public-key scheme whose key pair is one byte
    and whose ciphertext is 256 bytes: key byte, length, message, zeros. *)

Definition toy_key_byte (k : list byte) : byte := default x00 (head k).

Definition toy_encrypt_block (k b : list byte) : list byte :=
  reverse (map (bxor (toy_key_byte k)) b).

Definition toy_decrypt_block (k c : list byte) : list byte :=
  map (bxor (toy_key_byte k)) (reverse c).

Definition toy_oaep_encrypt (pub : byte) (seed m : list byte) : option (list byte) :=
  if (length m <=? 190)%nat then
    Some (pub :: byte_of_N (N.of_nat (length m)) :: m
          ++ replicate (254 - length m) x00)
  else None.

Definition toy_oaep_decrypt (priv : byte) (c : list byte) : option (list byte) :=
  match c with
  | k :: l :: r =>
    let n := N.to_nat (Byte.to_N l) in
    if (length c =? 256)%nat && Byte.eqb k priv && (n <=? 190)%nat
    then Some (take n r)
    else None
  | _ => None
  end.

Definition toy : WebCrypto := {|
  aes_encrypt_block := toy_encrypt_block;
  aes_decrypt_block := toy_decrypt_block;
  rsa_public := byte;
  rsa_private := byte;
  rsa_key_pair := eq;
  rsa_modulus_bytes := fun _ => 256%nat;
  import_spki := fun der => match der with [b] => Some b | _ => None end;
  rsa_oaep_encrypt := toy_oaep_encrypt;
  rsa_oaep_decrypt := toy_oaep_decrypt
|}.

(** ** The specification's words, for comparison with the handlers *)

(** The address field of a layer: ten decimal digits whose value is the
    port. *)
Definition is_address (a : jsstring) (p : N) : Prop :=
  length a = 10%nat /\ Forall (fun c => is_digit c = true) a /\ digits_value a = p.

(** Steps 1 to 4 of the relay as the specification words them: the key
    blob is the first 344 characters, the ciphertext the remainder; the
    next address is the integer parsed from the first ten characters of
    the plaintext, the payload everything after them. *)
Definition strip_layer (wc : WebCrypto) (priv : rsa_private wc) (envelope : jsstring)
  : result (jsnumber * jsstring) :=
  let keyBlob := take 344 envelope in
  let ciphertext := drop 344 envelope in
  match rsaDecrypt wc keyBlob priv with
  | Throw e => Throw e
  | Ok symKeyMaterial =>
    match symDecrypt wc symKeyMaterial ciphertext with
    | Throw e => Throw e
    | Ok plaintext => Ok (parseInt (take 10 plaintext), drop 10 plaintext)
    end
  end.

(** The pairs of indices that the loop of the shuffle swaps. *)
Fixpoint indices_échangés (random : nat -> Q) (calls i : nat) : list (nat * nat) :=
  match i with
  | O => []
  | S i' => (i, random_index (random calls) i) :: indices_échangés random (S calls) i'
  end.

(** Scalar values: code points that are not surrogates. *)
Definition is_scalar (c : N) : Prop := c < 0xD800 \/ (0xE000 <= c /\ c < 0x110000).

(** A layer for a hop: [encryptedKey ‖ ciphertext], no separator, where
    the key [K] is encrypted under the hop's public key and the
    ciphertext is [nextAddr ‖ data] under [K], [nextAddr] the address
    field of the port [next]. *)
Definition is_layer (wc : WebCrypto) (hop : Node) (K iv seed : list byte)
    (next : N) (data layer : jsstring) : Prop :=
  exists nextAddr encryptedKey ciphertext,
    is_address nextAddr next
    /\ symEncrypt wc iv K (nextAddr ++ data) = Ok ciphertext
    /\ rsaEncrypt wc seed (exportSymKey K) (pubKey hop) = Ok encryptedKey
    /\ layer = encryptedKey ++ ciphertext.

(** The same layer with the platform's operations in place of the
    functions of the [crypto] module: its first 344 characters are the
    Base64 text of the RSA-OAEP encryption, under the public key [pub], of
    the text of the exported key [K]; the rest is the Base64 text of the
    initialisation vector followed by the AES-CBC encryption under [K] of
    [nextAddr ‖ data]. *)
Definition is_sealed_layer (wc : WebCrypto) (pub : rsa_public wc) (K iv seed : list byte)
    (next : N) (data layer : jsstring) : Prop :=
  exists nextAddr rawKey rawData,
    is_address nextAddr next
    /\ rsa_oaep_encrypt wc pub seed (TextEncoder_encode (arrayBufferToBase64 K))
       = Some rawKey
    /\ aes_cbc_encrypt wc K iv (TextEncoder_encode (nextAddr ++ data)) = Ok rawData
    /\ length (arrayBufferToBase64 rawKey) = 344%nat
    /\ layer = arrayBufferToBase64 rawKey ++ arrayBufferToBase64 (iv ++ rawData).

(** ** The setting of a run *)

(** The registry entry of a hop carries a 2048-bit public key, as
    [simpleOnionRouter] generates and registers it. *)
Definition registered (wc : WebCrypto) (hop : Node) (pub : rsa_public wc) : Prop :=
  importPubKey wc (pubKey hop) = Ok pub /\ rsa_modulus_bytes wc pub = 256%nat.

(** The relay registered as [hop] holds the private key of the pair. *)
Definition relay_of (wc : WebCrypto) (hop : Node) (priv : rsa_private wc) : Prop :=
  exists pub, registered wc hop pub /\ rsa_key_pair wc pub priv.

(** The platform's draws: [generateKey] with [length: 256] gives 32
    bytes, [getRandomValues(new Uint8Array(16))] gives 16. *)
Definition well_drawn (env : SendEnv) : Prop :=
  length (cléEntrée env) = 32%nat
  /\ length (cléIntermédiaire env) = 32%nat
  /\ length (cléSortie env) = 32%nat
  /\ length (ivEntrée env) = 16%nat
  /\ length (ivIntermédiaire env) = 16%nat
  /\ length (ivSortie env) = 16%nat.

(** [Math.random] returns a number from 0 inclusive to 1 exclusive. *)
Definition unit_interval (random : nat -> Q) : Prop :=
  forall n, (0 <= random n)%Q /\ (random n < 1)%Q.

(** ** Modifying a ciphertext *)

(** Byte [i] of a buffer changed by the non-zero difference [d]. *)
Definition flip_byte (i : nat) (d : byte) (bs : list byte) : list byte :=
  alter (fun b => bxor b d) i bs.

(** The same change on the buffer that a Base64 text stands for. *)
Definition tamper (i : nat) (d : byte) (base64 : jsstring) : jsstring :=
  arrayBufferToBase64 (flip_byte i d (base64ToArrayBuffer base64)).

(** ** A run on the small instance *)

Definition demo_A : Node := {| nodeId := 1; pubKey := arrayBufferToBase64 [x01] |}.
Definition demo_B : Node := {| nodeId := 2; pubKey := arrayBufferToBase64 [x02] |}.
Definition demo_C : Node := {| nodeId := 3; pubKey := arrayBufferToBase64 [x03] |}.

Definition net_up : request -> result unit := fun _ => Ok tt.
Definition net_down : request -> result unit := fun _ => Throw NetworkError.

Definition demo_env (nodes : result (list Node)) : SendEnv := {|
  getNodeRegistry := nodes;
  Math_random := fun _ => (1 # 2)%Q;
  cléEntrée := replicate 32 x11;
  cléIntermédiaire := replicate 32 x22;
  cléSortie := replicate 32 x33;
  ivSortie := replicate 16 x01;
  ivIntermédiaire := replicate 16 x02;
  ivEntrée := replicate 16 x03;
  seedSortie := [];
  seedIntermédiaire := [];
  seedEntrée := [];
  réseau := net_up
|}.

Definition demo_user : Proc UserState :=
  {| vars := {| dernierMessageReçu := None; dernierMessageEnvoyé := None;
                dernierCircuit := [] |};
     outbox := [] |}.

Definition demo_router : Proc RouterState :=
  {| vars := {| dernierMessageChiffréReçu := None; dernierMessageDéchiffréReçu := None;
                dernièreDestinationMessage := None |};
     outbox := [] |}.

(** The body of the only request in an outbox. *)
Definition sent_body {S} (p : Proc S) : jsstring :=
  match outbox p with
  | [rq] => body rq
  | _ => []
  end.

(** The envelope that user 0 sends for ["hello"] to user 7 through the
    three registered nodes; the shuffle with every draw 1/2 orders them
    [demo_A; demo_C; demo_B]. *)
Definition demo_request : SendMessageBody :=
  {| message := js "hello"; destinationUserId := 7 |}.

Definition demo_envelope : jsstring :=
  sent_body (user_sendMessage toy 3000 4000
               (demo_env (Ok [demo_A; demo_B; demo_C])) demo_request demo_user).1.

(** ** RSA keys in Base64 *)

(** The DER formats of RSA keys: [exportKey("spki", ...)] and
    [exportKey("pkcs8", ...)] (for a [KeyObject], [export]), and
    [importKey("pkcs8", ...)]; [import_spki] is part of [WebCrypto]. *)
Record KeyFormats (wc : WebCrypto) := {
  export_spki : rsa_public wc -> list byte;
  export_pkcs8 : rsa_private wc -> list byte;
  import_pkcs8 : list byte -> option (rsa_private wc)
}.
Arguments export_spki {wc} k clé.
Arguments export_pkcs8 {wc} k clé.
Arguments import_pkcs8 {wc} k der.

(** Importing an exported key gives the key. *)
Record key_format_laws {wc : WebCrypto} (kf : KeyFormats wc) : Prop := {
  import_export_spki : forall pub, import_spki wc (export_spki kf pub) = Some pub;
  import_export_pkcs8 : forall priv, import_pkcs8 kf (export_pkcs8 kf priv) = Some priv
}.

Section Keys.

Context {wc : WebCrypto} (kf : KeyFormats wc).

Definition exportPubKey (clé : rsa_public wc) : jsstring :=
  let cléExportée := export_spki kf clé in
  arrayBufferToBase64 cléExportée.

Definition exportPrvKey (clé : option (rsa_private wc)) : option jsstring :=
  match clé with
  | None => None
  | Some clé =>
    let cléExportée := export_pkcs8 kf clé in
    Some (arrayBufferToBase64 cléExportée)
  end.

Definition importPrvKey (chaîneDeLaClé : jsstring) : result (rsa_private wc) :=
  let tamponBinaire := base64ToArrayBuffer chaîneDeLaClé in
  of_option DataError (import_pkcs8 kf tamponBinaire).

(** What [simpleOnionRouter] holds once its keys are made: the private
    key in Base64 and as a [CryptoKey], and the body of its request to
    [/registerNode]. *)
Record Routeur := {
  cléPrivéeBase64 : jsstring;
  cléPrivéeCrypto : rsa_private wc;
  donnéesEnregistrement : Node
}.

(** The start of [simpleOnionRouter(nodeId)], for the pair that
    [generateKeyPairSync] draws. *)
Definition simpleOnionRouter (nodeId : N) (publicKey : rsa_public wc)
    (privateKey : rsa_private wc) : result Routeur :=
  let cléPubliqueDer := export_spki kf publicKey in
  let cléPubliqueBase64 := arrayBufferToBase64 cléPubliqueDer in
  let cléPrivéeDer := export_pkcs8 kf privateKey in
  let cléPrivéeBase64 := arrayBufferToBase64 cléPrivéeDer in
  match importPrvKey cléPrivéeBase64 with
  | Throw e => Throw e
  | Ok cléPrivéeCrypto =>
    Ok {| cléPrivéeBase64 := cléPrivéeBase64;
          cléPrivéeCrypto := cléPrivéeCrypto;
          donnéesEnregistrement := {| nodeId := nodeId; pubKey := cléPubliqueBase64 |} |}
  end.

End Keys.

(** ** The routes of the two services *)

(** What a route answers: [res.send] with a status, or
    [res.json({ result })]. *)
Inductive reply :=
| sends (r : response)
| result_string (r : option jsstring)
| result_number (r : option Z)
| result_circuit (r : list N).

Definition answer_live : response := {| status := 200; sent := text "live" |}.

(** [JSON.stringify] writes [NaN] as [null]. *)
Definition json_number (n : option jsnumber) : option Z :=
  match n with
  | Some (Num z) => Some z
  | Some NaN => None
  | None => None
  end.

(** A route that reads a variable. *)
Definition read {S A} (f : S -> A) : M (Proc S) A :=
  fun p => (p, Ok (f (vars p))).

Inductive UserRoute :=
| user_GET_status
| user_POST_message (message : jsstring)
| user_GET_getLastReceivedMessage
| user_GET_getLastSentMessage
| user_GET_getLastCircuit
| user_POST_sendMessage (env : SendEnv) (req : SendMessageBody).

Inductive RouterRoute :=
| GET_status
| GET_getLastReceivedEncryptedMessage
| GET_getLastReceivedDecryptedMessage
| GET_getLastMessageDestination
| GET_getPrivateKey
| POST_message (net : request -> result unit) (message : jsstring).

Section Routes.

Context (wc : WebCrypto).
Context (BASE_USER_PORT BASE_ONION_ROUTER_PORT : N).

(** The routes of [userApp]. *)
Definition userApp (route : UserRoute) : M (Proc UserState) reply :=
  match route with
  | user_GET_status => ret (sends answer_live)
  | user_POST_message message =>
    let* r := user_message message in ret (sends r)
  | user_GET_getLastReceivedMessage =>
    let* r := read dernierMessageReçu in ret (result_string r)
  | user_GET_getLastSentMessage =>
    let* r := read dernierMessageEnvoyé in ret (result_string r)
  | user_GET_getLastCircuit =>
    let* r := read dernierCircuit in ret (result_circuit r)
  | user_POST_sendMessage env req =>
    let* r := user_sendMessage wc BASE_USER_PORT BASE_ONION_ROUTER_PORT env req in
    ret (sends r)
  end.

(** The routes of [routeurOnion], for the keys that the start made. *)
Definition routeurOnion (clés : @Routeur wc) (route : RouterRoute)
  : M (Proc RouterState) reply :=
  match route with
  | GET_status => ret (sends answer_live)
  | GET_getLastReceivedEncryptedMessage =>
    let* r := read dernierMessageChiffréReçu in ret (result_string r)
  | GET_getLastReceivedDecryptedMessage =>
    let* r := read dernierMessageDéchiffréReçu in ret (result_string r)
  | GET_getLastMessageDestination =>
    let* r := read dernièreDestinationMessage in ret (result_number (json_number r))
  | GET_getPrivateKey => ret (result_string (Some (cléPrivéeBase64 clés)))
  | POST_message net message =>
    let* r := routeurOnion_message wc (cléPrivéeCrypto clés) net message in
    ret (sends r)
  end.

End Routes.

(** Requests served one after the other, each to its end before the next
    starts. *)
Definition serve {S Rq Rs} (app : Rq -> M S Rs) (requests : list Rq) (s : S) : S :=
  fold_left (fun s rq => (app rq s).1) requests s.

(** ** What the routes are compared with *)

(** The alphabet of Base64. *)
Definition b64_alphabet (c : N) : bool :=
  ((65 <=? c) && (c <=? 90)) || ((97 <=? c) && (c <=? 122))
  || ((48 <=? c) && (c <=? 57)) || (c =? 43) || (c =? 47).

(** [String.prototype.toWellFormed]: every unpaired surrogate replaced by
    U+FFFD. *)
Definition toWellFormed (s : jsstring) : jsstring :=
  flat_map utf16_encode_scalar (to_scalars s).

(** A string without its leading byte order mark, if it has one. *)
Definition without_bom (s : jsstring) : jsstring :=
  match s with
  | u :: r => if u =? 0xFEFF then r else s
  | [] => []
  end.

(** The request that a relay sends for an envelope: none when a
    decryption fails or the address is no port. *)
Definition forwarded (wc : WebCrypto) (priv : rsa_private wc) (envelope : jsstring)
  : option request :=
  match strip_layer wc priv envelope with
  | Ok (next, payload) =>
    if valid_port next then Some {| port := next; body := payload |} else None
  | Throw _ => None
  end.

(** The envelope of a [POST /message], the layer opened from it, and the
    request sent for it. *)
Definition posted (route : RouterRoute) : option jsstring :=
  match route with
  | POST_message _ message => Some message
  | _ => None
  end.

Definition opened (wc : WebCrypto) (priv : rsa_private wc) (route : RouterRoute)
  : option (jsnumber * jsstring) :=
  match route with
  | POST_message _ message =>
    match strip_layer wc priv message with
    | Ok layer => Some layer
    | Throw _ => None
    end
  | _ => None
  end.

Definition relayed (wc : WebCrypto) (priv : rsa_private wc) (route : RouterRoute)
  : option request :=
  match route with
  | POST_message _ message => forwarded wc priv message
  | _ => None
  end.

(** The message of a [POST /message] and of a [POST /sendMessage] to a
    user. *)
Definition received (route : UserRoute) : option jsstring :=
  match route with
  | user_POST_message message => Some message
  | _ => None
  end.

Definition submitted (route : UserRoute) : option jsstring :=
  match route with
  | user_POST_sendMessage _ req => Some (message req)
  | _ => None
  end.

(** The message of a [POST /sendMessage] whose lookup of the registry
    resolved. *)
Definition dispatched (route : UserRoute) : option jsstring :=
  match route with
  | user_POST_sendMessage env req =>
    match getNodeRegistry env with
    | Ok _ => Some (message req)
    | Throw _ => None
    end
  | _ => None
  end.

(** The latest of a list of values, or the value before them. *)
Definition latest {A} (before : option A) (l : list A) : option A :=
  match last l with
  | Some a => Some a
  | None => before
  end.

(** A small instance of the key formats: a key is its own encoding. *)
Definition toy_formats : KeyFormats toy := {|
  export_spki := fun (pub : rsa_public toy) => [pub : byte];
  export_pkcs8 := fun (priv : rsa_private toy) => [priv : byte];
  import_pkcs8 := fun der => match der with [b] => Some (b : rsa_private toy) | _ => None end
|}.


(** * Proofs *)

(** [lia] with division and remainder by constants. *)
Ltac Zify.zify_post_hook ::= Z.to_euclidean_division_equations.

(** The address encoding of the specification. *)
Example padStart_42 : padStart (Number_toString 42) 10 (js "0") = js "0000000042".
Proof. reflexivity. Qed.

Example parseInt_42 : parseInt (js "0000000042") = Num 42.
Proof. reflexivity. Qed.

Lemma to_N_lt (b : byte) : Byte.to_N b < 256.
Proof. apply (Byte.to_N_bounded b) || (pose proof (Byte.to_N_bounded b); lia). Qed.

Lemma to_N_byte_of_N (n : N) : n < 256 -> Byte.to_N (byte_of_N n) = n.
Proof.
  intros H. unfold byte_of_N. rewrite N.mod_small by done.
  destruct (Byte.of_N n) as [b|] eqn:E.
  - simpl. by apply Byte.to_of_N.
  - apply Byte.of_N_None_iff in E. lia.
Qed.

Lemma byte_of_N_to_N (b : byte) : byte_of_N (Byte.to_N b) = b.
Proof.
  unfold byte_of_N. rewrite N.mod_small by apply to_N_lt.
  by rewrite Byte.of_to_N.
Qed.

Lemma lxor_lt_256 (a b : N) : a < 256 -> b < 256 -> N.lxor a b < 256.
Proof.
  intros Ha Hb.
  destruct (N.eq_dec (N.lxor a b) 0) as [->|Hne]; [lia|].
  apply (N.log2_lt_pow2 _ 8); [lia|].
  eapply N.le_lt_trans; [apply N.log2_lxor|].
  destruct (N.eq_dec a 0) as [->|Ha0], (N.eq_dec b 0) as [->|Hb0]; simpl.
  - lia.
  - rewrite N.max_r by lia. apply N.log2_lt_pow2; lia.
  - rewrite N.max_l by lia. apply N.log2_lt_pow2; lia.
  - apply N.max_lub_lt; apply N.log2_lt_pow2; lia.
Qed.

Lemma bxor_involutive (a b : byte) : bxor (bxor a b) b = a.
Proof.
  unfold bxor. rewrite to_N_byte_of_N by (apply lxor_lt_256; apply to_N_lt).
  rewrite N.lxor_assoc, N.lxor_nilpotent, N.lxor_0_r. apply byte_of_N_to_N.
Qed.

(** ** UTF-8 *)

Lemma utf8_lead_ascii b : b <= 0x7F -> utf8_lead b = (utf8_init, [b]).
Proof. intros H. unfold utf8_lead. by rewrite (proj2 (N.leb_le _ _) H). Qed.

Ltac leb_false := match goal with
  | |- context [N.leb ?a ?b] =>
      (replace (N.leb a b) with false by (symmetry; apply N.leb_gt; lia))
  end.
Ltac leb_true := match goal with
  | |- context [N.leb ?a ?b] =>
      (replace (N.leb a b) with true by (symmetry; apply N.leb_le; lia))
  end.
Ltac eqb_false := match goal with
  | |- context [N.eqb ?a ?b] =>
      (replace (N.eqb a b) with false by (symmetry; apply N.eqb_neq; lia))
  end.
Ltac eqb_true := match goal with
  | |- context [N.eqb ?a ?b] =>
      (replace (N.eqb a b) with true by (symmetry; apply N.eqb_eq; lia))
  end.
Ltac ltb_false := match goal with
  | |- context [N.ltb ?a ?b] =>
      (replace (N.ltb a b) with false by (symmetry; apply N.ltb_ge; lia))
  end.
Ltac ltb_true := match goal with
  | |- context [N.ltb ?a ?b] =>
      (replace (N.ltb a b) with true by (symmetry; apply N.ltb_lt; lia))
  end.
Ltac decide_tests :=
  repeat first [leb_true | leb_false | eqb_true | eqb_false | ltb_true | ltb_false];
  cbn [andb orb negb].

Lemma utf8_lead_two b :
  0xC2 <= b <= 0xDF ->
  utf8_lead b =
  ({| code_point := b mod 32; bytes_seen := 0; bytes_needed := 1;
      lower_boundary := 0x80; upper_boundary := 0xBF |}, []).
Proof. intros H. unfold utf8_lead. by decide_tests. Qed.

Lemma utf8_lead_three b :
  0xE0 <= b <= 0xEF ->
  utf8_lead b =
  ({| code_point := b mod 16; bytes_seen := 0; bytes_needed := 2;
      lower_boundary := if b =? 0xE0 then 0xA0 else 0x80;
      upper_boundary := if b =? 0xED then 0x9F else 0xBF |}, []).
Proof.
  intros H. unfold utf8_lead.
  do 3 (first [leb_true | leb_false]; cbn [andb]).
  by do 2 (first [leb_true | leb_false]; cbn [andb]).
Qed.

Lemma utf8_lead_four b :
  0xF0 <= b <= 0xF4 ->
  utf8_lead b =
  ({| code_point := b mod 8; bytes_seen := 0; bytes_needed := 3;
      lower_boundary := if b =? 0xF0 then 0x90 else 0x80;
      upper_boundary := if b =? 0xF4 then 0x8F else 0xBF |}, []).
Proof.
  intros H. unfold utf8_lead.
  do 3 (first [leb_true | leb_false]; cbn [andb]).
  do 2 (first [leb_true | leb_false]; cbn [andb]).
  by do 2 (first [leb_true | leb_false]; cbn [andb]).
Qed.

Lemma utf8_step_last c seen lo hi b :
  lo <= b <= hi ->
  utf8_step {| code_point := c; bytes_seen := seen; bytes_needed := S seen;
               lower_boundary := lo; upper_boundary := hi |} b
  = (utf8_init, [c * 64 + b mod 64]).
Proof.
  intros H. unfold utf8_step. cbn [bytes_needed lower_boundary upper_boundary
    code_point bytes_seen].
  do 2 leb_true. cbn [andb]. by rewrite Nat.eqb_refl.
Qed.

Lemma utf8_step_more c seen needed lo hi b :
  lo <= b <= hi -> needed <> O -> needed <> S seen ->
  utf8_step {| code_point := c; bytes_seen := seen; bytes_needed := needed;
               lower_boundary := lo; upper_boundary := hi |} b
  = ({| code_point := c * 64 + b mod 64; bytes_seen := S seen;
        bytes_needed := needed; lower_boundary := 0x80; upper_boundary := 0xBF |}, []).
Proof.
  intros H Hn Hs. unfold utf8_step. cbn [bytes_needed lower_boundary upper_boundary
    code_point bytes_seen].
  destruct needed as [|n]; [done|].
  do 2 leb_true. cbn [andb].
  destruct (Nat.eqb_spec (S seen) (S n)); [congruence|done].
Qed.

Lemma utf8_decode_cons st b r :
  utf8_decode st (b :: r) =
  (utf8_step st (Byte.to_N b)).2 ++ utf8_decode (utf8_step st (Byte.to_N b)).1 r.
Proof. simpl. by destruct (utf8_step st (Byte.to_N b)). Qed.

Lemma utf8_step_init b : utf8_step utf8_init b = utf8_lead b.
Proof. done. Qed.

Lemma utf8_decode_encode_scalar c rest :
  is_scalar c ->
  utf8_decode utf8_init (utf8_encode_scalar c ++ rest) = c :: utf8_decode utf8_init rest.
Proof.
  intros Hc. unfold utf8_encode_scalar.
  destruct (N.ltb_spec c 0x80) as [H1|H1].
  { cbn [app]. rewrite utf8_decode_cons, utf8_step_init.
    rewrite to_N_byte_of_N by lia. by rewrite utf8_lead_ascii by lia. }
  destruct (N.ltb_spec c 0x800) as [H2|H2].
  { cbn [app]. rewrite utf8_decode_cons, utf8_step_init.
    rewrite to_N_byte_of_N by lia. rewrite utf8_lead_two by lia. cbn [fst snd app].
    rewrite utf8_decode_cons, to_N_byte_of_N by lia.
    rewrite utf8_step_last by lia. cbn [fst snd app]. f_equal. lia. }
  destruct (N.ltb_spec c 0x10000) as [H3|H3].
  { cbn [app]. rewrite utf8_decode_cons, utf8_step_init.
    rewrite to_N_byte_of_N by lia. rewrite utf8_lead_three by lia. cbn [fst snd app].
    rewrite utf8_decode_cons, to_N_byte_of_N by lia.
    rewrite utf8_step_more; [|destruct Hc;
      repeat (match goal with |- context [N.eqb ?a ?b] => destruct (N.eqb_spec a b) end);
      lia|done|done].
    cbn [fst snd app].
    rewrite utf8_decode_cons, to_N_byte_of_N by lia.
    rewrite utf8_step_last by lia. cbn [fst snd app]. f_equal.
    assert ((224 + c / 4096) mod 16 = c / 4096) as -> by lia.
    lia. }
  assert (c < 0x110000) by (destruct Hc; lia).
  cbn [app]. rewrite utf8_decode_cons, utf8_step_init.
  rewrite to_N_byte_of_N by lia. rewrite utf8_lead_four by lia. cbn [fst snd app].
  rewrite utf8_decode_cons, to_N_byte_of_N by lia.
  rewrite utf8_step_more; [|
      repeat (match goal with |- context [N.eqb ?a ?b] => destruct (N.eqb_spec a b) end);
      lia|done|done].
  cbn [fst snd app].
  rewrite utf8_decode_cons, to_N_byte_of_N by lia.
  rewrite utf8_step_more by (done || lia). cbn [fst snd app].
  rewrite utf8_decode_cons, to_N_byte_of_N by lia.
  rewrite utf8_step_last by lia. cbn [fst snd app]. f_equal.
  assert ((240 + c / 262144) mod 8 = c / 262144) as -> by lia.
  assert (forall x, (128 + x mod 64) mod 64 = x mod 64) as E by (intros; lia).
  rewrite !E. clear E. lia.
Qed.

Lemma utf8_decode_encode cs :
  Forall is_scalar cs ->
  utf8_decode utf8_init (flat_map utf8_encode_scalar cs) = cs.
Proof.
  induction 1 as [|c cs Hc _ IH]; [done|].
  cbn [flat_map]. rewrite utf8_decode_encode_scalar by done. by rewrite IH.
Qed.

(** ** UTF-16 *)

Lemma well_formed_scalars_aux n : forall s,
  (length s <= n)%nat -> well_formed s = true ->
  Forall is_scalar (to_scalars s)
  /\ flat_map utf16_encode_scalar (to_scalars s) = s.
Proof.
  induction n as [|n IH]; intros s Hlen Hwf.
  { destruct s; [done|simpl in Hlen; lia]. }
  destruct s as [|u r]; [done|].
  cbn [well_formed to_scalars] in *.
  destruct (is_high_surrogate u) eqn:Hh.
  - destruct r as [|l r']; [done|].
    apply andb_true_iff in Hwf as [Hl Hwf]. rewrite Hl.
    destruct (IH r') as [IH1 IH2]; [simpl in Hlen; lia|done|].
    unfold is_high_surrogate, is_low_surrogate in Hh, Hl.
    apply andb_true_iff in Hh as [Hh1 Hh2]. apply andb_true_iff in Hl as [Hl1 Hl2].
    apply N.leb_le in Hh1, Hh2, Hl1, Hl2.
    split.
    + constructor; [right; lia|done].
    + cbn [flat_map]. rewrite IH2. unfold utf16_encode_scalar.
      replace (_ <? _) with false by (symmetry; apply N.ltb_ge; lia).
      cbn [app]. f_equal; [lia|f_equal; lia].
  - apply andb_true_iff in Hwf as [Hwf Hr]. apply andb_true_iff in Hwf as [Hl Hu].
    apply negb_true_iff in Hl. rewrite Hl. apply N.ltb_lt in Hu.
    destruct (IH r) as [IH1 IH2]; [simpl in Hlen; lia|done|].
    unfold is_high_surrogate, is_low_surrogate in Hh, Hl.
    apply andb_false_iff in Hh, Hl.
    rewrite !N.leb_gt in Hh, Hl.
    split.
    + constructor; [|done]. unfold is_scalar. lia.
    + cbn [flat_map]. rewrite IH2. unfold utf16_encode_scalar.
      by replace (_ <? _) with true by (symmetry; apply N.ltb_lt; lia).
Qed.

Lemma well_formed_scalars s :
  well_formed s = true -> Forall is_scalar (to_scalars s).
Proof. intros H. by apply (well_formed_scalars_aux (length s)). Qed.

Lemma utf16_encode_to_scalars s :
  well_formed s = true -> flat_map utf16_encode_scalar (to_scalars s) = s.
Proof. intros H. by apply (well_formed_scalars_aux (length s)). Qed.

(** ** The byte order mark *)

Lemma strip_bom_other bs :
  (forall r, bs <> xef :: xbb :: xbf :: r) -> strip_bom bs = bs.
Proof.
  intros H. destruct bs as [|a bs]; [done|]. destruct a; try done.
  destruct bs as [|b bs]; [done|]. destruct b; try done.
  destruct bs as [|c bs]; [done|]. destruct c; try done.
  by destruct (H bs).
Qed.

Lemma byte_of_N_eq n b : n < 256 -> byte_of_N n = b -> n = Byte.to_N b.
Proof. intros H <-. by rewrite to_N_byte_of_N. Qed.

Lemma utf8_encode_scalar_bom c rest r :
  c < 0x110000 ->
  utf8_encode_scalar c ++ rest = xef :: xbb :: xbf :: r -> c = 0xFEFF.
Proof.
  intros Hc. unfold utf8_encode_scalar.
  destruct (N.ltb_spec c 0x80) as [H1|H1].
  { cbn [app]. intros [= E _]. apply byte_of_N_eq in E; [|lia]. simpl in E. lia. }
  destruct (N.ltb_spec c 0x800) as [H2|H2].
  { cbn [app]. intros [= E _]. apply byte_of_N_eq in E; [|lia]. simpl in E. lia. }
  destruct (N.ltb_spec c 0x10000) as [H3|H3].
  { cbn [app]. intros [= E1 E2 E3 _].
    apply byte_of_N_eq in E1, E2, E3; try lia. simpl in E1, E2, E3. lia. }
  cbn [app]. intros [= E _]. apply byte_of_N_eq in E; [|lia]. simpl in E. lia.
Qed.

Lemma strip_bom_TextEncoder s :
  well_formed s = true -> head s <> Some 0xFEFF ->
  strip_bom (TextEncoder_encode s) = TextEncoder_encode s.
Proof.
  intros Hwf Hhd. apply strip_bom_other. intros r E.
  destruct s as [|u s]; [done|].
  unfold TextEncoder_encode in E. cbn [well_formed to_scalars] in *.
  destruct (is_high_surrogate u) eqn:Hh.
  - destruct s as [|l s']; [done|].
    apply andb_true_iff in Hwf as [Hl Hwf]. rewrite Hl in E.
    cbn [flat_map] in E.
    unfold is_high_surrogate, is_low_surrogate in Hh, Hl.
    apply andb_true_iff in Hh as [Hh1 Hh2]. apply andb_true_iff in Hl as [Hl1 Hl2].
    apply N.leb_le in Hh1, Hh2, Hl1, Hl2.
    apply utf8_encode_scalar_bom in E; lia.
  - apply andb_true_iff in Hwf as [Hwf Hr]. apply andb_true_iff in Hwf as [Hl Hu].
    apply negb_true_iff in Hl. rewrite Hl in E. apply N.ltb_lt in Hu.
    cbn [flat_map] in E. apply utf8_encode_scalar_bom in E; [|lia].
    apply Hhd. simpl. by rewrite E.
Qed.

(** Decoding the encoding of a well-formed string that does not start
    with U+FEFF gives the string back. *)
Lemma TextDecoder_TextEncoder s :
  well_formed s = true -> head s <> Some 0xFEFF ->
  TextDecoder_decode (TextEncoder_encode s) = s.
Proof.
  intros Hwf Hhd. unfold TextDecoder_decode.
  rewrite strip_bom_TextEncoder by done.
  unfold TextEncoder_encode.
  rewrite utf8_decode_encode by by apply well_formed_scalars.
  by apply utf16_encode_to_scalars.
Qed.

(** Strings of code units below U+D800, such as ASCII text. *)
Lemma well_formed_app a b :
  Forall (fun u => u < 0xD800) a -> well_formed b = true ->
  well_formed (a ++ b) = true.
Proof.
  induction 1 as [|u a Hu _ IH]; intros Hb; [done|].
  cbn [app well_formed]. unfold is_high_surrogate, is_low_surrogate.
  replace (0xD800 <=? u) with false by (symmetry; apply N.leb_gt; lia).
  replace (0xDC00 <=? u) with false by (symmetry; apply N.leb_gt; lia).
  replace (u <? 0x10000) with true by (symmetry; apply N.ltb_lt; lia).
  cbn [andb negb]. by apply IH.
Qed.

Lemma well_formed_below a :
  Forall (fun u => u < 0xD800) a -> well_formed a = true.
Proof. intros H. rewrite <- (app_nil_r a). by apply well_formed_app. Qed.

(** ** Base64 *)

Lemma b64_char_range v : v < 64 -> b64_char v < 128 /\ b64_char v <> 61.
Proof.
  intros H. unfold b64_char.
  repeat match goal with
         | |- context [N.ltb ?a ?b] => destruct (N.ltb_spec a b)
         | |- context [N.eqb ?a ?b] => destruct (N.eqb_spec a b)
         end; lia.
Qed.

Lemma b64_value_char v : v < 64 -> b64_value (b64_char v) = Some v.
Proof.
  intros H. unfold b64_char.
  destruct (N.ltb_spec v 26).
  { unfold b64_value. decide_tests. f_equal. lia. }
  destruct (N.ltb_spec v 52).
  { unfold b64_value. decide_tests. f_equal. lia. }
  destruct (N.ltb_spec v 62).
  { unfold b64_value. decide_tests. f_equal. lia. }
  destruct (N.eqb_spec v 62) as [->|]; [done|].
  assert (v = 63) as -> by lia. done.
Qed.

Lemma b64_sextets_char v r :
  v < 64 -> b64_sextets (b64_char v :: r) = v :: b64_sextets r.
Proof.
  intros H. cbn [b64_sextets]. rewrite b64_value_char by done.
  destruct (N.eqb_spec (b64_char v) 61) as [E|]; [|done].
  by destruct (b64_char_range v H).
Qed.

Lemma byte_of_N_intro x b : x = Byte.to_N b -> byte_of_N x = b.
Proof. intros ->. apply byte_of_N_to_N. Qed.

Lemma base64_round_trip_aux n : forall bs,
  (length bs <= n)%nat -> base64ToArrayBuffer (arrayBufferToBase64 bs) = bs.
Proof.
  unfold base64ToArrayBuffer.
  induction n as [n IH] using (well_founded_induction Nat.lt_wf_0); intros bs Hlen.
  destruct bs as [|a [|b [|c r]]]; [done| | |].
  - pose proof (to_N_lt a). cbn [arrayBufferToBase64].
    rewrite !b64_sextets_char by lia. cbn [b64_sextets N.eqb Pos.eqb b64_bytes].
    f_equal. apply byte_of_N_intro. lia.
  - pose proof (to_N_lt a). pose proof (to_N_lt b). cbn [arrayBufferToBase64].
    rewrite !b64_sextets_char by lia. cbn [b64_sextets N.eqb Pos.eqb b64_bytes].
    f_equal; [apply byte_of_N_intro; lia|].
    f_equal. apply byte_of_N_intro. lia.
  - pose proof (to_N_lt a). pose proof (to_N_lt b). pose proof (to_N_lt c).
    cbn [arrayBufferToBase64].
    rewrite !b64_sextets_char by lia. cbn [b64_bytes].
    rewrite (IH (length r)); [|simpl in Hlen; lia|done].
    f_equal; [apply byte_of_N_intro; lia|].
    f_equal; [apply byte_of_N_intro; lia|].
    f_equal. apply byte_of_N_intro. lia.
Qed.

(** Decoding the Base64 text of a buffer gives the buffer back. *)
Lemma base64_round_trip bs : base64ToArrayBuffer (arrayBufferToBase64 bs) = bs.
Proof. by apply (base64_round_trip_aux (length bs)). Qed.

Lemma base64_length_aux n : forall bs,
  (length bs <= n)%nat ->
  length (arrayBufferToBase64 bs) = (4 * ((length bs + 2) / 3))%nat.
Proof.
  induction n as [n IH] using (well_founded_induction Nat.lt_wf_0); intros bs Hlen.
  destruct bs as [|a [|b [|c r]]]; [done|done|done|].
  cbn [arrayBufferToBase64 length].
  rewrite (IH (length r)); [|simpl in Hlen; lia|done].
  replace (S (S (S (length r))) + 2)%nat with (length r + 2 + 1 * 3)%nat by lia.
  rewrite Nat.div_add by done. lia.
Qed.

Lemma base64_length bs :
  length (arrayBufferToBase64 bs) = (4 * ((length bs + 2) / 3))%nat.
Proof. by apply (base64_length_aux (length bs)). Qed.

Lemma base64_ascii_aux n : forall bs,
  (length bs <= n)%nat -> Forall (fun u => u < 128) (arrayBufferToBase64 bs).
Proof.
  induction n as [n IH] using (well_founded_induction Nat.lt_wf_0); intros bs Hlen.
  destruct bs as [|a [|b [|c r]]]; [done| | |].
  - pose proof (to_N_lt a). cbn [arrayBufferToBase64].
    repeat constructor; try (apply b64_char_range; lia); lia.
  - pose proof (to_N_lt a). pose proof (to_N_lt b). cbn [arrayBufferToBase64].
    repeat constructor; try (apply b64_char_range; lia); lia.
  - pose proof (to_N_lt a). pose proof (to_N_lt b). pose proof (to_N_lt c).
    cbn [arrayBufferToBase64].
    repeat (constructor; [apply b64_char_range; lia|]).
    apply (IH (length r)); [simpl in Hlen; lia|done].
Qed.

(** Base64 text is ASCII. *)
Lemma base64_ascii bs : Forall (fun u => u < 128) (arrayBufferToBase64 bs).
Proof. by apply (base64_ascii_aux (length bs)). Qed.

(** ** PKCS#7 *)

Lemma pkcs7_pad_length bs :
  length (pkcs7_pad bs) = (16 * (length bs / 16 + 1))%nat.
Proof. unfold pkcs7_pad. rewrite length_app, length_replicate. lia. Qed.

Lemma byte_eqb_refl b : Byte.eqb b b = true.
Proof. by apply Byte.byte_dec_lb. Qed.

Lemma pkcs7_unpad_pad bs : pkcs7_unpad (pkcs7_pad bs) = Some bs.
Proof.
  unfold pkcs7_unpad, pkcs7_pad.
  set (p := (16 - length bs mod 16)%nat).
  assert (1 <= p <= 16)%nat as Hp by (unfold p; lia).
  set (x := byte_of_N (N.of_nat p)).
  assert (N.to_nat (Byte.to_N x) = p) as Hx.
  { unfold x. rewrite to_N_byte_of_N by lia. lia. }
  assert (last (bs ++ replicate p x) = Some x) as ->.
  { destruct p as [|p']; [lia|]. rewrite replicate_S_end, app_assoc. apply last_snoc. }
  rewrite Hx, length_app, length_replicate.
  replace (length bs + p - p)%nat with (length bs) by lia.
  rewrite drop_app_length, take_app_length.
  replace (1 <=? p)%nat with true by (symmetry; apply Nat.leb_le; lia).
  replace (p <=? 16)%nat with true by (symmetry; apply Nat.leb_le; lia).
  replace (p <=? length bs + p)%nat with true by (symmetry; apply Nat.leb_le; lia).
  cbn [andb].
  assert (forallb (Byte.eqb x) (replicate p x) = true) as ->; [|done].
  apply forallb_forall. intros y Hy%list_elem_of_In%elem_of_replicate.
  destruct Hy as [-> _]. apply byte_eqb_refl.
Qed.

(** ** Cipher block chaining *)

Lemma xor_bytes_length a b :
  length a = length b -> length (xor_bytes a b) = length a.
Proof. intros H. unfold xor_bytes. rewrite length_zip_with. lia. Qed.

Lemma xor_bytes_involutive a b :
  length a = length b -> xor_bytes (xor_bytes a b) b = a.
Proof.
  unfold xor_bytes. revert b. induction a as [|x a IH]; intros [|y b] H; try done.
  cbn [zip_with]. rewrite bxor_involutive. f_equal. apply IH. simpl in H. lia.
Qed.

Section CBC.

Context (wc : WebCrypto) (laws : aes_laws wc).

Lemma cbc_encrypt_blocks_length n key prev data :
  valid_aes_key key = true ->
  length prev = 16%nat -> length data = (16 * n)%nat ->
  length (cbc_encrypt_blocks wc n key prev data) = (16 * n)%nat.
Proof using laws.
  intros Hkey. revert prev data. induction n as [|n IH]; intros prev data Hp Hd; [done|].
  cbn [cbc_encrypt_blocks]. rewrite length_app.
  assert (length (take 16 data) = 16%nat) as Ht by (rewrite length_take; lia).
  assert (length (xor_bytes (take 16 data) prev) = 16%nat) as Hx
    by (rewrite xor_bytes_length; lia).
  rewrite (aes_encrypt_length wc laws) by done.
  rewrite IH; [lia|by apply (aes_encrypt_length wc laws)|rewrite length_drop; lia].
Qed.

Lemma cbc_decrypt_encrypt_blocks n key prev data :
  valid_aes_key key = true ->
  length prev = 16%nat -> length data = (16 * n)%nat ->
  cbc_decrypt_blocks wc n key prev (cbc_encrypt_blocks wc n key prev data) = data.
Proof using laws.
  intros Hkey. revert prev data. induction n as [|n IH]; intros prev data Hp Hd.
  { destruct data; [done|simpl in Hd; lia]. }
  cbn [cbc_encrypt_blocks cbc_decrypt_blocks].
  assert (length (take 16 data) = 16%nat) as Ht by (rewrite length_take; lia).
  assert (length (xor_bytes (take 16 data) prev) = 16%nat) as Hx
    by (rewrite xor_bytes_length; lia).
  set (c := aes_encrypt_block wc key (xor_bytes (take 16 data) prev)).
  assert (length c = 16%nat) as Hc by by apply (aes_encrypt_length wc laws).
  rewrite take_app_length', drop_app_length' by done.
  unfold c at 1. rewrite (aes_decrypt_encrypt wc laws) by done.
  rewrite xor_bytes_involutive by lia.
  rewrite IH; [apply take_drop|done|rewrite length_drop; lia].
Qed.

(** Decryption under the same key and initialisation vector recovers the
    data. *)
Lemma aes_cbc_decrypt_encrypt key iv data :
  valid_aes_key key = true -> length iv = 16%nat ->
  exists c, aes_cbc_encrypt wc key iv data = Ok c
            /\ aes_cbc_decrypt wc key iv c = Ok data.
Proof using laws.
  intros Hkey Hiv. unfold aes_cbc_encrypt, aes_cbc_decrypt. rewrite Hiv. cbn [Nat.eqb negb].
  eexists; split; [done|].
  pose proof (pkcs7_pad_length data) as Hp.
  set (n := (length (pkcs7_pad data) / 16)%nat).
  assert (length (pkcs7_pad data) = (16 * n)%nat) as Hn by (unfold n; lia).
  rewrite cbc_encrypt_blocks_length by done.
  assert (n <> O) by lia.
  replace (16 * n =? 0)%nat with false by (symmetry; apply Nat.eqb_neq; lia).
  replace ((16 * n) mod 16 =? 0)%nat with true by (symmetry; apply Nat.eqb_eq; lia).
  cbn [orb negb]. replace (16 * n / 16)%nat with n by lia.
  rewrite cbc_decrypt_encrypt_blocks by done.
  by rewrite pkcs7_unpad_pad.
Qed.

(** ** crypto.ts: the symmetric functions *)

Lemma importSymKey_exportSymKey key :
  valid_aes_key key = true -> importSymKey (exportSymKey key) = Ok key.
Proof.
  intros H. unfold importSymKey, exportSymKey. by rewrite base64_round_trip, H.
Qed.

(** What decryption returns for every string: the text re-decoded from
    its UTF-8 encoding. *)
Lemma symDecrypt_symEncrypt_any key iv données :
  valid_aes_key key = true -> length iv = 16%nat ->
  exists c, symEncrypt wc iv key données = Ok c
            /\ symDecrypt wc (exportSymKey key) c
               = Ok (TextDecoder_decode (TextEncoder_encode données)).
Proof using laws.
  intros Hk Hiv. unfold symEncrypt, symDecrypt.
  destruct (aes_cbc_decrypt_encrypt key iv (TextEncoder_encode données) Hk Hiv)
    as (c & -> & Hd).
  eexists; split; [done|].
  rewrite importSymKey_exportSymKey by done.
  rewrite base64_round_trip.
  by rewrite take_app_length', drop_app_length', Hd.
Qed.

Lemma symDecrypt_symEncrypt key iv données :
  valid_aes_key key = true -> length iv = 16%nat ->
  well_formed données = true -> head données <> Some 0xFEFF ->
  exists c, symEncrypt wc iv key données = Ok c
            /\ symDecrypt wc (exportSymKey key) c = Ok données.
Proof using laws.
  intros Hk Hiv Hwf Hbom.
  destruct (symDecrypt_symEncrypt_any key iv données Hk Hiv) as (c & He & Hd).
  exists c. split; [done|]. by rewrite Hd, TextDecoder_TextEncoder.
Qed.

End CBC.

(** ** Strings and numbers *)

Lemma substring_prefix s n : substring s 0 (Some n) = take n s.
Proof.
  unfold substring. cbv [default from_option id].
  replace (Nat.min (Nat.min 0 (length s)) (Nat.min n (length s))) with 0%nat by lia.
  replace (Nat.max (Nat.min 0 (length s)) (Nat.min n (length s)) - 0)%nat
    with (Nat.min n (length s)) by lia.
  cbn [drop]. destruct (Nat.le_gt_cases n (length s)).
  - by rewrite Nat.min_l.
  - rewrite Nat.min_r by lia. rewrite (take_ge s n) by lia. apply take_ge. lia.
Qed.

Lemma substring_suffix s n : substring s n None = drop n s.
Proof.
  unfold substring. cbv [default from_option id].
  replace (Nat.min (Nat.min n (length s)) (Nat.min (length s) (length s)))
    with (Nat.min n (length s)) by lia.
  replace (Nat.max (Nat.min n (length s)) (Nat.min (length s) (length s))
           - Nat.min n (length s))%nat
    with (length s - Nat.min n (length s))%nat by lia.
  destruct (Nat.le_gt_cases n (length s)).
  - rewrite Nat.min_l by done. apply take_ge. rewrite length_drop. lia.
  - rewrite Nat.min_r by lia. rewrite (drop_ge s n), (drop_ge s (length s)) by lia.
    by rewrite take_nil.
Qed.

Lemma digits_value_snoc ds c : digits_value (ds ++ [c]) = 10 * digits_value ds + (c - 48).
Proof. unfold digits_value. by rewrite fold_left_app. Qed.

Lemma is_digit_spec c : is_digit c = true <-> 48 <= c <= 57.
Proof. unfold is_digit. rewrite andb_true_iff, !N.leb_le. lia. Qed.

Lemma digits_aux_spec fuel : forall n acc,
  n < 10 ^ N.of_nat fuel -> fuel <> O ->
  exists ds, digits_aux fuel n acc = ds ++ acc
             /\ Forall (fun c => is_digit c = true) ds
             /\ digits_value ds = n
             /\ ds <> []
             /\ forall k, n < 10 ^ N.of_nat k -> k <> O -> (length ds <= k)%nat.
Proof.
  induction fuel as [|fuel IH]; intros n acc Hn Hf; [done|].
  cbn [digits_aux].
  assert (is_digit (48 + n mod 10) = true) as Hd by (apply is_digit_spec; lia).
  destruct (N.eqb_spec (n / 10) 0) as [E|E].
  - exists [48 + n mod 10]. split; [done|]. split; [by constructor|].
    split; [unfold digits_value; simpl; lia|]. split; [done|].
    intros k _ Hk. simpl. lia.
  - assert (fuel <> O) as Hf'.
    { intros ->. change (10 ^ N.of_nat 1) with 10 in Hn. lia. }
    destruct (IH (n / 10) ((48 + n mod 10) :: acc)) as (ds & E1 & E2 & E3 & E4 & E5);
      [|done|].
    { rewrite Nat2N.inj_succ, N.pow_succ_r' in Hn. lia. }
    exists (ds ++ [48 + n mod 10]). rewrite E1.
    split; [by rewrite <- app_assoc|].
    split; [apply Forall_app; split; [done|by constructor]|].
    split; [rewrite digits_value_snoc, E3; lia|].
    split; [by destruct ds|].
    intros k Hk Hk0. rewrite length_app. simpl.
    destruct k as [|k]; [done|].
    assert (k <> O) as Hk'.
    { intros ->. change (10 ^ N.of_nat 1) with 10 in Hk. lia. }
    specialize (E5 k). rewrite Nat2N.inj_succ, N.pow_succ_r' in Hk.
    assert (length ds <= k)%nat by (apply E5; [lia|done]). lia.
Qed.

Lemma Number_toString_spec n :
  Forall (fun c => is_digit c = true) (Number_toString n)
  /\ digits_value (Number_toString n) = n
  /\ Number_toString n <> []
  /\ forall k, n < 10 ^ N.of_nat k -> k <> O -> (length (Number_toString n) <= k)%nat.
Proof.
  unfold Number_toString.
  destruct (digits_aux_spec (S (N.to_nat (N.log2 n))) n []) as (ds & E1 & E2 & E3 & E4 & E5);
    [|done|].
  - rewrite Nat2N.inj_succ, N2Nat.id.
    destruct (N.eq_dec n 0) as [->|Hn]; [done|].
    eapply N.lt_le_trans; [apply N.log2_spec; lia|].
    apply N.pow_le_mono_l. lia.
  - rewrite E1, app_nil_r. done.
Qed.

Lemma digits_value_zeros k ds :
  digits_value (replicate k 48 ++ ds) = digits_value ds.
Proof.
  unfold digits_value. rewrite fold_left_app.
  assert (fold_left (fun acc c => 10 * acc + (c - 48)) (replicate k 48) 0 = 0) as ->; [|done].
  induction k as [|k IH]; [done|]. by cbn.
Qed.

Lemma concat_replicate_singleton {A} k (x : A) :
  concat (replicate k [x]) = replicate k x.
Proof. induction k as [|k IH]; [done|]. cbn [replicate concat app]. by rewrite IH. Qed.

Lemma padStart_address p :
  p < 10 ^ 10 -> is_address (padStart (Number_toString p) 10 (js "0")) p.
Proof.
  intros Hp. destruct (Number_toString_spec p) as (H1 & H2 & H3 & H4).
  specialize (H4 10%nat Hp). unfold padStart, is_address.
  destruct (Nat.leb_spec 10 (length (Number_toString p))) as [Hl|Hl].
  { split; [lia|done]. }
  change (js "0") with [48].
  rewrite concat_replicate_singleton.
  rewrite take_ge by (rewrite length_replicate; lia).
  split; [rewrite length_app, length_replicate; lia|].
  split; [|by rewrite digits_value_zeros].
  apply Forall_app. split; [|done]. by apply Forall_replicate.
Qed.

Lemma digit_not_whitespace c : is_digit c = true -> is_whitespace c = false.
Proof.
  intros H%is_digit_spec. unfold is_whitespace. by decide_tests.
Qed.

Lemma digit_prefix_all ds :
  Forall (fun c => is_digit c = true) ds -> digit_prefix ds = ds.
Proof. induction 1 as [|c ds Hc _ IH]; [done|]. cbn. by rewrite Hc, IH. Qed.

(** [parseInt] of a non-empty string of digits is its decimal value. *)
Lemma parseInt_digits ds :
  ds <> [] -> Forall (fun c => is_digit c = true) ds ->
  parseInt ds = Num (Z.of_N (digits_value ds)).
Proof.
  intros Hne Hds. destruct ds as [|c ds]; [done|].
  pose proof (Forall_inv Hds) as Hc. unfold parseInt.
  cbn [trim_start]. rewrite (digit_not_whitespace c Hc).
  apply is_digit_spec in Hc.
  assert (c <> 45 /\ c <> 43) as [H45 H43] by lia.
  assert (match c :: ds with
          | 45 :: r => ((-1)%Z, r)
          | 43 :: r => (1%Z, r)
          | _ => (1%Z, c :: ds)
          end = (1%Z, c :: ds)) as ->.
  { destruct c as [|p]; [done|].
    do 6 (destruct p as [p|p|]; try done). }
  rewrite digit_prefix_all by done. f_equal. lia.
Qed.

Lemma parseInt_address a p data :
  is_address a p -> parseInt (substring (a ++ data) 0 (Some 10%nat)) = Num (Z.of_N p)
                    /\ substring (a ++ data) 10 None = data.
Proof.
  intros (Hl & Hd & Hv). rewrite substring_prefix, substring_suffix.
  rewrite take_app_length', drop_app_length' by done.
  split; [|done]. rewrite parseInt_digits, Hv; [done| |done].
  by destruct a.
Qed.

Lemma address_below a p : is_address a p -> Forall (fun u => u < 0xD800) a.
Proof.
  intros (_ & Hd & _). eapply Forall_impl; [apply Hd|].
  intros c Hc%is_digit_spec. simpl. lia.
Qed.

Lemma address_head a p data : is_address a p -> head (a ++ data) <> Some 0xFEFF.
Proof.
  intros (Hl & Hd & _). destruct a as [|c a]; [done|].
  apply Forall_inv in Hd. apply is_digit_spec in Hd. simpl. intros [= E]. lia.
Qed.

(** ** crypto.ts: the asymmetric functions *)

Section RSA.

Context (wc : WebCrypto) (laws : rsa_laws wc).

(** What decryption under the private key of the pair returns for every
    string within the bound: the text re-decoded from its UTF-8 encoding. *)
Lemma rsaDecrypt_rsaEncrypt_any chaîne pub priv seed M :
  importPubKey wc chaîne = Ok pub ->
  rsa_key_pair wc pub priv ->
  (length (TextEncoder_encode M) + 66 <= rsa_modulus_bytes wc pub)%nat ->
  exists c raw,
    rsaEncrypt wc seed M chaîne = Ok c
    /\ c = arrayBufferToBase64 raw
    /\ rsa_oaep_encrypt wc pub seed (TextEncoder_encode M) = Some raw
    /\ rsaDecrypt wc c priv = Ok (TextDecoder_decode (TextEncoder_encode M)).
Proof using laws.
  intros Hpub Hpair Hlen. unfold rsaEncrypt, rsaDecrypt. rewrite Hpub.
  destruct (rsa_encrypt_bound wc laws pub seed _ Hlen) as [raw Hraw].
  rewrite Hraw. exists (arrayBufferToBase64 raw), raw.
  split; [done|]. split; [done|]. split; [done|].
  rewrite base64_round_trip.
  by rewrite (rsa_decrypt_encrypt wc laws pub priv seed _ raw Hpair Hraw).
Qed.

Lemma rsaEncrypt_length chaîne seed M c :
  rsaEncrypt wc seed M chaîne = Ok c ->
  exists pub, importPubKey wc chaîne = Ok pub
              /\ length c = (4 * ((rsa_modulus_bytes wc pub + 2) / 3))%nat.
Proof using laws.
  unfold rsaEncrypt. destruct (importPubKey wc chaîne) as [pub|]; [|done].
  destruct (rsa_oaep_encrypt wc pub seed _) as [raw|] eqn:E; [|done].
  intros [= <-]. exists pub. split; [done|].
  by rewrite base64_length, (rsa_encrypt_length wc laws pub seed _ raw E).
Qed.

Lemma rsaDecrypt_foreign_key chaîne pub priv' seed M c :
  rsa_rejects_foreign_keys wc ->
  importPubKey wc chaîne = Ok pub ->
  ~ rsa_key_pair wc pub priv' ->
  rsaEncrypt wc seed M chaîne = Ok c ->
  rsaDecrypt wc c priv' = Throw OperationError.
Proof.
  intros Hideal Hpub Hne. unfold rsaEncrypt, rsaDecrypt. rewrite Hpub.
  destruct (rsa_oaep_encrypt wc pub seed _) as [raw|] eqn:E; [|done].
  intros [= <-]. rewrite base64_round_trip.
  by rewrite (Hideal pub priv' seed _ raw Hne E).
Qed.

End RSA.

(** ** The shuffle *)

(** [Math.floor(r * (i + 1))] is an index from 0 to [i]. *)
Lemma random_index_le r i :
  (0 <= r)%Q -> (r < 1)%Q -> (random_index r i <= i)%nat.
Proof.
  intros H0 H1. unfold random_index.
  set (n := (Z.of_nat i + 1)%Z).
  assert (Qfloor (r * inject_Z n) < n)%Z as Hlt.
  { rewrite Zlt_Qlt. eapply Qle_lt_trans; [apply Qfloor_le|].
    rewrite <- (Qmult_1_l (inject_Z n)) at 2.
    apply Qmult_lt_compat_r; [|done].
    change 0%Q with (inject_Z 0). rewrite <- Zlt_Qlt. unfold n. lia. }
  subst n. lia.
Qed.

Lemma insert_Permutation_cons {A} (l : list A) j (y a : A) :
  l !! j = Some y -> y :: <[j := a]> l ≡ₚ a :: l.
Proof.
  revert j. induction l as [|b l IH]; intros [|j] H; try done.
  - simpl in H. injection H as ->. simpl. apply perm_swap.
  - simpl in H. simpl. rewrite perm_swap. rewrite (IH j H). apply perm_swap.
Qed.

(** A swap permutes the array. *)
Lemma swap_Permutation {A} (l : list A) i j : swap l i j ≡ₚ l.
Proof.
  unfold swap.
  destruct (l !! i) as [x|] eqn:Hi; [|done].
  destruct (l !! j) as [y|] eqn:Hj; [|done].
  revert i j Hi Hj. induction l as [|a l IH]; intros [|i] [|j] Hi Hj; try done.
  - simpl in *. by simplify_eq.
  - simpl in *. simplify_eq. by apply insert_Permutation_cons.
  - simpl in *. simplify_eq. by apply insert_Permutation_cons.
  - simpl in *. by rewrite IH.
Qed.

Lemma mélanger_Permutation random calls i l : mélanger random calls i l ≡ₚ l.
Proof.
  revert calls l. induction i as [|i IH]; intros calls l; [done|].
  cbn [mélanger]. rewrite IH. apply swap_Permutation.
Qed.

(** Every swap of the shuffle stays within the array. *)
Lemma swap_length {A} (l : list A) i j : length (swap l i j) = length l.
Proof. by rewrite swap_Permutation. Qed.

Section Selection.

Context (random : nat -> Q) (nodes : list Node) (count : nat).

Lemma sélectionner_length :
  length (sélectionnerNœudsAléatoires random nodes count)
  = Nat.min count (length nodes).
Proof.
  unfold sélectionnerNœudsAléatoires.
  by rewrite length_take, mélanger_Permutation.
Qed.

Lemma sélectionner_subset n :
  n ∈ sélectionnerNœudsAléatoires random nodes count -> n ∈ nodes.
Proof.
  unfold sélectionnerNœudsAléatoires. intros H%elem_of_take.
  destruct H as (k & H & _). apply list_elem_of_lookup_2 in H.
  by rewrite mélanger_Permutation in H.
Qed.

Lemma sélectionner_NoDup :
  NoDup (map nodeId nodes) ->
  NoDup (map nodeId (sélectionnerNœudsAléatoires random nodes count)).
Proof.
  intros H. unfold sélectionnerNœudsAléatoires.
  change (map nodeId) with (fmap (M := list) nodeId).
  rewrite fmap_take. eapply sublist_NoDup; [|apply sublist_take].
  by rewrite mélanger_Permutation.
Qed.

End Selection.

(** ** The relay *)

Section Relay.

Context (wc : WebCrypto).

Lemma symDecrypt_importSymKey keymat c plaintext :
  symDecrypt wc keymat c = Ok plaintext -> exists key, importSymKey keymat = Ok key.
Proof.
  unfold symDecrypt. destruct (importSymKey keymat) as [key|]; [|done]. by exists key.
Qed.

Lemma importSymKey_symDecrypt keymat c e :
  importSymKey keymat = Throw e -> symDecrypt wc keymat c = Throw e.
Proof. unfold symDecrypt. by intros ->. Qed.

(** The handler on an envelope whose layer decrypts. *)
Lemma routeurOnion_message_decrypted priv net message st next payload :
  strip_layer wc priv message = Ok (next, payload) ->
  routeurOnion_message wc priv net message st =
  (let vars' := {| dernierMessageChiffréReçu := Some message;
                   dernierMessageDéchiffréReçu := Some payload;
                   dernièreDestinationMessage := Some next |} in
   if valid_port next then
     let rq := {| port := next; body := payload |} in
     ({| vars := vars'; outbox := outbox st ++ [rq] |},
      Ok (match net rq with Ok _ => answer_success | Throw _ => answer_error end))
   else ({| vars := vars'; outbox := outbox st |}, Ok answer_error)).
Proof.
  unfold strip_layer, routeurOnion_message.
  rewrite substring_prefix, substring_suffix.
  destruct (rsaDecrypt wc (take 344 message) priv) as [keymat|] eqn:E1; [|done].
  destruct (symDecrypt wc keymat (drop 344 message)) as [plaintext|] eqn:E2; [|done].
  intros [= <- <-].
  destruct (symDecrypt_importSymKey _ _ _ E2) as [key E3].
  unfold try_catch, bind, lift, modify, fetch_message, ret. cbn.
  rewrite E3, E2. rewrite substring_prefix, substring_suffix. cbn.
  destruct (valid_port (parseInt (take 10 plaintext))); [|done].
  by destruct (net _).
Qed.

(** The handler on an envelope whose layer does not decrypt. *)
Lemma routeurOnion_message_rejected priv net message st e :
  strip_layer wc priv message = Throw e ->
  routeurOnion_message wc priv net message st =
  ({| vars := set_dernierMessageChiffréReçu message (vars st); outbox := outbox st |},
   Ok answer_error).
Proof.
  unfold strip_layer, routeurOnion_message.
  rewrite substring_prefix, substring_suffix.
  unfold try_catch, bind, lift, modify, fetch_message, ret. cbn.
  destruct (rsaDecrypt wc (take 344 message) priv) as [keymat|] eqn:E1; [|done].
  destruct (importSymKey keymat) as [key|] eqn:E3.
  - destruct (symDecrypt wc keymat (drop 344 message)) as [plaintext|] eqn:E2; done.
  - by rewrite (importSymKey_symDecrypt _ _ _ E3).
Qed.

End Relay.

(** ** What a computation keeps *)

Lemma preserves_ret {S A} (P : S -> Prop) (a : A) : preserves P (ret a).
Proof. by intros s. Qed.

Lemma preserves_lift {S A} (P : S -> Prop) (r : result A) : preserves P (lift r).
Proof. by intros s. Qed.

Lemma preserves_bind {S A B} (P : S -> Prop) (m : M S A) (k : A -> M S B) :
  preserves P m -> (forall a, preserves P (k a)) -> preserves P (bind m k).
Proof.
  intros Hm Hk s Hs. unfold bind. specialize (Hm s Hs).
  destruct (m s) as [s' [a|e]]; [by apply Hk|done].
Qed.

Lemma preserves_try_catch {S A} (P : S -> Prop) (m : M S A) (h : exn -> M S A) :
  preserves P m -> (forall e, preserves P (h e)) -> preserves P (try_catch m h).
Proof.
  intros Hm Hh s Hs. unfold try_catch. specialize (Hm s Hs).
  destruct (m s) as [s' [a|e]]; [done|by apply Hh].
Qed.

Lemma preserves_modify {S} (P : Proc S -> Prop) (f : S -> S) :
  (forall s, P s -> P {| vars := f (vars s); outbox := outbox s |}) ->
  preserves P (modify f).
Proof. intros H s Hs. by apply H. Qed.

Lemma preserves_fetch {S} (P : Proc S -> Prop) net p m :
  (forall s rq, P s -> P {| vars := vars s; outbox := outbox s ++ [rq] |}) ->
  preserves P (fetch_message net p m).
Proof.
  intros H s Hs. unfold fetch_message. destruct (valid_port p); [by apply H|done].
Qed.

(** ** The sender *)

Section Sender.

Context (wc : WebCrypto) (BASE_USER_PORT BASE_ONION_ROUTER_PORT : N).

Local Abbreviation sendMessage := (user_sendMessage wc BASE_USER_PORT BASE_ONION_ROUTER_PORT).

(** The last sent message is written first and never again. *)
Lemma sendMessage_dernierMessageEnvoyé env req st :
  dernierMessageEnvoyé (vars (sendMessage env req st).1) = Some (message req)
  /\ dernierMessageReçu (vars (sendMessage env req st).1) = dernierMessageReçu (vars st).
Proof.
  set (P := fun s : Proc UserState =>
              dernierMessageEnvoyé (vars s) = Some (message req)
              /\ dernierMessageReçu (vars s) = dernierMessageReçu (vars st)).
  change (P (sendMessage env req st).1).
  unfold user_sendMessage. cbv zeta.
  unfold bind at 1. cbn [modify].
  apply preserves_try_catch; [| |done].
  - repeat first [ apply preserves_ret | apply preserves_lift
                 | apply preserves_fetch; intros ? ? [? ?]; by split
                 | apply preserves_modify; intros ? [? ?]; by split
                 | apply preserves_bind; [|intros ?] ].
  - intros ?. apply preserves_ret.
Qed.

(** The handler when the registry does not answer. *)
Lemma sendMessage_registry_down env req st e :
  getNodeRegistry env = Throw e ->
  sendMessage env req st =
  ({| vars := set_dernierMessageEnvoyé (message req) (vars st); outbox := outbox st |},
   Ok answer_failed).
Proof.
  intros H. unfold user_sendMessage, try_catch, bind, lift, modify, fetch_message, ret.
  cbn. by rewrite H.
Qed.

(** The handler on a circuit of three hops whose layers encrypt. *)
Lemma sendMessage_three_hops env req st nodes entrée intermédiaire sortie c3 k3 c2 k2 c1 k1 :
  let a3 := padStart (Number_toString (BASE_USER_PORT + destinationUserId req)) 10 (js "0") in
  let a2 := padStart (Number_toString (BASE_ONION_ROUTER_PORT + nodeId sortie)) 10 (js "0") in
  let a1 := padStart (Number_toString (BASE_ONION_ROUTER_PORT + nodeId intermédiaire)) 10
              (js "0") in
  getNodeRegistry env = Ok nodes ->
  sélectionnerNœudsAléatoires (Math_random env) nodes 3 = [entrée; intermédiaire; sortie] ->
  symEncrypt wc (ivSortie env) (cléSortie env) (a3 ++ message req) = Ok c3 ->
  rsaEncrypt wc (seedSortie env) (exportSymKey (cléSortie env)) (pubKey sortie) = Ok k3 ->
  symEncrypt wc (ivIntermédiaire env) (cléIntermédiaire env) (a2 ++ (k3 ++ c3)) = Ok c2 ->
  rsaEncrypt wc (seedIntermédiaire env) (exportSymKey (cléIntermédiaire env))
    (pubKey intermédiaire) = Ok k2 ->
  symEncrypt wc (ivEntrée env) (cléEntrée env) (a1 ++ (k2 ++ c2)) = Ok c1 ->
  rsaEncrypt wc (seedEntrée env) (exportSymKey (cléEntrée env)) (pubKey entrée) = Ok k1 ->
  sendMessage env req st =
  (let vars' := {| dernierMessageReçu := dernierMessageReçu (vars st);
                   dernierMessageEnvoyé := Some (message req);
                   dernierCircuit := [nodeId entrée; nodeId intermédiaire; nodeId sortie] |} in
   let p := Num (Z.of_N (BASE_ONION_ROUTER_PORT + nodeId entrée)) in
   if valid_port p then
     let rq := {| port := p; body := k1 ++ c1 |} in
     ({| vars := vars'; outbox := outbox st ++ [rq] |},
      Ok (match réseau env rq with Ok _ => answer_sent | Throw _ => answer_failed end))
   else ({| vars := vars'; outbox := outbox st |}, Ok answer_failed)).
Proof.
  intros a3 a2 a1 Hreg Hsel H3 K3 H2 K2 H1 K1.
  subst a3 a2 a1.
  unfold user_sendMessage, try_catch, bind, lift, modify, fetch_message, ret.
  cbv beta iota zeta. rewrite Hreg. cbv beta iota. rewrite Hsel.
  change ([entrée; intermédiaire; sortie] !! 0%nat) with (Some entrée).
  change ([entrée; intermédiaire; sortie] !! 1%nat) with (Some intermédiaire).
  change ([entrée; intermédiaire; sortie] !! 2%nat) with (Some sortie).
  cbv beta iota delta [of_option].
  rewrite H3. cbv beta iota. rewrite K3. cbv beta iota.
  rewrite H2. cbv beta iota. rewrite K2. cbv beta iota.
  rewrite H1. cbv beta iota. rewrite K1. cbv beta iota.
  cbn [vars outbox set_dernierCircuit set_dernierMessageEnvoyé dernierMessageReçu
       dernierMessageEnvoyé dernierCircuit map nodeId].
  destruct (valid_port _); [|done].
  cbn [vars outbox]. by destruct (réseau env _).
Qed.

End Sender.

(** ** ASCII text *)

Lemma ascii_well_formed s : Forall (fun u => u < 128) s -> well_formed s = true.
Proof.
  intros H. apply well_formed_below. eapply Forall_impl; [apply H|]. simpl. lia.
Qed.

Lemma ascii_head s : Forall (fun u => u < 128) s -> head s <> Some 0xFEFF.
Proof. destruct 1 as [|u s Hu _]; [done|]. simpl. intros [= ->]. lia. Qed.

Lemma to_scalars_ascii s : Forall (fun u => u < 128) s -> to_scalars s = s.
Proof.
  induction 1 as [|u s Hu _ IH]; [done|].
  cbn [to_scalars]. unfold is_high_surrogate, is_low_surrogate.
  replace (0xD800 <=? u) with false by (symmetry; apply N.leb_gt; lia).
  replace (0xDC00 <=? u) with false by (symmetry; apply N.leb_gt; lia).
  cbn [andb]. by rewrite IH.
Qed.

Lemma TextEncoder_ascii s :
  Forall (fun u => u < 128) s -> TextEncoder_encode s = map byte_of_N s.
Proof.
  intros H. unfold TextEncoder_encode. rewrite to_scalars_ascii by done.
  induction H as [|u s Hu _ IH]; [done|].
  cbn [flat_map map]. rewrite IH. unfold utf8_encode_scalar.
  by replace (u <? 0x80) with true by (symmetry; apply N.ltb_lt; lia).
Qed.

Lemma exportSymKey_encoded_length K :
  length (TextEncoder_encode (exportSymKey K)) = (4 * ((length K + 2) / 3))%nat.
Proof.
  unfold exportSymKey. rewrite TextEncoder_ascii by apply base64_ascii.
  by rewrite length_map, base64_length.
Qed.

(** ** Layers *)

Section Layers.

Context (wc : WebCrypto).

Lemma symEncrypt_ok iv K données :
  length iv = 16%nat -> exists c, symEncrypt wc iv K données = Ok c.
Proof.
  intros H. unfold symEncrypt, aes_cbc_encrypt. rewrite H. cbn [Nat.eqb]. by eexists.
Qed.

Lemma symEncrypt_ascii iv K données c :
  symEncrypt wc iv K données = Ok c -> Forall (fun u => u < 128) c.
Proof.
  unfold symEncrypt. destruct (aes_cbc_encrypt wc K iv _); [|done].
  intros [= <-]. apply base64_ascii.
Qed.

Lemma rsaEncrypt_ascii seed M chaîne c :
  rsaEncrypt wc seed M chaîne = Ok c -> Forall (fun u => u < 128) c.
Proof.
  unfold rsaEncrypt. destruct (importPubKey wc chaîne); [|done].
  destruct (rsa_oaep_encrypt wc _ seed _); [|done].
  intros [= <-]. apply base64_ascii.
Qed.

Lemma layer_ascii hop K iv seed next data layer :
  is_layer wc hop K iv seed next data layer -> Forall (fun u => u < 128) layer.
Proof.
  intros (a & ek & ct & _ & Hc & Hk & ->). apply Forall_app. split.
  - by eapply rsaEncrypt_ascii.
  - by eapply symEncrypt_ascii.
Qed.

Context (rsa : rsa_laws wc).

Lemma rsaEncrypt_ok seed M chaîne pub :
  importPubKey wc chaîne = Ok pub ->
  (length (TextEncoder_encode M) + 66 <= rsa_modulus_bytes wc pub)%nat ->
  exists c, rsaEncrypt wc seed M chaîne = Ok c.
Proof using rsa.
  intros Hpub Hlen. unfold rsaEncrypt. rewrite Hpub.
  destruct (rsa_encrypt_bound wc rsa pub seed _ Hlen) as [raw ->]. by eexists.
Qed.

Lemma rsaDecrypt_of_rsaEncrypt seed M chaîne pub priv c :
  importPubKey wc chaîne = Ok pub -> rsa_key_pair wc pub priv ->
  rsaEncrypt wc seed M chaîne = Ok c ->
  rsaDecrypt wc c priv = Ok (TextDecoder_decode (TextEncoder_encode M)).
Proof using rsa.
  intros Hpub Hpair. unfold rsaEncrypt, rsaDecrypt. rewrite Hpub.
  destruct (rsa_oaep_encrypt wc pub seed _) as [raw|] eqn:E; [|done].
  intros [= <-]. rewrite base64_round_trip.
  by rewrite (rsa_decrypt_encrypt wc rsa pub priv seed _ raw Hpair E).
Qed.

(** A layer exists for every hop whose key imports and is wide enough for
    the exported symmetric key. *)
Lemma layer_exists hop pub K iv seed next data :
  importPubKey wc (pubKey hop) = Ok pub ->
  (4 * ((length K + 2) / 3) + 66 <= rsa_modulus_bytes wc pub)%nat ->
  length iv = 16%nat -> next < 10 ^ 10 ->
  exists c k,
    symEncrypt wc iv K (padStart (Number_toString next) 10 (js "0") ++ data) = Ok c
    /\ rsaEncrypt wc seed (exportSymKey K) (pubKey hop) = Ok k
    /\ is_layer wc hop K iv seed next data (k ++ c).
Proof using rsa.
  intros Hpub Hmod Hiv Hnext.
  destruct (symEncrypt_ok iv K (padStart (Number_toString next) 10 (js "0") ++ data) Hiv)
    as [c Hc].
  destruct (rsaEncrypt_ok seed (exportSymKey K) (pubKey hop) pub Hpub) as [k Hk].
  { by rewrite exportSymKey_encoded_length. }
  exists c, k. split; [done|]. split; [done|].
  exists (padStart (Number_toString next) 10 (js "0")), k, c.
  split; [by apply padStart_address|done].
Qed.

Context (aes : aes_laws wc).

(** The relay that holds the private key of the hop strips the layer: it
    recovers the port and the data. *)
Lemma strip_layer_layer hop pub priv K iv seed next data layer :
  is_layer wc hop K iv seed next data layer ->
  importPubKey wc (pubKey hop) = Ok pub -> rsa_key_pair wc pub priv ->
  rsa_modulus_bytes wc pub = 256%nat ->
  valid_aes_key K = true -> length iv = 16%nat ->
  well_formed data = true ->
  strip_layer wc priv layer = Ok (Num (Z.of_N next), data).
Proof using rsa aes.
  intros (a & ek & ct & Ha & Hc & Hk & ->) Hpub Hpair Hmod HK Hiv Hwf.
  unfold strip_layer.
  destruct (rsaEncrypt_length wc rsa _ _ _ _ Hk) as (pub' & Hpub' & Hlen).
  rewrite Hpub in Hpub'. injection Hpub' as <-. rewrite Hmod in Hlen.
  change (4 * ((256 + 2) / 3))%nat with 344%nat in Hlen.
  rewrite take_app_length', drop_app_length' by done.
  rewrite (rsaDecrypt_of_rsaEncrypt _ _ _ pub priv ek Hpub Hpair Hk).
  rewrite TextDecoder_TextEncoder;
    [|apply ascii_well_formed, base64_ascii|apply ascii_head, base64_ascii].
  destruct (symDecrypt_symEncrypt wc aes K iv (a ++ data) HK Hiv) as (c' & Hc' & Hd).
  { apply well_formed_app; [by eapply address_below|done]. }
  { by eapply address_head. }
  rewrite Hc in Hc'. injection Hc' as <-. rewrite Hd.
  destruct (parseInt_address a next data Ha) as [E1 E2].
  rewrite substring_prefix in E1. rewrite substring_suffix in E2.
  by rewrite E1, E2.
Qed.

End Layers.

(** ** A changed initialisation vector *)

Lemma bxor_cancel_middle x y d : bxor (bxor x y) (bxor y d) = bxor x d.
Proof.
  unfold bxor.
  rewrite !to_N_byte_of_N by (apply lxor_lt_256; apply to_N_lt).
  f_equal. rewrite N.lxor_assoc, <- (N.lxor_assoc (Byte.to_N y)).
  by rewrite N.lxor_nilpotent, N.lxor_0_l.
Qed.

Lemma flip_byte_length i d bs : length (flip_byte i d bs) = length bs.
Proof. apply length_alter. Qed.

Lemma xor_bytes_flip a b i d :
  length a = length b ->
  xor_bytes (xor_bytes a b) (flip_byte i d b) = flip_byte i d a.
Proof.
  unfold xor_bytes, flip_byte. revert b i.
  induction a as [|x a IH]; intros [|y b] i H; try done.
  destruct i as [|i]; cbn.
  - rewrite bxor_cancel_middle. f_equal. apply xor_bytes_involutive. simpl in H. lia.
  - rewrite bxor_involutive. f_equal. apply IH. simpl in H. lia.
Qed.

Lemma pkcs7_pad_flip i d bs :
  (i < length bs)%nat -> flip_byte i d (pkcs7_pad bs) = pkcs7_pad (flip_byte i d bs).
Proof.
  intros H. unfold pkcs7_pad, flip_byte. rewrite length_alter. by apply alter_app_l.
Qed.

Section Malleable.

Context (wc : WebCrypto) (aes : aes_laws wc).

(** Changing byte [i] of the initialisation vector changes byte [i] of
    the recovered data by the same difference and nothing else; no error
    is raised. *)
Lemma aes_cbc_decrypt_flipped_iv key iv data c i d :
  valid_aes_key key = true ->
  length iv = 16%nat -> (16 <= length data)%nat -> (i < 16)%nat ->
  aes_cbc_encrypt wc key iv data = Ok c ->
  aes_cbc_decrypt wc key (flip_byte i d iv) c = Ok (flip_byte i d data).
Proof using aes.
  intros Hkey Hiv Hdata Hi. unfold aes_cbc_encrypt, aes_cbc_decrypt.
  rewrite flip_byte_length, Hiv. cbn [Nat.eqb negb]. intros Hc.
  pose proof (pkcs7_pad_length data) as Hp.
  set (padded := pkcs7_pad data) in *.
  assert (exists n, (length padded / 16)%nat = S n /\ length padded = (16 * S n)%nat)
    as (n & En & Hn).
  { exists (length data / 16)%nat. clearbody padded. lia. }
  rewrite En in Hc. assert (c = cbc_encrypt_blocks wc (S n) key iv padded) as ->
    by congruence. clear Hc.
  rewrite cbc_encrypt_blocks_length by done.
  replace (16 * S n =? 0)%nat with false by (symmetry; apply Nat.eqb_neq; lia).
  replace ((16 * S n) mod 16 =? 0)%nat with true by (symmetry; apply Nat.eqb_eq; lia).
  cbn [orb negb]. replace (16 * S n / 16)%nat with (S n) by lia.
  cbn [cbc_encrypt_blocks cbc_decrypt_blocks].
  assert (length (take 16 padded) = 16%nat) as Ht by (rewrite length_take; lia).
  assert (length (xor_bytes (take 16 padded) iv) = 16%nat) as Hx
    by (rewrite xor_bytes_length; lia).
  set (c1 := aes_encrypt_block wc key (xor_bytes (take 16 padded) iv)).
  assert (length c1 = 16%nat) as Hc1 by by apply (aes_encrypt_length wc aes).
  rewrite take_app_length', drop_app_length' by done.
  unfold c1 at 1. rewrite (aes_decrypt_encrypt wc aes) by done.
  rewrite xor_bytes_flip by lia.
  rewrite (cbc_decrypt_encrypt_blocks wc aes) by (done || rewrite length_drop; lia).
  assert (flip_byte i d (take 16 padded) ++ drop 16 padded = flip_byte i d padded) as ->.
  { rewrite <- (take_drop 16 padded) at 3. unfold flip_byte.
    symmetry. apply alter_app_l. lia. }
  unfold padded. rewrite pkcs7_pad_flip by lia. by rewrite pkcs7_unpad_pad.
Qed.

End Malleable.

(** ** ASCII text under a change of its low seven bits *)

Lemma lxor_lt_128 a b : a < 128 -> b < 128 -> N.lxor a b < 128.
Proof.
  intros Ha Hb.
  destruct (N.eq_dec (N.lxor a b) 0) as [->|Hne]; [lia|].
  apply (N.log2_lt_pow2 _ 7); [lia|].
  eapply N.le_lt_trans; [apply N.log2_lxor|].
  destruct (N.eq_dec a 0) as [->|Ha0], (N.eq_dec b 0) as [->|Hb0]; simpl.
  - lia.
  - rewrite N.max_r by lia. apply N.log2_lt_pow2; lia.
  - rewrite N.max_l by lia. apply N.log2_lt_pow2; lia.
  - apply N.max_lub_lt; apply N.log2_lt_pow2; lia.
Qed.

Lemma flip_byte_ascii i d s :
  Forall (fun u => u < 128) s ->
  flip_byte i d (map byte_of_N s)
  = map byte_of_N (alter (fun u => N.lxor u (Byte.to_N d)) i s).
Proof.
  unfold flip_byte. intros H. revert i.
  induction H as [|u s Hu _ IH]; intros i; [done|].
  destruct i as [|i]; cbn.
  - f_equal. unfold bxor. by rewrite to_N_byte_of_N by lia.
  - f_equal. apply IH.
Qed.

Lemma alter_ascii i d s :
  Byte.to_N d < 128 -> Forall (fun u => u < 128) s ->
  Forall (fun u => u < 128) (alter (fun u => N.lxor u (Byte.to_N d)) i s).
Proof.
  intros Hd H. revert i. induction H as [|u s Hu Hs IH]; intros i; [done|].
  destruct i as [|i]; cbn; constructor; first [done | by apply lxor_lt_128 | apply IH].
Qed.

Lemma alter_lxor_changes i d (s : jsstring) :
  d <> 0 -> (i < length s)%nat -> alter (fun u => N.lxor u d) i s <> s.
Proof.
  intros Hd Hi E. apply lookup_lt_is_Some in Hi as [u Hu].
  assert (alter (fun u => N.lxor u d) i s !! i = Some (N.lxor u d)) as H
    by (by rewrite list_lookup_alter_eq, Hu).
  rewrite E, Hu in H. injection H as H.
  apply Hd. rewrite <- (N.lxor_0_r u) in H at 1.
  apply (f_equal (N.lxor u)) in H.
  rewrite <- !N.lxor_assoc, N.lxor_nilpotent, !N.lxor_0_l in H. done.
Qed.

(** ** The small instance satisfies the laws *)

Lemma bxor_comm a b : bxor a b = bxor b a.
Proof. unfold bxor. by rewrite N.lxor_comm. Qed.

Lemma toy_aes_laws : aes_laws toy.
Proof.
  split; intros k b _ Hb;
    change (aes_encrypt_block toy) with toy_encrypt_block;
    change (aes_decrypt_block toy) with toy_decrypt_block;
    unfold toy_encrypt_block, toy_decrypt_block.
  - by rewrite length_reverse, length_map.
  - rewrite reverse_involutive, map_map. rewrite <- (map_id b) at 2.
    apply map_ext. intros x.
    by rewrite (bxor_comm _ (bxor _ x)), (bxor_comm _ x), bxor_involutive.
Qed.

Lemma toy_rsa_laws : rsa_laws toy.
Proof.
  split; cbn; unfold toy_oaep_encrypt, toy_oaep_decrypt.
  - intros pub seed m H.
    replace (length m <=? 190)%nat with true by (symmetry; apply Nat.leb_le; lia).
    by eexists.
  - intros pub seed m c. destruct (Nat.leb_spec (length m) 190); [|done].
    intros [= <-]. cbn [length]. rewrite length_app, length_replicate. lia.
  - intros pub priv seed m c <-. destruct (Nat.leb_spec (length m) 190) as [Hm|]; [|done].
    intros [= <-].
    assert (length (pub :: byte_of_N (N.of_nat (length m)) :: m
                    ++ replicate (254 - length m) x00) = 256%nat) as ->
      by (cbn [length]; rewrite length_app, length_replicate; lia).
    rewrite to_N_byte_of_N by lia. rewrite Nat2N.id.
    rewrite byte_eqb_refl.
    replace (length m <=? 190)%nat with true by (symmetry; apply Nat.leb_le; lia).
    cbn [Nat.eqb andb]. by rewrite take_app_length.
Qed.

Lemma toy_rejects_foreign_keys : rsa_rejects_foreign_keys toy.
Proof.
  intros pub priv' seed m c Hne. cbn. unfold toy_oaep_encrypt, toy_oaep_decrypt.
  destruct (Nat.leb_spec (length m) 190) as [Hm|]; [|done].
  intros [= <-]. cbn in Hne.
  destruct (Byte.eqb pub priv') eqn:E; [|by rewrite andb_false_r].
  by apply Byte.byte_dec_bl in E.
Qed.

Lemma demo_registered (b : byte) (id : N) :
  registered toy {| nodeId := id; pubKey := arrayBufferToBase64 [b] |} b.
Proof.
  split; [|done]. unfold importPubKey. cbn [pubKey]. by rewrite base64_round_trip.
Qed.

Lemma demo_relay_of (b : byte) (id : N) :
  relay_of toy {| nodeId := id; pubKey := arrayBufferToBase64 [b] |} b.
Proof. exists b. split; [apply demo_registered|done]. Qed.

(** * The cryptographic round trips *)

(** C2, as amended.  For every AES key, every initialisation vector of 16
    bytes and every well-formed plaintext that does not start with
    U+FEFF, the empty string included, [symEncrypt] succeeds and
    [symDecrypt] with the exported key returns the plaintext. *)
Theorem symDecrypt_inverts_symEncrypt (wc : WebCrypto) (aes : aes_laws wc)
    (key iv : list byte) (P : jsstring) :
  valid_aes_key key = true -> length iv = 16%nat ->
  well_formed P = true -> head P <> Some 0xFEFF ->
  exists c, symEncrypt wc iv key P = Ok c
            /\ symDecrypt wc (exportSymKey key) c = Ok P.
Proof.
  intros Hkey Hiv Hwf Hbom.
  destruct (symDecrypt_symEncrypt_any wc aes key iv P Hkey Hiv) as (c & Hc & Hd).
  exists c. split; [exact Hc|].
  rewrite Hd. f_equal. by apply TextDecoder_TextEncoder.
Qed.

(** C2 on the empty string. *)
Lemma symDecrypt_inverts_symEncrypt_witness :
  exists c, symEncrypt toy (replicate 16 x01) (replicate 32 x11) [] = Ok c
            /\ symDecrypt toy (exportSymKey (replicate 32 x11)) c = Ok [].
Proof.
  apply (symDecrypt_inverts_symEncrypt toy toy_aes_laws); [done|done|done|done].
Defined.

(** C2 as stated fails: a leading U+FEFF is removed by the decoder, and an
    unpaired surrogate comes back as U+FFFD, under every block cipher. *)
Lemma symDecrypt_drops_byte_order_mark :
  (exists c, symEncrypt toy (replicate 16 x01) (replicate 32 x11) [0xFEFF; 104; 105] = Ok c
             /\ symDecrypt toy (exportSymKey (replicate 32 x11)) c = Ok [104; 105])
  /\ (forall (wc : WebCrypto) (key iv : list byte),
        aes_laws wc -> valid_aes_key key = true -> length iv = 16%nat ->
        exists c, symEncrypt wc iv key [0xFEFF; 104; 105] = Ok c
                  /\ symDecrypt wc (exportSymKey key) c = Ok [104; 105]
                  /\ [104; 105] <> [0xFEFF; 104; 105])
  /\ (forall (wc : WebCrypto) (key iv : list byte),
        aes_laws wc -> valid_aes_key key = true -> length iv = 16%nat ->
        exists c, symEncrypt wc iv key [0xD83D] = Ok c
                  /\ symDecrypt wc (exportSymKey key) c = Ok [0xFFFD]).
Proof.
  split; [|split].
  - eexists. split; [reflexivity|]. vm_compute. reflexivity.
  - intros wc key iv aes Hk Hiv.
    destruct (symDecrypt_symEncrypt_any wc aes key iv [0xFEFF; 104; 105] Hk Hiv)
      as (c & H1 & H2).
    exists c. split; [done|]. split; [|done]. rewrite H2. f_equal.
  - intros wc key iv aes Hk Hiv.
    destruct (symDecrypt_symEncrypt_any wc aes key iv [0xD83D] Hk Hiv) as (c & H1 & H2).
    exists c. split; [done|]. rewrite H2. f_equal.
Qed.

(** C3, as amended.  For every key pair, every seed and every well-formed
    plaintext that does not start with U+FEFF and whose UTF-8 encoding is
    within the OAEP bound of the modulus, [rsaEncrypt] succeeds and
    [rsaDecrypt] with the private key of the pair returns the plaintext;
    where the platform rejects a ciphertext under every other private
    key, [rsaDecrypt] with such a key throws the platform's decryption
    error. *)
Theorem rsaDecrypt_inverts_rsaEncrypt (wc : WebCrypto) (rsa : rsa_laws wc)
    (chaîne : jsstring) (pub : rsa_public wc) (priv : rsa_private wc)
    (seed : list byte) (M : jsstring) :
  importPubKey wc chaîne = Ok pub ->
  rsa_key_pair wc pub priv ->
  (length (TextEncoder_encode M) + 66 <= rsa_modulus_bytes wc pub)%nat ->
  well_formed M = true -> head M <> Some 0xFEFF ->
  exists c,
    rsaEncrypt wc seed M chaîne = Ok c
    /\ rsaDecrypt wc c priv = Ok M
    /\ (rsa_rejects_foreign_keys wc ->
        forall priv', ~ rsa_key_pair wc pub priv' ->
                      rsaDecrypt wc c priv' = Throw OperationError).
Proof.
  intros Hpub Hpair Hlen Hwf Hbom.
  destruct (rsaDecrypt_rsaEncrypt_any wc rsa chaîne pub priv seed M Hpub Hpair Hlen)
    as (c & raw & H1 & _ & _ & H2).
  exists c. split; [done|]. split.
  - by rewrite H2, TextDecoder_TextEncoder.
  - intros Hideal priv' Hne. by eapply rsaDecrypt_foreign_key.
Qed.

(** C3 on an exported symmetric key, with the key of the pair and with
    another key. *)
Lemma rsaDecrypt_inverts_rsaEncrypt_witness :
  exists c,
    rsaEncrypt toy [] (exportSymKey (replicate 32 x11)) (pubKey demo_A) = Ok c
    /\ rsaDecrypt toy c x01 = Ok (exportSymKey (replicate 32 x11))
    /\ rsaDecrypt toy c x02 = Throw OperationError.
Proof.
  destruct (rsaDecrypt_inverts_rsaEncrypt toy toy_rsa_laws (pubKey demo_A) x01 x01 []
              (exportSymKey (replicate 32 x11)))
    as (c & H1 & H2 & H3); [done|done|vm_compute; lia|done|done|].
  exists c. split; [exact H1|]. split; [exact H2|].
  apply H3; [exact toy_rejects_foreign_keys|discriminate].
Defined.

(** C3 as stated fails: a leading U+FEFF of the plaintext is removed by
    the decoder, under every RSA-OAEP that satisfies the laws. *)
Lemma rsaDecrypt_drops_byte_order_mark :
  (exists c, rsaEncrypt toy [] [0xFEFF; 104; 105] (pubKey demo_A) = Ok c
             /\ rsaDecrypt toy c x01 = Ok [104; 105])
  /\ (forall (wc : WebCrypto) chaîne pub priv seed,
        rsa_laws wc -> importPubKey wc chaîne = Ok pub -> rsa_key_pair wc pub priv ->
        (5 + 66 <= rsa_modulus_bytes wc pub)%nat ->
        exists c, rsaEncrypt wc seed [0xFEFF; 104; 105] chaîne = Ok c
                  /\ rsaDecrypt wc c priv = Ok [104; 105]
                  /\ [104; 105] <> [0xFEFF; 104; 105]).
Proof.
  split.
  - eexists. split; [reflexivity|]. vm_compute. reflexivity.
  - intros wc chaîne pub priv seed rsa Hpub Hpair Hlen.
    destruct (rsaDecrypt_rsaEncrypt_any wc rsa chaîne pub priv seed [0xFEFF; 104; 105]
                Hpub Hpair Hlen) as (c & raw & H1 & _ & _ & H2).
    exists c. split; [done|]. split; [|done]. rewrite H2. f_equal.
Qed.

(** * The state and the steps of the handlers *)

(** C5.  For every envelope the relay takes the first 344 characters as
    the encrypted key and the remainder as the symmetric ciphertext,
    whatever the envelope holds; when both decryptions succeed, the next
    address is the integer parsed from the first 10 characters of the
    plaintext and the forwarded payload is everything from character 10
    on; when one fails, nothing is forwarded and the relay answers with an
    error. *)
Theorem routeur_splits_at_344_and_10 (wc : WebCrypto) (priv : rsa_private wc)
    (net : request -> result unit) (message : jsstring) (st : Proc RouterState) :
  let keyBlob := take 344 message in
  let ciphertext := drop 344 message in
  let r := routeurOnion_message wc priv net message st in
  message = keyBlob ++ ciphertext
  /\ match rsaDecrypt wc keyBlob priv with
     | Throw _ => outbox r.1 = outbox st /\ r.2 = Ok answer_error
     | Ok symKeyMaterial =>
       match symDecrypt wc symKeyMaterial ciphertext with
       | Throw _ => outbox r.1 = outbox st /\ r.2 = Ok answer_error
       | Ok plaintext =>
         let nextAddr := parseInt (take 10 plaintext) in
         let forwardPayload := drop 10 plaintext in
         dernièreDestinationMessage (vars r.1) = Some nextAddr
         /\ dernierMessageDéchiffréReçu (vars r.1) = Some forwardPayload
         /\ outbox r.1
            = outbox st ++ (if valid_port nextAddr
                            then [{| port := nextAddr; body := forwardPayload |}]
                            else [])
       end
     end.
Proof.
  intros keyBlob ciphertext r. split; [symmetry; apply take_drop|].
  destruct (strip_layer wc priv message) as [[next payload]|e] eqn:E.
  - subst r. rewrite (routeurOnion_message_decrypted wc priv net message st next payload E).
    unfold strip_layer in E. fold keyBlob ciphertext in E.
    destruct (rsaDecrypt wc keyBlob priv) as [k|]; [|done].
    destruct (symDecrypt wc k ciphertext) as [p|]; [|done].
    injection E as <- <-. cbv zeta.
    destruct (valid_port (parseInt (take 10 p))); cbn; [done|].
    by rewrite app_nil_r.
  - subst r. rewrite (routeurOnion_message_rejected wc priv net message st e E).
    unfold strip_layer in E. fold keyBlob ciphertext in E.
    destruct (rsaDecrypt wc keyBlob priv) as [k|]; [|done].
    by destruct (symDecrypt wc k ciphertext) as [p|].
Qed.

(** C9.  On every call of [/sendMessage], whatever the registry, the
    draws and the network do, the last sent message is the message of the
    request afterwards; when the registry lookup fails the call answers
    with an error, has sent nothing and has changed nothing else, and the
    last sent message is the new one all the same. *)
Theorem sendMessage_records_message_first (wc : WebCrypto)
    (BASE_USER_PORT BASE_ONION_ROUTER_PORT : N) (env : SendEnv)
    (req : SendMessageBody) (st : Proc UserState) :
  let r := user_sendMessage wc BASE_USER_PORT BASE_ONION_ROUTER_PORT env req st in
  dernierMessageEnvoyé (vars r.1) = Some (message req)
  /\ match getNodeRegistry env with
     | Ok _ => True
     | Throw _ =>
       r.2 = Ok answer_failed
       /\ outbox r.1 = outbox st
       /\ dernierCircuit (vars r.1) = dernierCircuit (vars st)
       /\ dernierMessageReçu (vars r.1) = dernierMessageReçu (vars st)
     end.
Proof.
  intros r. split; [apply sendMessage_dernierMessageEnvoyé|].
  destruct (getNodeRegistry env) as [nodes|e] eqn:E; [done|].
  subst r. by rewrite (sendMessage_registry_down wc _ _ env req st e E).
Qed.

(** C10, as amended.  On every call of the relay's [/message] the last
    received encrypted message is the incoming envelope afterwards.  When
    a decryption fails, the call answers with an error and the last
    decrypted message and the last destination keep their values.  When
    both decryptions succeed, the two fields hold the new payload and
    address, also when the call then fails to forward. *)
Theorem routeur_state_after_message (wc : WebCrypto) (priv : rsa_private wc)
    (net : request -> result unit) (message : jsstring) (st : Proc RouterState) :
  let r := routeurOnion_message wc priv net message st in
  dernierMessageChiffréReçu (vars r.1) = Some message
  /\ match strip_layer wc priv message with
     | Throw _ =>
       r.2 = Ok answer_error
       /\ dernierMessageDéchiffréReçu (vars r.1) = dernierMessageDéchiffréReçu (vars st)
       /\ dernièreDestinationMessage (vars r.1) = dernièreDestinationMessage (vars st)
     | Ok (next, payload) =>
       dernierMessageDéchiffréReçu (vars r.1) = Some payload
       /\ dernièreDestinationMessage (vars r.1) = Some next
       /\ (r.2 = Ok answer_success
           <-> valid_port next = true
               /\ net {| port := next; body := payload |} = Ok tt)
     end.
Proof.
  intros r. destruct (strip_layer wc priv message) as [[next payload]|e] eqn:E.
  - subst r. rewrite (routeurOnion_message_decrypted wc priv net message st next payload E).
    cbv zeta. destruct (valid_port next); cbn.
    + destruct (net _) as [[]|]; cbn; repeat split; try done; by intros [_ ?].
    + repeat split; try done; by intros [? _].
  - subst r. by rewrite (routeurOnion_message_rejected wc priv net message st e E).
Qed.

(** C10 as stated fails: the relay of [demo_A] decrypts the envelope of the
    run, finds the next hop down and answers with an error, and the last
    decrypted message and the last destination have changed. *)
Lemma routeur_state_changed_on_failed_forward :
  let r := routeurOnion_message toy x01 net_down demo_envelope demo_router in
  r.2 = Ok answer_error
  /\ dernièreDestinationMessage (vars demo_router) = None
  /\ dernièreDestinationMessage (vars r.1) = Some (Num 4003)
  /\ dernierMessageDéchiffréReçu (vars demo_router) = None
  /\ dernierMessageDéchiffréReçu (vars r.1) <> None.
Proof. vm_compute. repeat split; done. Qed.

(** ** The handler of the sender, branch by branch *)

Ltac step_result :=
  match goal with
  | |- context [match ?x with Ok _ => _ | Throw _ => _ end] =>
      destruct x eqn:?; cbv beta iota
  end.

Ltac unfold_handler :=
  unfold user_sendMessage, try_catch, bind, lift, modify, fetch_message, ret;
  cbv beta iota zeta.

Section SenderBranches.

Context (wc : WebCrypto) (BASE_USER_PORT BASE_ONION_ROUTER_PORT : N).

Local Abbreviation sendMessage := (user_sendMessage wc BASE_USER_PORT BASE_ONION_ROUTER_PORT).

(** With fewer than three nodes the third hop is [undefined]: the handler
    records the short circuit, sends nothing and answers with an error. *)
Lemma sendMessage_short_circuit env req st nodes :
  getNodeRegistry env = Ok nodes ->
  sélectionnerNœudsAléatoires (Math_random env) nodes 3 !! 2%nat = None ->
  sendMessage env req st =
  ({| vars := {| dernierMessageReçu := dernierMessageReçu (vars st);
                 dernierMessageEnvoyé := Some (message req);
                 dernierCircuit :=
                   map nodeId (sélectionnerNœudsAléatoires (Math_random env) nodes 3) |};
      outbox := outbox st |},
   Ok answer_failed).
Proof.
  intros Hreg Hnone. unfold_handler. rewrite Hreg. cbv beta iota.
  rewrite Hnone. cbv beta iota delta [of_option].
  by step_result.
Qed.

(** The only request goes to the port of the first node of the circuit,
    and the last circuit lists the nodes in the order of the circuit. *)
Lemma sendMessage_first_hop env req st nodes :
  getNodeRegistry env = Ok nodes ->
  let circuit := sélectionnerNœudsAléatoires (Math_random env) nodes 3 in
  dernierCircuit (vars (sendMessage env req st).1) = map nodeId circuit
  /\ (outbox (sendMessage env req st).1 = outbox st
      \/ exists entrée données,
           circuit !! 0%nat = Some entrée
           /\ outbox (sendMessage env req st).1
              = outbox st ++ [{| port := Num (Z.of_N (BASE_ONION_ROUTER_PORT
                                                         + nodeId entrée));
                                 body := données |}]).
Proof.
  intros Hreg circuit. unfold_handler. rewrite Hreg. cbv beta iota. fold circuit.
  destruct (circuit !! 0%nat) as [entrée|]; destruct (circuit !! 1%nat) as [inter|];
    destruct (circuit !! 2%nat) as [sortie|]; cbv beta iota delta [of_option];
    repeat step_result; try (split; [done|by left]).
  destruct (valid_port _); cbv beta iota; [|split; [done|by left]].
  cbn [vars outbox fst].
  split; [by destruct (réseau env _)|].
  right. eexists _, _. split; [done|]. by destruct (réseau env _).
Qed.

End SenderBranches.

(** * Circuit selection *)

(** C7.  For every list of at least [L] nodes with pairwise distinct
    identifiers and every sequence of results of [Math.random], circuit
    selection only swaps within the array and returns exactly [L] nodes
    with pairwise distinct identifiers, each a node of the list; the
    handler records the identifiers in the order of the circuit and sends
    its only request to the node at index 0. *)
Theorem circuit_selection_distinct (wc : WebCrypto)
    (BASE_USER_PORT BASE_ONION_ROUTER_PORT : N)
    (random : nat -> Q) (nodes : list Node) (L : nat) :
  unit_interval random -> (L <= length nodes)%nat -> NoDup (map nodeId nodes) ->
  let circuit := sélectionnerNœudsAléatoires random nodes L in
  length circuit = L
  /\ NoDup (map nodeId circuit)
  /\ (forall n, n ∈ circuit -> n ∈ nodes)
  /\ Forall (fun ij => (ij.2 <= ij.1 < length nodes)%nat)
       (indices_échangés random 0 (length nodes - 1))
  /\ (forall env req st,
        getNodeRegistry env = Ok nodes -> Math_random env = random -> L = 3%nat ->
        let r := user_sendMessage wc BASE_USER_PORT BASE_ONION_ROUTER_PORT env req st in
        dernierCircuit (vars r.1) = map nodeId circuit
        /\ (outbox r.1 = outbox st
            \/ exists entrée données,
                 circuit !! 0%nat = Some entrée
                 /\ outbox r.1
                    = outbox st ++ [{| port := Num (Z.of_N (BASE_ONION_ROUTER_PORT
                                                               + nodeId entrée));
                                       body := données |}])).
Proof.
  intros Hr HL Hd circuit. subst circuit.
  split; [rewrite sélectionner_length; lia|].
  split; [by apply sélectionner_NoDup|].
  split; [apply sélectionner_subset|].
  split.
  - assert (forall calls i, (i < length nodes)%nat ->
              Forall (fun ij => (ij.2 <= ij.1 < length nodes)%nat)
                (indices_échangés random calls i)) as H.
    { intros calls i. revert calls. induction i as [|i IH]; intros calls Hi; [done|].
      cbn [indices_échangés]. constructor; [|apply IH; lia].
      cbn [fst snd]. split; [|done]. apply random_index_le; apply Hr. }
    destruct nodes as [|n nodes']; [done|]. apply H. simpl. lia.
  - intros env req st Hreg <- ->.
    apply (sendMessage_first_hop wc BASE_USER_PORT BASE_ONION_ROUTER_PORT env req st nodes Hreg).
Qed.

(** C7 on the three registered nodes. *)
Lemma circuit_selection_distinct_witness :
  let circuit := sélectionnerNœudsAléatoires (fun _ => (1 # 2)%Q)
                   [demo_A; demo_B; demo_C] 3 in
  circuit = [demo_A; demo_C; demo_B]
  /\ length circuit = 3%nat
  /\ NoDup (map nodeId circuit)
  /\ (forall n, n ∈ circuit -> n ∈ [demo_A; demo_B; demo_C]).
Proof.
  destruct (circuit_selection_distinct toy 3000 4000 (fun _ => (1 # 2)%Q)
              [demo_A; demo_B; demo_C] 3) as (H1 & H2 & H3 & _).
  - intros n. split; done.
  - simpl. lia.
  - apply (bool_decide_unpack _). vm_compute. reflexivity.
  - split; [reflexivity|]. split; [exact H1|]. split; [exact H2|exact H3].
Defined.

(** C6, as amended.  For every registry of fewer than three nodes,
    circuit selection raises nothing: it returns all the nodes, in a
    shuffled order, as a circuit of fewer than three hops.  The handler
    records that circuit as its last circuit, sends nothing and answers
    with an error. *)
Theorem short_registry_selects_short_circuit (wc : WebCrypto)
    (BASE_USER_PORT BASE_ONION_ROUTER_PORT : N) (env : SendEnv)
    (req : SendMessageBody) (st : Proc UserState) (nodes : list Node) :
  getNodeRegistry env = Ok nodes -> (length nodes < 3)%nat ->
  let circuit := sélectionnerNœudsAléatoires (Math_random env) nodes 3 in
  let r := user_sendMessage wc BASE_USER_PORT BASE_ONION_ROUTER_PORT env req st in
  circuit ≡ₚ nodes
  /\ length circuit = length nodes
  /\ dernierCircuit (vars r.1) = map nodeId circuit
  /\ outbox r.1 = outbox st
  /\ r.2 = Ok answer_failed.
Proof.
  intros Hreg Hlen circuit r.
  assert (circuit ≡ₚ nodes) as Hperm.
  { unfold circuit, sélectionnerNœudsAléatoires.
    rewrite take_ge by (rewrite mélanger_Permutation; lia).
    apply mélanger_Permutation. }
  split; [done|]. split; [by rewrite Hperm|].
  subst r. rewrite (sendMessage_short_circuit wc _ _ env req st nodes Hreg).
  - done.
  - apply lookup_ge_None. fold circuit. rewrite Hperm. lia.
Qed.

(** C6 on a registry of two nodes. *)
Lemma short_registry_selects_short_circuit_witness :
  let r := user_sendMessage toy 3000 4000 (demo_env (Ok [demo_A; demo_B]))
             demo_request demo_user in
  dernierCircuit (vars r.1) = [1; 2] /\ outbox r.1 = [] /\ r.2 = Ok answer_failed.
Proof.
  destruct (short_registry_selects_short_circuit toy 3000 4000
              (demo_env (Ok [demo_A; demo_B])) demo_request demo_user [demo_A; demo_B])
    as (_ & _ & H1 & H2 & H3); [reflexivity|simpl; lia|].
  split; [exact H1|]. split; [exact H2|exact H3].
Defined.

(** C6 as stated fails: with two nodes, and with none, circuit selection
    returns a circuit and no error. *)
Lemma selection_returns_short_circuit :
  sélectionnerNœudsAléatoires (fun _ => (1 # 2)%Q) [demo_A; demo_B] 3
  = [demo_A; demo_B]
  /\ sélectionnerNœudsAléatoires (fun _ => (1 # 2)%Q) [] 3 = [].
Proof. split; reflexivity. Qed.

Lemma valid_port_below p : valid_port (Num (Z.of_N p)) = true -> p < 10 ^ 10.
Proof.
  unfold valid_port. intros [_ H]%andb_true_iff. apply Z.leb_le in H.
  change (10 ^ 10) with 10000000000. lia.
Qed.

Lemma well_drawn_keys env :
  well_drawn env ->
  valid_aes_key (cléEntrée env) = true
  /\ valid_aes_key (cléIntermédiaire env) = true
  /\ valid_aes_key (cléSortie env) = true.
Proof. intros (H1 & H2 & H3 & _). unfold valid_aes_key. by rewrite H1, H2, H3. Qed.

Section Onion.

Context (wc : WebCrypto) (rsa : rsa_laws wc).
Context (BASE_USER_PORT BASE_ONION_ROUTER_PORT : N).

(** The three layers of the envelope that the handler posts. *)
Lemma sendMessage_layers env req st nodes entrée intermédiaire sortie pubE pubM pubS :
  getNodeRegistry env = Ok nodes ->
  sélectionnerNœudsAléatoires (Math_random env) nodes 3 = [entrée; intermédiaire; sortie] ->
  registered wc entrée pubE -> registered wc intermédiaire pubM ->
  registered wc sortie pubS ->
  well_drawn env ->
  BASE_USER_PORT + destinationUserId req < 10 ^ 10 ->
  BASE_ONION_ROUTER_PORT + nodeId sortie < 10 ^ 10 ->
  BASE_ONION_ROUTER_PORT + nodeId intermédiaire < 10 ^ 10 ->
  valid_port (Num (Z.of_N (BASE_ONION_ROUTER_PORT + nodeId entrée))) = true ->
  exists l3 l2 l1,
    is_layer wc sortie (cléSortie env) (ivSortie env) (seedSortie env)
      (BASE_USER_PORT + destinationUserId req) (message req) l3
    /\ is_layer wc intermédiaire (cléIntermédiaire env) (ivIntermédiaire env)
         (seedIntermédiaire env) (BASE_ONION_ROUTER_PORT + nodeId sortie) l3 l2
    /\ is_layer wc entrée (cléEntrée env) (ivEntrée env) (seedEntrée env)
         (BASE_ONION_ROUTER_PORT + nodeId intermédiaire) l2 l1
    /\ user_sendMessage wc BASE_USER_PORT BASE_ONION_ROUTER_PORT env req st
       = (let rq := {| port := Num (Z.of_N (BASE_ONION_ROUTER_PORT + nodeId entrée));
                       body := l1 |} in
          ({| vars := {| dernierMessageReçu := dernierMessageReçu (vars st);
                         dernierMessageEnvoyé := Some (message req);
                         dernierCircuit :=
                           [nodeId entrée; nodeId intermédiaire; nodeId sortie] |};
              outbox := outbox st ++ [rq] |},
           Ok (match réseau env rq with
               | Ok _ => answer_sent
               | Throw _ => answer_failed
               end))).
Proof using rsa.
  intros Hreg Hsel [HE HEm] [HM HMm] [HS HSm] (KE & KM & KS & IE & IM & IS) Pd Ps Pm Pe.
  destruct (layer_exists wc rsa sortie pubS (cléSortie env) (ivSortie env) (seedSortie env)
              (BASE_USER_PORT + destinationUserId req) (message req) HS)
    as (c3 & k3 & C3 & K3 & L3); [rewrite KS, HSm; simpl; lia|done|done|].
  destruct (layer_exists wc rsa intermédiaire pubM (cléIntermédiaire env)
              (ivIntermédiaire env) (seedIntermédiaire env)
              (BASE_ONION_ROUTER_PORT + nodeId sortie) (k3 ++ c3) HM)
    as (c2 & k2 & C2 & K2 & L2); [rewrite KM, HMm; simpl; lia|done|done|].
  destruct (layer_exists wc rsa entrée pubE (cléEntrée env) (ivEntrée env) (seedEntrée env)
              (BASE_ONION_ROUTER_PORT + nodeId intermédiaire) (k2 ++ c2) HE)
    as (c1 & k1 & C1 & K1 & L1); [rewrite KE, HEm; simpl; lia|done|done|].
  exists (k3 ++ c3), (k2 ++ c2), (k1 ++ c1).
  split; [done|]. split; [done|]. split; [done|].
  rewrite (sendMessage_three_hops wc BASE_USER_PORT BASE_ONION_ROUTER_PORT env req st nodes
             entrée intermédiaire sortie c3 k3 c2 k2 c1 k1 Hreg Hsel C3 K3 C2 K2 C1 K1).
  cbv zeta. by rewrite Pe.
Qed.

Context (aes : aes_laws wc).

(** The relay of a hop on the layer made for it. *)
Lemma routeur_on_layer hop priv K iv seed next data layer net st :
  is_layer wc hop K iv seed next data layer ->
  relay_of wc hop priv -> valid_aes_key K = true -> length iv = 16%nat ->
  well_formed data = true -> valid_port (Num (Z.of_N next)) = true ->
  routeurOnion_message wc priv net layer st =
  (let rq := {| port := Num (Z.of_N next); body := data |} in
   ({| vars := {| dernierMessageChiffréReçu := Some layer;
                  dernierMessageDéchiffréReçu := Some data;
                  dernièreDestinationMessage := Some (Num (Z.of_N next)) |};
       outbox := outbox st ++ [rq] |},
    Ok (match net rq with Ok _ => answer_success | Throw _ => answer_error end))).
Proof using rsa aes.
  intros Hl (pub & [Hpub Hmod] & Hpair) HK Hiv Hwf Hport.
  rewrite (routeurOnion_message_decrypted wc priv net layer st (Num (Z.of_N next)) data).
  - cbv zeta. by rewrite Hport.
  - by eapply strip_layer_layer.
Qed.

End Onion.

Lemma layer_length (wc : WebCrypto) (rsa : rsa_laws wc) hop pub K iv seed next data layer :
  is_layer wc hop K iv seed next data layer -> registered wc hop pub ->
  (344 <= length layer)%nat.
Proof.
  intros (a & ek & ct & _ & _ & Hk & ->) [Hpub Hmod].
  destruct (rsaEncrypt_length wc rsa _ _ _ _ Hk) as (pub' & Hpub' & Hek).
  rewrite Hpub in Hpub'. injection Hpub' as <-. rewrite Hmod in Hek.
  change (4 * ((256 + 2) / 3))%nat with 344%nat in Hek.
  rewrite length_app. lia.
Qed.

(** * The envelope *)

(** A layer that the functions of the [crypto] module made for a
    registered hop is the platform's encryption of the key and of the
    plaintext. *)
Lemma is_layer_sealed (wc : WebCrypto) (rsa : rsa_laws wc) hop pub K iv seed next data layer :
  is_layer wc hop K iv seed next data layer -> registered wc hop pub ->
  is_sealed_layer wc pub K iv seed next data layer.
Proof.
  intros (nextAddr & ek & ct & Haddr & Hct & Hek & ->) [Himp Hmod].
  unfold rsaEncrypt in Hek. rewrite Himp in Hek. cbv zeta in Hek.
  destruct (rsa_oaep_encrypt wc pub seed _) as [rawKey|] eqn:Hraw; [|done].
  unfold symEncrypt in Hct. cbv zeta in Hct.
  destruct (aes_cbc_encrypt wc K iv _) as [rawData|e] eqn:Hdata; [|done].
  exists nextAddr, rawKey, rawData.
  split; [done|]. split; [exact Hraw|]. split; [done|].
  split; [|congruence].
  by rewrite base64_length, (rsa_encrypt_length wc rsa _ _ _ _ Hraw), Hmod.
Qed.

(** The private key of the hop recovers the key of the layer from its
    first 344 characters. *)
Lemma is_layer_key_recovered (wc : WebCrypto) (rsa : rsa_laws wc)
    hop pub priv K iv seed next data layer :
  is_layer wc hop K iv seed next data layer -> registered wc hop pub ->
  rsa_key_pair wc pub priv ->
  rsaDecrypt wc (take 344 layer) priv = Ok (exportSymKey K).
Proof.
  intros (nextAddr & ek & ct & _ & _ & Hek & ->) [Himp Hmod] Hpair.
  destruct (rsaEncrypt_length wc rsa _ _ _ _ Hek) as (pub' & Himp' & Hlen).
  assert (pub' = pub) as -> by congruence.
  rewrite Hmod in Hlen. change (4 * ((256 + 2) / 3))%nat with 344%nat in Hlen.
  rewrite take_app_length' by done.
  rewrite (rsaDecrypt_of_rsaEncrypt wc rsa _ _ _ pub priv ek Himp Hpair Hek).
  rewrite TextDecoder_TextEncoder; [done| |].
  - apply ascii_well_formed, base64_ascii.
  - apply ascii_head, base64_ascii.
Qed.

(** C4, as amended.  For every message, and every destination and circuit
    [entry, middle, exit] of registered nodes whose ports are below 10^10,
    the handler posts to the entry node an envelope built from the
    innermost layer outward.  Every layer is [encryptedKey ‖ ciphertext]
    with no separator: its first 344 characters are the RSA-OAEP
    encryption of the exported key of the layer under the public key of
    its hop, from which the private key of that hop recovers the key, and
    the rest is the initialisation vector and the AES-CBC encryption under
    that key of the address field followed by the data.  The address
    field of the exit layer is the port of the destination, that of the
    middle layer the port of the exit node, that of the entry layer the
    port of the middle node, each ten decimal digits. *)
Theorem sendMessage_builds_three_layers (wc : WebCrypto) (rsa : rsa_laws wc)
    (BASE_USER_PORT BASE_ONION_ROUTER_PORT : N) (env : SendEnv) (req : SendMessageBody)
    (st : Proc UserState) (nodes : list Node) (entry middle exit : Node)
    (pubE pubM pubX : rsa_public wc) :
  getNodeRegistry env = Ok nodes ->
  sélectionnerNœudsAléatoires (Math_random env) nodes 3 = [entry; middle; exit] ->
  registered wc entry pubE -> registered wc middle pubM -> registered wc exit pubX ->
  well_drawn env ->
  BASE_USER_PORT + destinationUserId req < 10 ^ 10 ->
  BASE_ONION_ROUTER_PORT + nodeId exit < 10 ^ 10 ->
  BASE_ONION_ROUTER_PORT + nodeId middle < 10 ^ 10 ->
  valid_port (Num (Z.of_N (BASE_ONION_ROUTER_PORT + nodeId entry))) = true ->
  let r := user_sendMessage wc BASE_USER_PORT BASE_ONION_ROUTER_PORT env req st in
  exists exitLayer middleLayer entryLayer,
    is_layer wc exit (cléSortie env) (ivSortie env) (seedSortie env)
      (BASE_USER_PORT + destinationUserId req) (message req) exitLayer
    /\ is_layer wc middle (cléIntermédiaire env) (ivIntermédiaire env)
         (seedIntermédiaire env) (BASE_ONION_ROUTER_PORT + nodeId exit)
         exitLayer middleLayer
    /\ is_layer wc entry (cléEntrée env) (ivEntrée env) (seedEntrée env)
         (BASE_ONION_ROUTER_PORT + nodeId middle) middleLayer entryLayer
    /\ is_sealed_layer wc pubX (cléSortie env) (ivSortie env) (seedSortie env)
         (BASE_USER_PORT + destinationUserId req) (message req) exitLayer
    /\ is_sealed_layer wc pubM (cléIntermédiaire env) (ivIntermédiaire env)
         (seedIntermédiaire env) (BASE_ONION_ROUTER_PORT + nodeId exit)
         exitLayer middleLayer
    /\ is_sealed_layer wc pubE (cléEntrée env) (ivEntrée env) (seedEntrée env)
         (BASE_ONION_ROUTER_PORT + nodeId middle) middleLayer entryLayer
    /\ (forall privX, rsa_key_pair wc pubX privX ->
          rsaDecrypt wc (take 344 exitLayer) privX = Ok (exportSymKey (cléSortie env)))
    /\ (forall privM, rsa_key_pair wc pubM privM ->
          rsaDecrypt wc (take 344 middleLayer) privM
          = Ok (exportSymKey (cléIntermédiaire env)))
    /\ (forall privE, rsa_key_pair wc pubE privE ->
          rsaDecrypt wc (take 344 entryLayer) privE = Ok (exportSymKey (cléEntrée env)))
    /\ outbox r.1
       = outbox st ++ [{| port := Num (Z.of_N (BASE_ONION_ROUTER_PORT + nodeId entry));
                          body := entryLayer |}].
Proof.
  intros Hreg Hsel HE HM HX Hd Pd Px Pm Pe r.
  destruct (sendMessage_layers wc rsa BASE_USER_PORT BASE_ONION_ROUTER_PORT env req st nodes
              entry middle exit pubE pubM pubX Hreg Hsel HE HM HX Hd Pd Px Pm Pe)
    as (l3 & l2 & l1 & L3 & L2 & L1 & Hr).
  exists l3, l2, l1. split; [done|]. split; [done|]. split; [done|].
  split; [exact (is_layer_sealed wc rsa _ _ _ _ _ _ _ _ L3 HX)|].
  split; [exact (is_layer_sealed wc rsa _ _ _ _ _ _ _ _ L2 HM)|].
  split; [exact (is_layer_sealed wc rsa _ _ _ _ _ _ _ _ L1 HE)|].
  split; [intros priv; exact (is_layer_key_recovered wc rsa _ _ priv _ _ _ _ _ _ L3 HX)|].
  split; [intros priv; exact (is_layer_key_recovered wc rsa _ _ priv _ _ _ _ _ _ L2 HM)|].
  split; [intros priv; exact (is_layer_key_recovered wc rsa _ _ priv _ _ _ _ _ _ L1 HE)|].
  subst r. by rewrite Hr.
Qed.

Lemma demo_well_drawn nodes : well_drawn (demo_env nodes).
Proof. repeat split. Qed.

(** C4 on the run of the small instance. *)
Lemma sendMessage_builds_three_layers_witness :
  exists exitLayer middleLayer entryLayer,
    is_layer toy demo_B (replicate 32 x33) (replicate 16 x01) [] 3007 (js "hello") exitLayer
    /\ is_layer toy demo_C (replicate 32 x22) (replicate 16 x02) [] 4002
         exitLayer middleLayer
    /\ is_layer toy demo_A (replicate 32 x11) (replicate 16 x03) [] 4003
         middleLayer entryLayer
    /\ is_sealed_layer toy x02 (replicate 32 x33) (replicate 16 x01) [] 3007 (js "hello")
         exitLayer
    /\ is_sealed_layer toy x03 (replicate 32 x22) (replicate 16 x02) [] 4002
         exitLayer middleLayer
    /\ is_sealed_layer toy x01 (replicate 32 x11) (replicate 16 x03) [] 4003
         middleLayer entryLayer
    /\ (forall privX, rsa_key_pair toy x02 privX ->
          rsaDecrypt toy (take 344 exitLayer) privX = Ok (exportSymKey (replicate 32 x33)))
    /\ (forall privM, rsa_key_pair toy x03 privM ->
          rsaDecrypt toy (take 344 middleLayer) privM
          = Ok (exportSymKey (replicate 32 x22)))
    /\ (forall privE, rsa_key_pair toy x01 privE ->
          rsaDecrypt toy (take 344 entryLayer) privE = Ok (exportSymKey (replicate 32 x11)))
    /\ outbox (user_sendMessage toy 3000 4000 (demo_env (Ok [demo_A; demo_B; demo_C]))
                 demo_request demo_user).1
       = [{| port := Num 4001; body := entryLayer |}].
Proof.
  apply (sendMessage_builds_three_layers toy toy_rsa_laws 3000 4000
           (demo_env (Ok [demo_A; demo_B; demo_C])) demo_request demo_user
           [demo_A; demo_B; demo_C] demo_A demo_C demo_B x01 x03 x02);
    first [ reflexivity | apply demo_registered | apply demo_well_drawn ].
Defined.

(** C4 as stated fails for a destination whose port has more than ten
    digits: for user 10^10 the handler answers 200 and posts an envelope
    whose exit layer starts with the eleven digits of the port; the exit
    relay reads the first ten as the address 1000000300 and the rest,
    ["0hello"], as the message, and forwards nothing. *)
Lemma sendMessage_address_exceeds_field :
  let req := {| message := js "hello"; destinationUserId := 10 ^ 10 |} in
  let send := user_sendMessage toy 3000 4000 (demo_env (Ok [demo_A; demo_B; demo_C]))
                req demo_user in
  let atA := routeurOnion_message toy x01 net_up (sent_body send.1) demo_router in
  let atC := routeurOnion_message toy x03 net_up (sent_body atA.1) demo_router in
  let atB := routeurOnion_message toy x02 net_up (sent_body atC.1) demo_router in
  send.2 = Ok answer_sent
  /\ map port (outbox send.1) = [Num 4001]
  /\ map port (outbox atA.1) = [Num 4003]
  /\ map port (outbox atC.1) = [Num 4002]
  /\ padStart (Number_toString (3000 + 10 ^ 10)) 10 (js "0") = js "10000003000"
  /\ symDecrypt toy (exportSymKey (replicate 32 x33)) (drop 344 (sent_body atC.1))
     = Ok (js "10000003000hello")
  /\ dernièreDestinationMessage (vars atB.1) = Some (Num 1000000300)
  /\ dernierMessageDéchiffréReçu (vars atB.1) = Some (js "0hello")
  /\ outbox atB.1 = []
  /\ atB.2 = Ok answer_error.
Proof. vm_compute. repeat split; reflexivity. Qed.

(** C1, as amended.  For every circuit [A, B, C] of relays with valid
    ports and every well-formed message (no unpaired surrogate), the
    envelope that the handler of [/sendMessage] posts to A is such that A,
    then B, then C, each running the relay's handler on what the previous
    one forwarded, forward to B, to C and to the port of the destination;
    C recovers that port as its next address and forwards the message
    itself, which the destination stores as received. *)
Theorem onion_end_to_end (wc : WebCrypto) (aes : aes_laws wc) (rsa : rsa_laws wc)
    (BASE_USER_PORT BASE_ONION_ROUTER_PORT : N) (env : SendEnv) (req : SendMessageBody)
    (st : Proc UserState) (nodes : list Node) (A B C : Node)
    (privA privB privC : rsa_private wc) :
  getNodeRegistry env = Ok nodes ->
  sélectionnerNœudsAléatoires (Math_random env) nodes 3 = [A; B; C] ->
  relay_of wc A privA -> relay_of wc B privB -> relay_of wc C privC ->
  well_drawn env ->
  valid_port (Num (Z.of_N (BASE_ONION_ROUTER_PORT + nodeId A))) = true ->
  valid_port (Num (Z.of_N (BASE_ONION_ROUTER_PORT + nodeId B))) = true ->
  valid_port (Num (Z.of_N (BASE_ONION_ROUTER_PORT + nodeId C))) = true ->
  valid_port (Num (Z.of_N (BASE_USER_PORT + destinationUserId req))) = true ->
  well_formed (message req) = true ->
  exists toA toB toC,
    outbox (user_sendMessage wc BASE_USER_PORT BASE_ONION_ROUTER_PORT env req st).1
    = outbox st ++ [{| port := Num (Z.of_N (BASE_ONION_ROUTER_PORT + nodeId A));
                       body := toA |}]
    /\ (forall net stA,
          outbox (routeurOnion_message wc privA net toA stA).1
          = outbox stA ++ [{| port := Num (Z.of_N (BASE_ONION_ROUTER_PORT + nodeId B));
                              body := toB |}])
    /\ (forall net stB,
          outbox (routeurOnion_message wc privB net toB stB).1
          = outbox stB ++ [{| port := Num (Z.of_N (BASE_ONION_ROUTER_PORT + nodeId C));
                              body := toC |}])
    /\ (forall net stC,
          outbox (routeurOnion_message wc privC net toC stC).1
          = outbox stC ++ [{| port := Num (Z.of_N (BASE_USER_PORT + destinationUserId req));
                              body := message req |}]
          /\ dernièreDestinationMessage (vars (routeurOnion_message wc privC net toC stC).1)
             = Some (Num (Z.of_N (BASE_USER_PORT + destinationUserId req))))
    /\ (forall stU,
          dernierMessageReçu (vars (user_message (message req) stU).1)
          = Some (message req)).
Proof.
  intros Hreg Hsel HA HB HC Hd PA PB PC PD Hwf.
  destruct HA as (pubA & RA & KA). destruct HB as (pubB & RB & KB).
  destruct HC as (pubC & RC & KC).
  destruct (sendMessage_layers wc rsa BASE_USER_PORT BASE_ONION_ROUTER_PORT env req st nodes
              A B C pubA pubB pubC Hreg Hsel RA RB RC Hd)
    as (l3 & l2 & l1 & L3 & L2 & L1 & Hr); [by apply valid_port_below..|done|].
  destruct (well_drawn_keys env Hd) as (VA & VB & VC).
  destruct Hd as (_ & _ & _ & IA & IB & IC).
  exists l1, l2, l3. split; [by rewrite Hr|].
  split; [|split; [|split]].
  - intros net stA.
    rewrite (routeur_on_layer wc rsa aes A privA _ _ _ _ l2 l1 net stA L1); try done.
    + by exists pubA.
    + eapply ascii_well_formed, layer_ascii, L2.
  - intros net stB.
    rewrite (routeur_on_layer wc rsa aes B privB _ _ _ _ l3 l2 net stB L2); try done.
    + by exists pubB.
    + eapply ascii_well_formed, layer_ascii, L3.
  - intros net stC.
    rewrite (routeur_on_layer wc rsa aes C privC _ _ _ _ (message req) l3 net stC L3);
      try done.
    by exists pubC.
  - done.
Qed.

(** C1 on the run of the small instance: ["hello"] from user 0 to user 7
    through [demo_A], [demo_C], [demo_B]. *)
Lemma onion_end_to_end_witness :
  exists toA toB toC,
    outbox (user_sendMessage toy 3000 4000 (demo_env (Ok [demo_A; demo_B; demo_C]))
              demo_request demo_user).1
    = [{| port := Num 4001; body := toA |}]
    /\ (forall net stA,
          outbox (routeurOnion_message toy x01 net toA stA).1
          = outbox stA ++ [{| port := Num 4003; body := toB |}])
    /\ (forall net stB,
          outbox (routeurOnion_message toy x03 net toB stB).1
          = outbox stB ++ [{| port := Num 4002; body := toC |}])
    /\ (forall net stC,
          outbox (routeurOnion_message toy x02 net toC stC).1
          = outbox stC ++ [{| port := Num 3007; body := js "hello" |}]
          /\ dernièreDestinationMessage (vars (routeurOnion_message toy x02 net toC stC).1)
             = Some (Num 3007))
    /\ (forall stU,
          dernierMessageReçu (vars (user_message (js "hello") stU).1)
          = Some (js "hello")).
Proof.
  apply (onion_end_to_end toy toy_aes_laws toy_rsa_laws 3000 4000
           (demo_env (Ok [demo_A; demo_B; demo_C])) demo_request demo_user
           [demo_A; demo_B; demo_C] demo_A demo_C demo_B x01 x03 x02);
    first [ reflexivity | apply demo_relay_of | apply demo_well_drawn ].
Defined.

(** C1 as stated fails: a message that is one unpaired surrogate reaches
    the destination as U+FFFD. *)
Lemma onion_delivers_replacement_character :
  let send := user_sendMessage toy 3000 4000 (demo_env (Ok [demo_A; demo_B; demo_C]))
                {| message := [0xD83D]; destinationUserId := 7 |} demo_user in
  let atA := routeurOnion_message toy x01 net_up (sent_body send.1) demo_router in
  let atC := routeurOnion_message toy x03 net_up (sent_body atA.1) demo_router in
  let atB := routeurOnion_message toy x02 net_up (sent_body atC.1) demo_router in
  dernierCircuit (vars send.1) = [1; 3; 2]
  /\ map port (outbox send.1) = [Num 4001]
  /\ map port (outbox atA.1) = [Num 4003]
  /\ map port (outbox atC.1) = [Num 4002]
  /\ outbox atB.1 = [{| port := Num 3007; body := [0xFFFD] |}]
  /\ dernierMessageReçu (vars (user_message (sent_body atB.1) demo_user).1)
     = Some [0xFFFD]
  /\ [0xFFFD] <> [0xD83D].
Proof. vm_compute. repeat split; done. Qed.

(** ** A layer with a changed initialisation vector *)

Section Tampered.

Context (wc : WebCrypto) (rsa : rsa_laws wc) (aes : aes_laws wc).

Lemma symEncrypt_inv iv K données c :
  symEncrypt wc iv K données = Ok c ->
  exists raw, aes_cbc_encrypt wc K iv (TextEncoder_encode données) = Ok raw
              /\ c = arrayBufferToBase64 (iv ++ raw).
Proof.
  unfold symEncrypt. destruct (aes_cbc_encrypt wc K iv _) as [raw|]; [|done].
  intros [= <-]. by exists raw.
Qed.

Lemma TextDecoder_ascii s :
  Forall (fun u => u < 128) s -> TextDecoder_decode (map byte_of_N s) = s.
Proof.
  intros H. rewrite <- TextEncoder_ascii by done.
  apply TextDecoder_TextEncoder; [by apply ascii_well_formed|by apply ascii_head].
Qed.

(** The relay strips a layer whose initialisation vector was changed in
    byte [i], from 10 to 15, as if nothing had happened: the address is
    the original one and the payload differs in character [i - 10]. *)
Lemma strip_layer_tampered hop priv K iv seed next data layer i d :
  is_layer wc hop K iv seed next data layer ->
  relay_of wc hop priv -> valid_aes_key K = true -> length iv = 16%nat ->
  Forall (fun u => u < 128) data -> (6 <= length data)%nat ->
  (10 <= i < 16)%nat -> Byte.to_N d < 128 ->
  strip_layer wc priv (take 344 layer ++ tamper i d (drop 344 layer))
  = Ok (Num (Z.of_N next), alter (fun u => N.lxor u (Byte.to_N d)) (i - 10)%nat data).
Proof using rsa aes.
  intros (a & ek & ct & Ha & Hc & Hk & ->) (pub & [Hpub Hmod] & Hpair) HK Hiv Hdata Hlen Hi Hd.
  destruct (rsaEncrypt_length wc rsa _ _ _ _ Hk) as (pub' & Hpub' & Hek).
  rewrite Hpub in Hpub'. injection Hpub' as <-. rewrite Hmod in Hek.
  change (4 * ((256 + 2) / 3))%nat with 344%nat in Hek.
  rewrite (take_app_length' ek ct) by done. rewrite (drop_app_length' ek ct) by done.
  unfold strip_layer.
  rewrite (take_app_length' ek) by done. rewrite (drop_app_length' ek) by done.
  rewrite (rsaDecrypt_of_rsaEncrypt wc rsa _ _ _ pub priv ek Hpub Hpair Hk).
  rewrite TextDecoder_TextEncoder;
    [|apply ascii_well_formed, base64_ascii|apply ascii_head, base64_ascii].
  destruct (symEncrypt_inv iv K (a ++ data) ct Hc) as (raw & Hraw & ->).
  destruct Ha as (Hal & Had & Hav).
  assert (Forall (fun u => u < 128) (a ++ data)) as Hascii.
  { apply Forall_app. split; [|done]. eapply Forall_impl; [apply Had|].
    intros c Hc'%is_digit_spec. simpl. lia. }
  rewrite TextEncoder_ascii in Hraw by done.
  unfold symDecrypt, tamper. rewrite importSymKey_exportSymKey by done.
  rewrite !base64_round_trip.
  assert (flip_byte i d (iv ++ raw) = flip_byte i d iv ++ raw) as ->
    by (unfold flip_byte; apply alter_app_l; lia).
  rewrite take_app_length', drop_app_length' by (rewrite flip_byte_length; done).
  rewrite (aes_cbc_decrypt_flipped_iv wc aes K iv (map byte_of_N (a ++ data)) raw i d HK Hiv); [|
    rewrite length_map, length_app; lia|lia|done].
  rewrite flip_byte_ascii by done.
  rewrite TextDecoder_ascii by by apply alter_ascii.
  rewrite alter_app_r_alt by lia. rewrite Hal.
  rewrite take_app_length', drop_app_length' by done.
  rewrite parseInt_digits, Hav; [done|by destruct a|done].
Qed.

End Tampered.

(** * Modified ciphertexts *)

(** C8, as amended.  The relay checks no integrity.  For every layer made
    for a relay whose inner data is ASCII text of at least six characters
    (every layer but the innermost is), changing any of the low seven bits
    of byte [i] of the symmetric ciphertext portion, [i] from 10 to 15,
    raises nothing: the relay forwards to the unchanged address a payload
    that differs from the original in character [i - 10], and answers
    success when the next hop takes the request.  The relay reports
    failure and forwards nothing when a decryption itself fails. *)
Theorem routeur_forwards_modified_payload (wc : WebCrypto) (aes : aes_laws wc)
    (rsa : rsa_laws wc) (hop : Node) (priv : rsa_private wc) (K iv seed : list byte)
    (next : N) (data layer : jsstring) (net : request -> result unit)
    (st : Proc RouterState) (i : nat) (d : byte) :
  is_layer wc hop K iv seed next data layer ->
  relay_of wc hop priv -> valid_aes_key K = true -> length iv = 16%nat ->
  Forall (fun u => u < 128) data -> (6 <= length data)%nat ->
  (10 <= i < 16)%nat -> 0 < Byte.to_N d < 128 ->
  valid_port (Num (Z.of_N next)) = true ->
  let modified := take 344 layer ++ tamper i d (drop 344 layer) in
  let payload := alter (fun u => N.lxor u (Byte.to_N d)) (i - 10)%nat data in
  let r := routeurOnion_message wc priv net modified st in
  payload <> data
  /\ outbox r.1 = outbox st ++ [{| port := Num (Z.of_N next); body := payload |}]
  /\ (net {| port := Num (Z.of_N next); body := payload |} = Ok tt ->
      r.2 = Ok answer_success)
  /\ (forall envelope e,
        strip_layer wc priv envelope = Throw e ->
        (routeurOnion_message wc priv net envelope st).2 = Ok answer_error
        /\ outbox (routeurOnion_message wc priv net envelope st).1 = outbox st).
Proof.
  intros Hl Hr HK Hiv Hdata Hlen Hi Hd Hport modified payload r.
  split; [apply alter_lxor_changes; lia|].
  split; [|split].
  - subst r modified.
    rewrite (routeurOnion_message_decrypted wc priv net _ st (Num (Z.of_N next)) payload).
    + cbv zeta. by rewrite Hport.
    + eapply (strip_layer_tampered wc rsa aes); (done || lia).
  - subst r modified.
    rewrite (routeurOnion_message_decrypted wc priv net _ st (Num (Z.of_N next)) payload).
    + cbv zeta. rewrite Hport. cbn [snd]. by intros ->.
    + eapply (strip_layer_tampered wc rsa aes); (done || lia).
  - intros envelope e He.
    by rewrite (routeurOnion_message_rejected wc priv net envelope st e He).
Qed.

(** C8 on the envelope of the run: byte 12 of the initialisation vector of
    the entry layer changed by 4. *)
Lemma routeur_forwards_modified_payload_witness :
  let modified := take 344 demo_envelope ++ tamper 12 x04 (drop 344 demo_envelope) in
  let r := routeurOnion_message toy x01 net_up modified demo_router in
  exists payload,
    outbox r.1 = [{| port := Num 4003; body := payload |}]
    /\ r.2 = Ok answer_success.
Proof.
  destruct (sendMessage_layers toy toy_rsa_laws 3000 4000
              (demo_env (Ok [demo_A; demo_B; demo_C])) demo_request demo_user
              [demo_A; demo_B; demo_C] demo_A demo_C demo_B x01 x03 x02)
    as (l3 & l2 & l1 & L3 & L2 & L1 & Hr);
    try first [ reflexivity | apply demo_registered | apply demo_well_drawn ].
  assert (demo_envelope = l1) as -> by (unfold demo_envelope; rewrite Hr; reflexivity).
  destruct (routeur_forwards_modified_payload toy toy_aes_laws toy_rsa_laws demo_A x01
              (replicate 32 x11) (replicate 16 x03) [] 4003 l2 l1 net_up demo_router
              12 x04 L1) as (_ & H1 & H2 & _).
  - apply demo_relay_of.
  - reflexivity.
  - reflexivity.
  - exact (layer_ascii toy _ _ _ _ _ _ _ L2).
  - pose proof (layer_length toy toy_rsa_laws _ _ _ _ _ _ _ _ L2 (demo_registered x03 3)).
    lia.
  - lia.
  - simpl. lia.
  - reflexivity.
  - eexists. split; [exact H1|]. apply H2. reflexivity.
Defined.

(** C8 as stated fails: one character of the ciphertext portion of the
    envelope of the run is changed, from [A] to [B] at index 360; the
    relay of [demo_A] raises nothing, answers success and forwards to the
    same port a payload that is not the original one. *)
Lemma routeur_accepts_modified_envelope :
  let modified := <[360%nat := 66]> demo_envelope in
  let honest := routeurOnion_message toy x01 net_up demo_envelope demo_router in
  let r := routeurOnion_message toy x01 net_up modified demo_router in
  demo_envelope !! 360%nat = Some 65
  /\ modified = take 344 demo_envelope ++ tamper 12 x04 (drop 344 demo_envelope)
  /\ r.2 = Ok answer_success
  /\ map port (outbox honest.1) = [Num 4003]
  /\ map port (outbox r.1) = [Num 4003]
  /\ sent_body r.1 <> sent_body honest.1.
Proof.
  cbv zeta. split; [vm_compute; reflexivity|].
  split; [vm_compute; reflexivity|].
  split; [vm_compute; reflexivity|].
  split; [vm_compute; reflexivity|].
  split; [vm_compute; reflexivity|].
  intros H. apply (f_equal (fun l => l !! 2%nat)) in H. vm_compute in H. discriminate.
Qed.

(** * The codecs of the [crypto] module *)

Lemma b64_char_alphabet v : v < 64 -> b64_alphabet (b64_char v) = true.
Proof.
  intros Hv. unfold b64_char, b64_alphabet.
  destruct (N.ltb_spec v 26); [|destruct (N.ltb_spec v 52); [|destruct (N.ltb_spec v 62);
    [|destruct (N.eqb_spec v 62)]]];
  rewrite ?orb_true_iff, ?andb_true_iff, ?N.leb_le, ?N.eqb_eq; lia.
Qed.

Lemma base64_alphabet_aux n : forall bs,
  (length bs <= n)%nat ->
  Forall (fun c => b64_alphabet c = true \/ c = 61) (arrayBufferToBase64 bs).
Proof.
  induction n as [n IH] using (well_founded_induction Nat.lt_wf_0); intros bs Hlen.
  destruct bs as [|a [|b [|c r]]]; [done| | |].
  - pose proof (to_N_lt a). cbn [arrayBufferToBase64].
    repeat apply Forall_cons_2; try apply Forall_nil_2;
      try (left; apply b64_char_alphabet; lia); by right.
  - pose proof (to_N_lt a). pose proof (to_N_lt b). cbn [arrayBufferToBase64].
    repeat apply Forall_cons_2; try apply Forall_nil_2;
      try (left; apply b64_char_alphabet; lia); by right.
  - pose proof (to_N_lt a). pose proof (to_N_lt b). pose proof (to_N_lt c).
    cbn [arrayBufferToBase64].
    repeat (apply Forall_cons_2; [left; apply b64_char_alphabet; lia|]).
    apply (IH (length r)); [simpl in Hlen; lia|done].
Qed.

Lemma b64_sextets_length s : (length (b64_sextets s) <= length s)%nat.
Proof.
  induction s as [|c r IH]; [done|]. cbn [b64_sextets].
  destruct (c =? 61); [simpl; lia|].
  destruct (b64_value c); simpl; lia.
Qed.

Lemma b64_bytes_length_aux n : forall vs,
  (length vs <= n)%nat -> (4 * length (b64_bytes vs) <= 3 * length vs)%nat.
Proof.
  induction n as [n IH] using (well_founded_induction Nat.lt_wf_0); intros vs Hlen.
  destruct vs as [|a [|b [|c [|d r]]]]; try (simpl; lia).
  cbn [b64_bytes length]. cbn [length] in Hlen.
  specialize (IH (length r) ltac:(lia) r ltac:(lia)). lia.
Qed.

(** Four characters give at most three bytes. *)
Lemma base64ToArrayBuffer_length s :
  (4 * length (base64ToArrayBuffer s) <= 3 * length s)%nat.
Proof.
  unfold base64ToArrayBuffer.
  pose proof (b64_bytes_length_aux _ (b64_sextets s) (Nat.le_refl _)).
  pose proof (b64_sextets_length s). lia.
Qed.

(** X1.  [base64ToArrayBuffer] inverts [arrayBufferToBase64] on every
    buffer, the empty one included; the text of a buffer of [n] bytes has
    [4 * ceil(n / 3)] characters, each a letter, a digit, [+], [/] or the
    padding [=]; and no text decodes to more than three bytes for four
    characters. *)
Theorem base64_codec (bs : list byte) (s : jsstring) :
  base64ToArrayBuffer (arrayBufferToBase64 bs) = bs
  /\ length (arrayBufferToBase64 bs) = (4 * ((length bs + 2) / 3))%nat
  /\ Forall (fun c => b64_alphabet c = true \/ c = 61) (arrayBufferToBase64 bs)
  /\ (4 * length (base64ToArrayBuffer s) <= 3 * length s)%nat.
Proof.
  split; [apply base64_round_trip|].
  split; [apply base64_length|].
  split; [by apply (base64_alphabet_aux (length bs))|].
  apply base64ToArrayBuffer_length.
Qed.

(** * Symmetric keys *)

Lemma valid_aes_key_length k :
  valid_aes_key k = true <-> (length k = 16 \/ length k = 24 \/ length k = 32)%nat.
Proof.
  unfold valid_aes_key. rewrite !orb_true_iff, !Nat.eqb_eq. tauto.
Qed.

(** X2.  [importSymKey] takes back every exported key of 16, 24 or 32
    bytes and rejects the export of any other buffer with a [DataError];
    whatever it accepts is the decoded text and has one of the three
    lengths; a text of fewer than 22 characters, the empty one included,
    is rejected. *)
Theorem importSymKey_accepts_aes_keys_only (k : list byte) (s : jsstring) :
  importSymKey (exportSymKey k) = (if valid_aes_key k then Ok k else Throw DataError)
  /\ match importSymKey s with
     | Ok clé => clé = base64ToArrayBuffer s
                 /\ (length clé = 16 \/ length clé = 24 \/ length clé = 32)%nat
                 /\ (22 <= length s)%nat
     | Throw e => e = DataError
     end.
Proof.
  split.
  - unfold importSymKey, exportSymKey. by rewrite base64_round_trip.
  - unfold importSymKey. destruct (valid_aes_key _) eqn:Hv; [|done].
    apply valid_aes_key_length in Hv.
    pose proof (base64ToArrayBuffer_length s). repeat split; [done|lia].
Qed.

(** * Symmetric encryption *)

(** X3.  With a 16-byte initialisation vector and an AES key,
    [symEncrypt] succeeds on every string, the empty one included; the
    decoded output is the initialisation vector followed by a whole
    number of 16-byte blocks, one more than the full blocks of the UTF-8
    text, so at least 32 bytes, and the text is Base64 of that length. *)
Theorem symEncrypt_output_shape (wc : WebCrypto) (aes : aes_laws wc)
    (iv clé : list byte) (données : jsstring) :
  length iv = 16%nat -> valid_aes_key clé = true ->
  exists c chiffré,
    symEncrypt wc iv clé données = Ok c
    /\ base64ToArrayBuffer c = iv ++ chiffré
    /\ take 16 (base64ToArrayBuffer c) = iv
    /\ length chiffré = (16 * (length (TextEncoder_encode données) / 16 + 1))%nat
    /\ length c = (4 * ((16 + length chiffré + 2) / 3))%nat
    /\ (44 <= length c)%nat.
Proof.
  intros Hiv Hkey. unfold symEncrypt, aes_cbc_encrypt. rewrite Hiv. cbn [Nat.eqb].
  cbv beta iota zeta.
  set (padded := pkcs7_pad (TextEncoder_encode données)).
  set (chiffré := cbc_encrypt_blocks wc (length padded / 16) clé iv padded).
  assert (length padded = (16 * (length (TextEncoder_encode données) / 16 + 1))%nat)
    as Hpad by apply pkcs7_pad_length.
  assert (length chiffré = length padded) as Hlen.
  { subst chiffré. rewrite (cbc_encrypt_blocks_length wc aes); [|done|done|];
      clearbody padded; lia. }
  exists (arrayBufferToBase64 (iv ++ chiffré)), chiffré.
  rewrite base64_round_trip, base64_length, length_app, Hiv.
  split; [done|]. split; [done|].
  split; [by rewrite take_app_length'|].
  split; [lia|]. split; [done|].
  clearbody chiffré padded. lia.
Qed.

Lemma symEncrypt_output_shape_witness :
  exists c chiffré,
    symEncrypt toy (replicate 16 x01) (replicate 32 x11) [] = Ok c
    /\ base64ToArrayBuffer c = replicate 16 x01 ++ chiffré
    /\ take 16 (base64ToArrayBuffer c) = replicate 16 x01
    /\ length chiffré = (16 * (length (TextEncoder_encode []) / 16 + 1))%nat
    /\ length c = (4 * ((16 + length chiffré + 2) / 3))%nat
    /\ (44 <= length c)%nat.
Proof.
  apply (symEncrypt_output_shape toy toy_aes_laws); reflexivity.
Defined.

(** Fewer bytes than an initialisation vector and a block, or a number of
    bytes that is no multiple of 16, is no AES-CBC ciphertext. *)
Lemma aes_cbc_decrypt_truncated (wc : WebCrypto) (clé tampon : list byte) :
  (length tampon < 32 \/ length tampon mod 16 <> 0)%nat ->
  aes_cbc_decrypt wc clé (take 16 tampon) (drop 16 tampon) = Throw OperationError.
Proof.
  intros Hshort. unfold aes_cbc_decrypt.
  pose proof (length_take tampon 16) as Htake.
  pose proof (length_drop tampon 16) as Hdrop.
  destruct (Nat.eqb_spec (length (take 16 tampon)) 16) as [H16|H16];
    cbn [negb]; [|done].
  destruct (Nat.eqb_spec (length (drop 16 tampon)) 0) as [H0|H0]; cbn [orb]; [done|].
  destruct (Nat.eqb_spec (length (drop 16 tampon) mod 16) 0) as [Hm|Hm];
    cbn [negb]; [|done].
  exfalso. lia.
Qed.

(** X4.  [symDecrypt] returns no text for an input that decodes to fewer
    than 32 bytes (an initialisation vector and one block), the empty
    input included, or to a number of bytes that is no multiple of 16: it
    throws the [DataError] of the key import or the [OperationError] of
    the decryption, under every block cipher. *)
Theorem symDecrypt_rejects_truncated (wc : WebCrypto)
    (chaîneDeLaClé donnéesChiffrées : jsstring) :
  (length (base64ToArrayBuffer donnéesChiffrées) < 32
   \/ length (base64ToArrayBuffer donnéesChiffrées) mod 16 <> 0)%nat ->
  symDecrypt wc chaîneDeLaClé donnéesChiffrées = Throw DataError
  \/ symDecrypt wc chaîneDeLaClé donnéesChiffrées = Throw OperationError.
Proof.
  intros Hshort. unfold symDecrypt.
  destruct (importSymKey chaîneDeLaClé) as [clé|e] eqn:Hkey.
  - right. cbv zeta. by rewrite aes_cbc_decrypt_truncated.
  - left. unfold importSymKey in Hkey.
    destruct (valid_aes_key _); congruence.
Qed.

Lemma symDecrypt_rejects_truncated_witness :
  symDecrypt toy (exportSymKey (replicate 32 x11)) [] = Throw DataError
  \/ symDecrypt toy (exportSymKey (replicate 32 x11)) [] = Throw OperationError.
Proof.
  apply symDecrypt_rejects_truncated. left. vm_compute. lia.
Defined.

(** * RSA encryption *)

(** X5.  The outcomes of [rsaEncrypt]: a key text that does not import
    gives a [DataError], whatever the data; with an imported key the
    result is either Base64 text of [4 * ceil(k / 3)] characters, [k] the
    byte length of the modulus, whatever the data, or an
    [OperationError], and then the UTF-8 data exceeds [k - 66] bytes.
    The text has the 344 characters at which the relay splits exactly
    for moduli of 256 to 258 bytes, among key sizes only for 2048 bits. *)
Theorem rsaEncrypt_outcomes (wc : WebCrypto) (rsa : rsa_laws wc)
    (seed : list byte) (donnéesBase64 chaîneCléPublique : jsstring) :
  match importPubKey wc chaîneCléPublique with
  | Throw _ => rsaEncrypt wc seed donnéesBase64 chaîneCléPublique = Throw DataError
  | Ok cléPublique =>
    let k := rsa_modulus_bytes wc cléPublique in
    (exists c, rsaEncrypt wc seed donnéesBase64 chaîneCléPublique = Ok c
               /\ length c = (4 * ((k + 2) / 3))%nat
               /\ Forall (fun u => b64_alphabet u = true \/ u = 61) c
               /\ (length c = 344%nat <-> (256 <= k <= 258)%nat))
    \/ (rsaEncrypt wc seed donnéesBase64 chaîneCléPublique = Throw OperationError
        /\ (k < length (TextEncoder_encode donnéesBase64) + 66)%nat)
  end.
Proof.
  unfold rsaEncrypt.
  destruct (importPubKey wc chaîneCléPublique) as [pub|e] eqn:Himp.
  - cbv zeta.
    destruct (rsa_oaep_encrypt wc pub seed _) as [raw|] eqn:Henc.
    + left. eexists. split; [done|].
      rewrite base64_length, (rsa_encrypt_length wc rsa _ _ _ _ Henc).
      split; [done|]. split; [by apply (base64_alphabet_aux (length raw))|]. lia.
    + right. split; [done|].
      destruct (Nat.lt_ge_cases (rsa_modulus_bytes wc pub)
                  (length (TextEncoder_encode donnéesBase64) + 66)) as [|Hle]; [done|].
      destruct (rsa_encrypt_bound wc rsa pub seed _ Hle) as [c Hc]. congruence.
  - unfold importPubKey in Himp. destruct (import_spki wc _); [done|].
    cbn in Himp. congruence.
Qed.

Lemma rsaEncrypt_outcomes_witness :
  (exists c, rsaEncrypt toy [] (exportSymKey (replicate 32 x11)) (pubKey demo_A) = Ok c
             /\ length c = 344%nat)
  /\ rsaEncrypt toy [] (exportSymKey (replicate 32 x11)) [] = Throw DataError.
Proof.
  split.
  - pose proof (rsaEncrypt_outcomes toy toy_rsa_laws []
                  (exportSymKey (replicate 32 x11)) (pubKey demo_A)) as H.
    change (importPubKey toy (pubKey demo_A)) with (Ok x01 : result (rsa_public toy)) in H.
    destruct H as [(c & Hc & Hlen & _)|[_ Hbig]]; [by exists c|].
    vm_compute in Hbig. lia.
  - exact (rsaEncrypt_outcomes toy toy_rsa_laws [] (exportSymKey (replicate 32 x11)) []).
Defined.

(** * Text through [TextEncoder] and [TextDecoder] *)

Lemma to_scalars_scalar_aux n : forall s,
  (length s <= n)%nat -> Forall (fun u => u < 0x10000) s ->
  Forall is_scalar (to_scalars s).
Proof.
  induction n as [n IH] using (well_founded_induction Nat.lt_wf_0); intros s Hlen Hs.
  destruct s as [|u r]; [done|].
  apply Forall_cons in Hs as [Hu Hr]. cbn [to_scalars length] in *.
  assert (is_scalar 0xFFFD) as Hrep by (right; lia).
  destruct (is_high_surrogate u) eqn:Hh.
  - unfold is_high_surrogate in Hh. apply andb_true_iff in Hh as [H1 H2].
    apply N.leb_le in H1, H2.
    destruct r as [|l r']; [by repeat constructor|].
    pose proof Hr as Hr0. apply Forall_cons in Hr as [Hl Hr'].
    destruct (is_low_surrogate l) eqn:Hlow.
    + unfold is_low_surrogate in Hlow. apply andb_true_iff in Hlow as [H3 H4].
      apply N.leb_le in H3, H4. cbn [length] in Hlen.
      constructor; [right; lia|]. apply (IH (length r')); [lia|done|done].
    + constructor; [done|]. apply (IH (length (l :: r'))); [lia|done|done].
  - destruct (is_low_surrogate u) eqn:Hlow.
    + constructor; [done|]. apply (IH (length r)); [lia|done|done].
    + constructor; [|apply (IH (length r)); [lia|done|done]].
      unfold is_high_surrogate, is_low_surrogate in *.
      apply andb_false_iff in Hh, Hlow. rewrite !N.leb_gt in Hh, Hlow.
      unfold is_scalar. lia.
Qed.

Lemma utf16_encode_scalar_head c r :
  is_scalar c -> c <> 0xFEFF ->
  without_bom (utf16_encode_scalar c ++ r) = utf16_encode_scalar c ++ r.
Proof.
  intros Hc Hne. unfold utf16_encode_scalar.
  destruct (N.ltb_spec c 0x10000) as [Hlt|Hge]; cbn [app without_bom].
  - by destruct (N.eqb_spec c 0xFEFF).
  - destruct (N.eqb_spec (0xD800 + (c - 0x10000) / 0x400) 0xFEFF) as [Heq|]; [|done].
    exfalso. destruct Hc as [|[_ Hc]]; lia.
Qed.

(** Encoding and decoding any string of 16-bit code units replaces its
    unpaired surrogates and drops a leading byte order mark. *)
Lemma TextDecoder_TextEncoder_any s :
  Forall (fun u => u < 0x10000) s ->
  TextDecoder_decode (TextEncoder_encode s) = without_bom (toWellFormed s).
Proof.
  intros Hs. unfold TextDecoder_decode, TextEncoder_encode, toWellFormed.
  pose proof (to_scalars_scalar_aux _ s (Nat.le_refl _) Hs) as Hcs.
  destruct (to_scalars s) as [|c r]; [done|].
  apply Forall_cons in Hcs as [Hc Hr].
  destruct (N.eq_dec c 0xFEFF) as [->|Hne].
  - change (flat_map utf8_encode_scalar (0xFEFF :: r))
      with (xef :: xbb :: xbf :: flat_map utf8_encode_scalar r).
    cbn [strip_bom]. rewrite utf8_decode_encode by done.
    done.
  - rewrite strip_bom_other.
    + rewrite utf8_decode_encode by (by constructor).
      cbn [flat_map]. by rewrite utf16_encode_scalar_head.
    + intros r' Heq. cbn [flat_map] in Heq.
      apply utf8_encode_scalar_bom in Heq; [done|].
      destruct Hc as [|[_ Hc]]; lia.
Qed.

(** X6.  For every AES key, every 16-byte initialisation vector and every
    string of 16-bit code units, well formed or not, [symDecrypt] after
    [symEncrypt] returns the string with each unpaired surrogate replaced
    by U+FFFD and without a leading U+FEFF; a well-formed string is
    otherwise unchanged. *)
Theorem symDecrypt_symEncrypt_every_string (wc : WebCrypto) (aes : aes_laws wc)
    (iv clé : list byte) (données : jsstring) :
  length iv = 16%nat -> valid_aes_key clé = true ->
  Forall (fun u => u < 0x10000) données ->
  exists c,
    symEncrypt wc iv clé données = Ok c
    /\ symDecrypt wc (exportSymKey clé) c = Ok (without_bom (toWellFormed données))
    /\ (if well_formed données then toWellFormed données = données
        else toWellFormed données <> données).
Proof.
  intros Hiv Hkey Hs.
  destruct (symDecrypt_symEncrypt_any wc aes clé iv données Hkey Hiv) as (c & Hc & Hd).
  exists c. split; [done|]. split; [by rewrite Hd, TextDecoder_TextEncoder_any|].
  destruct (well_formed données) eqn:Hwf.
  - by apply utf16_encode_to_scalars.
  - intros Heq. unfold toWellFormed in Heq.
    assert (well_formed (flat_map utf16_encode_scalar (to_scalars données)) = true)
      as Hwf'; [|by rewrite Heq, Hwf in Hwf'].
    clear Heq Hwf.
    pose proof (to_scalars_scalar_aux _ données (Nat.le_refl _) Hs) as Hcs.
    induction Hcs as [|u r Hu _ IH]; [done|].
    cbn [flat_map]. unfold utf16_encode_scalar.
    destruct (N.ltb_spec u 0x10000) as [Hlt|Hge]; cbn [app well_formed].
    + assert (is_high_surrogate u = false) as ->.
      { unfold is_high_surrogate. apply andb_false_iff. rewrite !N.leb_gt.
        destruct Hu as [|[]]; lia. }
      assert (is_low_surrogate u = false) as ->.
      { unfold is_low_surrogate. apply andb_false_iff. rewrite !N.leb_gt.
        destruct Hu as [|[]]; lia. }
      cbn [negb andb]. by replace (u <? 0x10000) with true by (symmetry; apply N.ltb_lt; lia).
    + assert (u < 0x110000) by (destruct Hu as [|[]]; lia).
      assert (is_high_surrogate (0xD800 + (u - 0x10000) / 0x400) = true) as ->.
      { unfold is_high_surrogate. apply andb_true_iff. rewrite !N.leb_le. lia. }
      assert (is_low_surrogate (0xDC00 + (u - 0x10000) mod 0x400) = true) as ->.
      { unfold is_low_surrogate. apply andb_true_iff. rewrite !N.leb_le. lia. }
      done.
Qed.

Lemma symDecrypt_symEncrypt_every_string_witness :
  exists c,
    symEncrypt toy (replicate 16 x01) (replicate 32 x11) [0xFEFF; 0xD83D; 104] = Ok c
    /\ symDecrypt toy (exportSymKey (replicate 32 x11)) c
       = Ok (without_bom (toWellFormed [0xFEFF; 0xD83D; 104]))
    /\ without_bom (toWellFormed [0xFEFF; 0xD83D; 104]) = [0xFFFD; 104].
Proof.
  destruct (symDecrypt_symEncrypt_every_string toy toy_aes_laws (replicate 16 x01)
              (replicate 32 x11) [0xFEFF; 0xD83D; 104]) as (c & Hc & Hd & _).
  - reflexivity.
  - reflexivity.
  - repeat constructor.
  - exists c. split; [done|]. split; [done|]. reflexivity.
Defined.

(** * The address field *)

Lemma digits_value_lt ds :
  Forall (fun c => is_digit c = true) ds -> digits_value ds < 10 ^ N.of_nat (length ds).
Proof.
  induction ds as [|c ds IH] using rev_ind; intros Hds; [done|].
  apply Forall_app in Hds as [Hds Hc]. rewrite Forall_singleton in Hc.
  apply is_digit_spec in Hc. specialize (IH Hds).
  rewrite digits_value_snoc, length_app. cbn [length].
  replace (N.of_nat (length ds + 1)) with (N.succ (N.of_nat (length ds))) by lia.
  rewrite N.pow_succ_r'. lia.
Qed.

(** X7.  The ten-character address field holds the ports below 10^10 and
    no other: for such a port the relay's [parseInt] of the first ten
    characters gives the port and the rest is the data; for a larger
    port (below 2^53, where numbers are exact) [padStart] leaves the
    longer digit string as it is, the first ten characters parse to
    another number and the rest is not the data. *)
Theorem address_field_capacity (p : N) (données : jsstring) :
  p < 2 ^ 53 ->
  let destination := padStart (Number_toString p) 10 (js "0") in
  let couche := destination ++ données in
  (p < 10 ^ 10
   /\ parseInt (substring couche 0 (Some 10%nat)) = Num (Z.of_N p)
   /\ substring couche 10 None = données)
  \/ (10 ^ 10 <= p
      /\ destination = Number_toString p
      /\ parseInt (substring couche 0 (Some 10%nat)) <> Num (Z.of_N p)
      /\ substring couche 10 None <> données).
Proof.
  intros _ destination couche.
  destruct (N.lt_ge_cases p (10 ^ 10)) as [Hlt|Hge].
  - left. split; [done|]. by apply parseInt_address, padStart_address.
  - right. split; [done|].
    destruct (Number_toString_spec p) as (Hds & Hval & Hne & _).
    pose proof (digits_value_lt _ Hds) as Hbound. rewrite Hval in Hbound.
    assert (10 < length (Number_toString p))%nat as Hlen.
    { destruct (Nat.lt_ge_cases 10 (length (Number_toString p))) as [|Hle]; [done|].
      exfalso. assert (10 ^ N.of_nat (length (Number_toString p)) <= 10 ^ 10).
      { apply N.pow_le_mono_r; lia. }
      lia. }
    assert (destination = Number_toString p) as Hdest.
    { subst destination. unfold padStart.
      by replace (10 <=? length (Number_toString p))%nat with true
        by (symmetry; apply Nat.leb_le; lia). }
    split; [done|]. subst couche. rewrite Hdest, substring_prefix, substring_suffix.
    split.
    + rewrite take_app_le by lia.
      rewrite parseInt_digits.
      * intros [= Heq].
        pose proof (digits_value_lt (take 10 (Number_toString p))
                      (Forall_take _ _ _ Hds)) as Hb.
        rewrite length_take in Hb.
        replace (10 `min` length (Number_toString p))%nat with 10%nat in Hb by lia.
        change (10 ^ N.of_nat 10) with (10 ^ 10) in Hb.
        apply (f_equal Z.to_N) in Heq. rewrite !N2Z.id in Heq.
        rewrite Heq in Hb. exact (N.lt_irrefl _ (N.lt_le_trans _ _ _ Hb Hge)).
      * intros Hnil. apply (f_equal length) in Hnil. rewrite length_take in Hnil.
        cbn [length] in Hnil. lia.
      * by apply Forall_take.
    + intros Heq. apply (f_equal length) in Heq.
      rewrite length_drop, length_app in Heq. lia.
Qed.

Lemma address_field_capacity_witness :
  (4001 < 10 ^ 10
   /\ parseInt (substring (padStart (Number_toString 4001) 10 (js "0") ++ js "hello") 0
                  (Some 10%nat)) = Num 4001
   /\ substring (padStart (Number_toString 4001) 10 (js "0") ++ js "hello") 10 None
      = js "hello")
  \/ (10 ^ 10 <= 4001
      /\ padStart (Number_toString 4001) 10 (js "0") = Number_toString 4001
      /\ parseInt (substring (padStart (Number_toString 4001) 10 (js "0") ++ js "hello") 0
                     (Some 10%nat)) <> Num 4001
      /\ substring (padStart (Number_toString 4001) 10 (js "0") ++ js "hello") 10 None
         <> js "hello").
Proof.
  apply (address_field_capacity 4001 (js "hello")). reflexivity.
Defined.

(** * The relay on envelopes that are no layer for it *)

Section RelayRejects.

Context (wc : WebCrypto).

(** An envelope of at most 386 characters has a ciphertext portion of
    fewer than 32 bytes. *)
Lemma strip_layer_short priv message :
  (length message <= 386)%nat -> exists e, strip_layer wc priv message = Throw e.
Proof.
  intros Hlen. unfold strip_layer. cbv zeta.
  destruct (rsaDecrypt wc (take 344 message) priv) as [keymat|e]; [|by eexists].
  unfold symDecrypt.
  destruct (importSymKey keymat) as [clé|e]; [|by eexists].
  cbv zeta. rewrite aes_cbc_decrypt_truncated; [by eexists|].
  left. pose proof (base64ToArrayBuffer_length (drop 344 message)) as Hb.
  rewrite length_drop in Hb. lia.
Qed.

(** X8.  A relay never forwards an envelope of at most 386 characters,
    the empty envelope included, whatever its key and the block cipher:
    it records the envelope as the last one received, keeps its last
    decrypted message and destination, sends nothing and answers with
    status 500. *)
Theorem routeur_rejects_short_envelope (priv : rsa_private wc)
    (net : request -> result unit) (message : jsstring) (st : Proc RouterState) :
  (length message <= 386)%nat ->
  routeurOnion_message wc priv net message st
  = ({| vars := {| dernierMessageChiffréReçu := Some message;
                   dernierMessageDéchiffréReçu := dernierMessageDéchiffréReçu (vars st);
                   dernièreDestinationMessage := dernièreDestinationMessage (vars st) |};
        outbox := outbox st |},
     Ok answer_error).
Proof.
  intros Hlen. destruct (strip_layer_short priv message Hlen) as [e He].
  by rewrite (routeurOnion_message_rejected wc priv net message st e He).
Qed.

Context (rsa : rsa_laws wc).

(** X9.  Where RSA-OAEP rejects a ciphertext under every private key but
    the one of the pair, a relay that receives a layer made for another
    node fails at the decryption of the key: it sends nothing, keeps its
    last decrypted message and destination and answers with status 500. *)
Theorem routeur_rejects_foreign_layer (hop : Node) (pub : rsa_public wc)
    (priv' : rsa_private wc) (K iv seed : list byte) (next : N)
    (data layer : jsstring) (net : request -> result unit) (st : Proc RouterState) :
  rsa_rejects_foreign_keys wc ->
  is_layer wc hop K iv seed next data layer ->
  registered wc hop pub ->
  ~ rsa_key_pair wc pub priv' ->
  routeurOnion_message wc priv' net layer st
  = ({| vars := {| dernierMessageChiffréReçu := Some layer;
                   dernierMessageDéchiffréReçu := dernierMessageDéchiffréReçu (vars st);
                   dernièreDestinationMessage := dernièreDestinationMessage (vars st) |};
        outbox := outbox st |},
     Ok answer_error).
Proof using rsa.
  intros Hideal (nextAddr & ek & ct & _ & _ & Hek & ->) [Himp Hmod] Hforeign.
  destruct (rsaEncrypt_length wc rsa _ _ _ _ Hek) as (pub' & Himp' & Hlen).
  assert (pub' = pub) as -> by congruence.
  rewrite Hmod in Hlen. change (4 * ((256 + 2) / 3))%nat with 344%nat in Hlen.
  rewrite (routeurOnion_message_rejected wc priv' net (ek ++ ct) st OperationError);
    [done|].
  unfold strip_layer. cbv zeta. rewrite take_app_length' by done.
  by rewrite (rsaDecrypt_foreign_key wc _ pub priv' _ _ _ Hideal Himp Hforeign Hek).
Qed.

End RelayRejects.

Lemma routeur_rejects_short_envelope_witness :
  routeurOnion_message toy x01 net_up [] demo_router
  = ({| vars := {| dernierMessageChiffréReçu := Some [];
                   dernierMessageDéchiffréReçu := None;
                   dernièreDestinationMessage := None |};
        outbox := [] |},
     Ok answer_error).
Proof.
  apply (routeur_rejects_short_envelope toy x01 net_up [] demo_router). simpl. lia.
Defined.

Lemma routeur_rejects_foreign_layer_witness :
  routeurOnion_message toy x02 net_up demo_envelope demo_router
  = ({| vars := {| dernierMessageChiffréReçu := Some demo_envelope;
                   dernierMessageDéchiffréReçu := None;
                   dernièreDestinationMessage := None |};
        outbox := [] |},
     Ok answer_error).
Proof.
  assert (exists l2 l1,
            is_layer toy demo_A (replicate 32 x11) (replicate 16 x03) [] 4003 l2 l1
            /\ demo_envelope = l1) as (l2 & l1 & L1 & ->).
  { destruct (sendMessage_layers toy toy_rsa_laws 3000 4000
                (demo_env (Ok [demo_A; demo_B; demo_C])) demo_request demo_user
                [demo_A; demo_B; demo_C] demo_A demo_C demo_B x01 x03 x02)
      as (l3 & l2 & l1 & L3 & L2 & L1 & Hr);
      try first [ reflexivity | apply demo_registered | apply demo_well_drawn ].
    exists l2, l1. split; [exact L1|]. unfold demo_envelope. rewrite Hr. reflexivity. }
  apply (routeur_rejects_foreign_layer toy toy_rsa_laws demo_A x01 x02
           (replicate 32 x11) (replicate 16 x03) [] 4003 l2 l1 net_up demo_router).
  - apply toy_rejects_foreign_keys.
  - exact L1.
  - apply demo_registered.
  - discriminate.
Defined.

(** * The relay over its requests *)

Lemma serve_snoc {S Rq Rs} (app : Rq -> M S Rs) requests rq s :
  serve app (requests ++ [rq]) s = (app rq (serve app requests s)).1.
Proof. unfold serve. by rewrite fold_left_app. Qed.

Lemma latest_app {A} (before : option A) l l' :
  latest before (l ++ l') = latest (latest before l) l'.
Proof. unfold latest. rewrite last_app. by destruct (last l'). Qed.

Section RelayTrace.

Context (wc : WebCrypto).

(** X10.  What a relay answers and sends for an envelope does not depend
    on its variables or on what it received before: the answer and the
    request, at most one, are the same in every state.  An envelope
    received again is forwarded again. *)
Theorem routeur_ignores_its_state (priv : rsa_private wc)
    (net : request -> result unit) (message : jsstring) :
  exists (answer : response) (new : list request),
    (length new <= 1)%nat
    /\ new = option_list (forwarded wc priv message)
    /\ forall st : Proc RouterState,
         let r := routeurOnion_message wc priv net message st in
         r.2 = Ok answer
         /\ outbox r.1 = outbox st ++ new
         /\ (routeurOnion_message wc priv net message r.1).2 = Ok answer
         /\ outbox (routeurOnion_message wc priv net message r.1).1
            = outbox st ++ new ++ new.
Proof.
  unfold forwarded.
  destruct (strip_layer wc priv message) as [[next payload]|e] eqn:Hstrip.
  - destruct (valid_port next) eqn:Hport.
    + exists (match net {| port := next; body := payload |} with
              | Ok _ => answer_success
              | Throw _ => answer_error
              end), [{| port := next; body := payload |}].
      split; [simpl; lia|]. split; [reflexivity|]. intros st.
      rewrite !(routeurOnion_message_decrypted wc priv net message _ next payload Hstrip).
      cbv zeta. rewrite Hport. cbn [fst snd outbox].
      repeat split; rewrite <- ?app_assoc; reflexivity.
    + exists answer_error, []. split; [simpl; lia|]. split; [reflexivity|]. intros st.
      rewrite !(routeurOnion_message_decrypted wc priv net message _ next payload Hstrip).
      cbv zeta. rewrite Hport. cbn [fst snd outbox].
      rewrite !app_nil_r. repeat split; reflexivity.
  - exists answer_error, []. split; [simpl; lia|]. split; [reflexivity|]. intros st.
    rewrite !(routeurOnion_message_rejected wc priv net message _ e Hstrip).
    cbn [fst snd outbox]. rewrite !app_nil_r. repeat split; reflexivity.
Qed.

Context (clés : @Routeur wc).

Local Abbreviation priv := (cléPrivéeCrypto clés).

Lemma routeurOnion_step route st :
  let st' := (routeurOnion wc clés route st).1 in
  outbox st' = outbox st ++ omap (relayed wc priv) [route]
  /\ dernierMessageChiffréReçu (vars st')
     = latest (dernierMessageChiffréReçu (vars st)) (omap posted [route])
  /\ dernierMessageDéchiffréReçu (vars st')
     = latest (dernierMessageDéchiffréReçu (vars st)) (snd <$> omap (opened wc priv) [route])
  /\ dernièreDestinationMessage (vars st')
     = latest (dernièreDestinationMessage (vars st))
         (fst <$> omap (opened wc priv) [route]).
Proof.
  destruct route as [| | | | |net message];
    try (cbn; rewrite app_nil_r; by repeat split).
  cbv zeta. unfold routeurOnion, bind. cbn [omap list_omap relayed posted opened].
  unfold forwarded.
  destruct (strip_layer wc priv message) as [[next payload]|e] eqn:Hstrip.
  - rewrite (routeurOnion_message_decrypted wc priv net message st next payload Hstrip).
    cbv zeta. destruct (valid_port next); cbn; rewrite ?app_nil_r; by repeat split.
  - rewrite (routeurOnion_message_rejected wc priv net message st e Hstrip).
    cbn. rewrite ?app_nil_r. by repeat split.
Qed.

(** X11.  Over any sequence of requests to a relay, served one after the
    other: the requests it has sent are exactly those for the envelopes
    that it could open to a valid port, in the order of their arrival;
    the last received envelope is the last posted one, opened or not; the
    last decrypted message and destination are those of the last envelope
    that both decryptions accepted; the [GET] routes change nothing. *)
Theorem routeurOnion_over_requests (routes : list RouterRoute) (st : Proc RouterState) :
  let st' := serve (routeurOnion wc clés) routes st in
  outbox st' = outbox st ++ omap (relayed wc priv) routes
  /\ dernierMessageChiffréReçu (vars st')
     = latest (dernierMessageChiffréReçu (vars st)) (omap posted routes)
  /\ dernierMessageDéchiffréReçu (vars st')
     = latest (dernierMessageDéchiffréReçu (vars st)) (snd <$> omap (opened wc priv) routes)
  /\ dernièreDestinationMessage (vars st')
     = latest (dernièreDestinationMessage (vars st))
         (fst <$> omap (opened wc priv) routes).
Proof.
  induction routes as [|route routes IH] using rev_ind.
  - cbn. by rewrite app_nil_r.
  - cbv zeta in *. rewrite serve_snoc.
    destruct IH as (IH1 & IH2 & IH3 & IH4).
    destruct (routeurOnion_step route (serve (routeurOnion wc clés) routes st))
      as (H1 & H2 & H3 & H4).
    rewrite H1, H2, H3, H4, IH1, IH2, IH3, IH4.
    rewrite !omap_app, !fmap_app, <- !latest_app, <- app_assoc. done.
Qed.

End RelayTrace.

(** * The sender *)

Lemma bind_ret_fst {S A B} (m : M S A) (f : A -> B) (s : S) :
  (bind m (fun a => ret (f a)) s).1 = (m s).1.
Proof. unfold bind, ret. by destruct (m s) as [s' [a|e]]. Qed.

Lemma rsaEncrypt_unusable_key (wc : WebCrypto) seed données chaîne e :
  importPubKey wc chaîne = Throw e -> rsaEncrypt wc seed données chaîne = Throw e.
Proof. intros H. unfold rsaEncrypt. by rewrite H. Qed.

Section SenderAnswers.

Context (wc : WebCrypto) (BASE_USER_PORT BASE_ONION_ROUTER_PORT : N).

Local Abbreviation sendMessage := (user_sendMessage wc BASE_USER_PORT BASE_ONION_ROUTER_PORT).

Lemma sendMessage_outbox env req st :
  exists new, outbox (sendMessage env req st).1 = outbox st ++ new
              /\ (length new
                  <= length (omap dispatched [user_POST_sendMessage env req]))%nat.
Proof.
  cbn [omap list_omap dispatched].
  destruct (getNodeRegistry env) as [nodes|e] eqn:Hreg.
  - destruct (sendMessage_first_hop wc BASE_USER_PORT BASE_ONION_ROUTER_PORT
                env req st nodes Hreg) as [_ [H|(entrée & données & _ & H)]].
    + exists []. split; [by rewrite app_nil_r|simpl; lia].
    + eexists. split; [exact H|simpl; lia].
  - rewrite (sendMessage_registry_down wc BASE_USER_PORT BASE_ONION_ROUTER_PORT
               env req st e Hreg).
    exists []. split; [by rewrite app_nil_r|simpl; lia].
Qed.

(** X12.  The handler of [/sendMessage] always answers and never throws:
    with status 200 exactly when the lookup of the registry resolved, the
    handler has posted one envelope, to a valid port, and that [fetch]
    resolved; otherwise with status 500, having posted no envelope or one
    whose [fetch] was rejected.  It never posts a second envelope.  The
    lookup of the registry, the other [fetch] of the handler, is an input
    here ([getNodeRegistry]) and is not among the requests recorded. *)
Theorem sendMessage_answers (env : SendEnv) (req : SendMessageBody)
    (st : Proc UserState) :
  let r := sendMessage env req st in
  (r.2 = Ok answer_sent
   /\ exists nodes rq,
        getNodeRegistry env = Ok nodes
        /\ outbox r.1 = outbox st ++ [rq]
        /\ réseau env rq = Ok tt /\ valid_port (port rq) = true)
  \/ (r.2 = Ok answer_failed
      /\ (outbox r.1 = outbox st
          \/ exists rq e, outbox r.1 = outbox st ++ [rq] /\ réseau env rq = Throw e)).
Proof.
  cbv zeta. unfold_handler.
  destruct (getNodeRegistry env) as [nodes|e]; cbv beta iota; [|right; split; [done|by left]].
  set (circuit := sélectionnerNœudsAléatoires (Math_random env) nodes 3).
  destruct (circuit !! 0%nat) as [entrée|]; destruct (circuit !! 1%nat) as [inter|];
    destruct (circuit !! 2%nat) as [sortie|]; cbv beta iota delta [of_option];
    repeat step_result; try (right; split; [done|by left]).
  destruct (valid_port _) eqn:Hport; cbv beta iota; [|right; split; [done|by left]].
  cbn [vars outbox fst snd].
  destruct (réseau env _) as [[]|e] eqn:Hnet.
  - left. split; [done|]. eexists nodes, _. split; [done|]. split; [done|]. by split.
  - right. split; [done|]. right. by eexists _, _.
Qed.

(** X13.  When the registry lists a node whose public key does not
    import and the circuit contains that node, at whatever position, the
    handler of [/sendMessage] sends nothing and answers with status 500;
    the last sent message and the last circuit are recorded all the
    same. *)
Theorem sendMessage_unusable_key (env : SendEnv) (req : SendMessageBody)
    (st : Proc UserState) (nodes : list Node) (entrée intermédiaire sortie hop : Node)
    (e : exn) :
  getNodeRegistry env = Ok nodes ->
  sélectionnerNœudsAléatoires (Math_random env) nodes 3 = [entrée; intermédiaire; sortie] ->
  hop ∈ [entrée; intermédiaire; sortie] ->
  importPubKey wc (pubKey hop) = Throw e ->
  sendMessage env req st
  = ({| vars := {| dernierMessageReçu := dernierMessageReçu (vars st);
                   dernierMessageEnvoyé := Some (message req);
                   dernierCircuit := [nodeId entrée; nodeId intermédiaire; nodeId sortie] |};
        outbox := outbox st |},
     Ok answer_failed).
Proof.
  intros Hreg Hsel Hin Himp. unfold_handler. rewrite Hreg. cbv beta iota. rewrite Hsel.
  change ([entrée; intermédiaire; sortie] !! 0%nat) with (Some entrée).
  change ([entrée; intermédiaire; sortie] !! 1%nat) with (Some intermédiaire).
  change ([entrée; intermédiaire; sortie] !! 2%nat) with (Some sortie).
  cbv beta iota delta [of_option].
  assert (forall seed données, rsaEncrypt wc seed données (pubKey hop) = Throw e) as Hthrow
    by (intros; by apply rsaEncrypt_unusable_key).
  apply elem_of_cons in Hin as [->|Hin]; [|apply elem_of_cons in Hin as [->|Hin];
    [|apply list_elem_of_singleton in Hin as ->]];
    rewrite !Hthrow; by repeat step_result.
Qed.

End SenderAnswers.

Lemma sendMessage_unusable_key_witness :
  user_sendMessage toy 3000 4000
    (demo_env (Ok [demo_A; demo_B; {| nodeId := 3; pubKey := [] |}]))
    demo_request demo_user
  = ({| vars := {| dernierMessageReçu := None;
                   dernierMessageEnvoyé := Some (js "hello");
                   dernierCircuit := [1; 3; 2] |};
        outbox := [] |},
     Ok answer_failed).
Proof.
  apply (sendMessage_unusable_key toy 3000 4000
           (demo_env (Ok [demo_A; demo_B; {| nodeId := 3; pubKey := [] |}]))
           demo_request demo_user
           [demo_A; demo_B; {| nodeId := 3; pubKey := [] |}]
           demo_A {| nodeId := 3; pubKey := [] |} demo_B
           {| nodeId := 3; pubKey := [] |} DataError).
  - reflexivity.
  - reflexivity.
  - apply list_elem_of_lookup. by exists 1%nat.
  - reflexivity.
Defined.

(** * The user service over its requests *)

Section UserTrace.

Context (wc : WebCrypto) (BASE_USER_PORT BASE_ONION_ROUTER_PORT : N).

Local Abbreviation service := (userApp wc BASE_USER_PORT BASE_ONION_ROUTER_PORT).

Lemma userApp_step route st :
  let st' := (service route st).1 in
  dernierMessageReçu (vars st')
  = latest (dernierMessageReçu (vars st)) (omap received [route])
  /\ dernierMessageEnvoyé (vars st')
     = latest (dernierMessageEnvoyé (vars st)) (omap submitted [route])
  /\ exists new, outbox st' = outbox st ++ new
                 /\ (length new <= length (omap dispatched [route]))%nat.
Proof.
  destruct route as [|message| | | |env req];
    try (cbn; repeat split; exists []; split; [by rewrite app_nil_r|simpl; lia]).
  cbv zeta. unfold userApp. rewrite bind_ret_fst.
  destruct (sendMessage_dernierMessageEnvoyé wc BASE_USER_PORT BASE_ONION_ROUTER_PORT
              env req st) as [Hsent Hrecv].
  rewrite Hsent, Hrecv. split; [done|]. split; [done|].
  apply sendMessage_outbox.
Qed.

(** X14.  Over any sequence of requests to a user, served one after the
    other: the last received message is the message of the last
    [POST /message], the last sent message is the message of the last
    [POST /sendMessage], whether that send succeeded or not; receiving
    never changes what was sent nor sending what was received; and the
    user posts at most one envelope for each [POST /sendMessage] whose
    lookup of the registry resolved, and none for any other request.  The
    lookups of the registry, the other [fetch] of [/sendMessage], are
    inputs here and are not among the requests recorded. *)
Theorem userApp_over_requests (routes : list UserRoute) (st : Proc UserState) :
  let st' := serve service routes st in
  dernierMessageReçu (vars st')
  = latest (dernierMessageReçu (vars st)) (omap received routes)
  /\ dernierMessageEnvoyé (vars st')
     = latest (dernierMessageEnvoyé (vars st)) (omap submitted routes)
  /\ exists new, outbox st' = outbox st ++ new
                 /\ (length new <= length (omap dispatched routes))%nat.
Proof.
  induction routes as [|route routes IH] using rev_ind.
  - cbn. repeat split. exists []. split; [by rewrite app_nil_r|simpl; lia].
  - cbv zeta in *. rewrite serve_snoc.
    destruct IH as (IH1 & IH2 & new & IH3 & IH4).
    destruct (userApp_step route (serve service routes st)) as (H1 & H2 & new' & H3 & H4).
    rewrite H1, H2, H3, IH1, IH2, IH3.
    rewrite !omap_app, <- !latest_app. split; [done|]. split; [done|].
    exists (new ++ new'). rewrite <- app_assoc. split; [done|].
    rewrite !length_app. lia.
Qed.

End UserTrace.

(** * RSA keys through Base64 *)

Lemma toy_key_format_laws : key_format_laws toy_formats.
Proof. by split. Qed.

Section KeyFormats.

Context {wc : WebCrypto} (kf : KeyFormats wc) (formats : key_format_laws kf).

Lemma importPubKey_exportPubKey pub : importPubKey wc (exportPubKey kf pub) = Ok pub.
Proof using formats.
  unfold importPubKey, exportPubKey. cbv zeta.
  by rewrite base64_round_trip, (import_export_spki kf formats).
Qed.

Lemma importPrvKey_export priv :
  importPrvKey kf (arrayBufferToBase64 (export_pkcs8 kf priv)) = Ok priv.
Proof using formats.
  unfold importPrvKey. cbv zeta.
  by rewrite base64_round_trip, (import_export_pkcs8 kf formats).
Qed.

(** X15.  Where importing an exported key gives the key, [importPubKey]
    inverts [exportPubKey] and [importPrvKey] inverts [exportPrvKey] on
    every key; [exportPrvKey] of [null] is [null]; and text encrypted
    under the re-imported public key of a pair is decrypted by the
    re-imported private key, for every well-formed text within the OAEP
    bound that does not start with U+FEFF. *)
Theorem rsa_keys_through_base64 (rsa : rsa_laws wc) (pub : rsa_public wc)
    (priv : rsa_private wc) (seed : list byte) (M : jsstring) :
  rsa_key_pair wc pub priv ->
  well_formed M = true -> head M <> Some 0xFEFF ->
  (length (TextEncoder_encode M) + 66 <= rsa_modulus_bytes wc pub)%nat ->
  importPubKey wc (exportPubKey kf pub) = Ok pub
  /\ exportPrvKey kf None = None
  /\ exists chaîne priv' c,
       exportPrvKey kf (Some priv) = Some chaîne
       /\ importPrvKey kf chaîne = Ok priv'
       /\ priv' = priv
       /\ rsaEncrypt wc seed M (exportPubKey kf pub) = Ok c
       /\ rsaDecrypt wc c priv' = Ok M.
Proof using formats.
  intros Hpair Hwf Hbom Hbound.
  split; [apply importPubKey_exportPubKey|]. split; [done|].
  destruct (rsaDecrypt_rsaEncrypt_any wc rsa (exportPubKey kf pub) pub priv seed M
              (importPubKey_exportPubKey pub) Hpair Hbound) as (c & raw & Hc & _ & _ & Hd).
  exists (arrayBufferToBase64 (export_pkcs8 kf priv)), priv, c.
  split; [done|]. split; [apply importPrvKey_export|]. split; [done|].
  split; [done|]. by rewrite Hd, TextDecoder_TextEncoder.
Qed.

(** X16.  The start of [simpleOnionRouter] succeeds for every generated
    pair.  The node it registers carries its identifier and a public key
    that imports to the generated one; the private key it holds is the
    one of the pair, so with a 2048-bit pair the relay is the relay of
    its registry entry; and the text that [/getPrivateKey] returns
    imports to the key it holds. *)
Theorem simpleOnionRouter_registers_its_key (n : N) (publicKey : rsa_public wc)
    (privateKey : rsa_private wc) :
  rsa_key_pair wc publicKey privateKey ->
  rsa_modulus_bytes wc publicKey = 256%nat ->
  exists routeur,
    simpleOnionRouter kf n publicKey privateKey = Ok routeur
    /\ nodeId (donnéesEnregistrement routeur) = n
    /\ pubKey (donnéesEnregistrement routeur) = exportPubKey kf publicKey
    /\ registered wc (donnéesEnregistrement routeur) publicKey
    /\ cléPrivéeCrypto routeur = privateKey
    /\ relay_of wc (donnéesEnregistrement routeur) (cléPrivéeCrypto routeur)
    /\ importPrvKey kf (cléPrivéeBase64 routeur) = Ok (cléPrivéeCrypto routeur)
    /\ (routeurOnion wc routeur GET_getPrivateKey
          {| vars := {| dernierMessageChiffréReçu := None;
                        dernierMessageDéchiffréReçu := None;
                        dernièreDestinationMessage := None |};
             outbox := [] |}).2
       = Ok (result_string (exportPrvKey kf (Some privateKey))).
Proof using formats.
  intros Hpair Hmod. unfold simpleOnionRouter. cbv zeta.
  rewrite importPrvKey_export. eexists. split; [done|].
  cbn [donnéesEnregistrement cléPrivéeCrypto cléPrivéeBase64 nodeId pubKey].
  assert (registered wc
            {| nodeId := n;
               pubKey := arrayBufferToBase64 (export_spki kf publicKey) |} publicKey)
    as Hreg by (split; [apply importPubKey_exportPubKey|done]).
  repeat split; try done; try apply importPubKey_exportPubKey.
  - by exists publicKey.
  - apply importPrvKey_export.
Qed.

End KeyFormats.

Lemma rsa_keys_through_base64_witness :
  importPubKey toy (exportPubKey toy_formats x01) = Ok x01
  /\ exportPrvKey toy_formats None = None
  /\ exists chaîne priv' c,
       exportPrvKey toy_formats (Some x01) = Some chaîne
       /\ importPrvKey toy_formats chaîne = Ok priv'
       /\ priv' = x01
       /\ rsaEncrypt toy [] (js "hello") (exportPubKey toy_formats x01) = Ok c
       /\ rsaDecrypt toy c priv' = Ok (js "hello").
Proof.
  apply (rsa_keys_through_base64 toy_formats toy_key_format_laws toy_rsa_laws
           x01 x01 [] (js "hello")).
  - reflexivity.
  - reflexivity.
  - discriminate.
  - vm_compute. lia.
Defined.

Lemma simpleOnionRouter_registers_its_key_witness :
  exists routeur,
    simpleOnionRouter toy_formats 1 x01 x01 = Ok routeur
    /\ nodeId (donnéesEnregistrement routeur) = 1
    /\ pubKey (donnéesEnregistrement routeur) = exportPubKey toy_formats x01
    /\ registered toy (donnéesEnregistrement routeur) x01
    /\ cléPrivéeCrypto routeur = x01
    /\ relay_of toy (donnéesEnregistrement routeur) (cléPrivéeCrypto routeur)
    /\ importPrvKey toy_formats (cléPrivéeBase64 routeur) = Ok (cléPrivéeCrypto routeur)
    /\ (routeurOnion toy routeur GET_getPrivateKey demo_router).2
       = Ok (result_string (exportPrvKey toy_formats (Some x01))).
Proof.
  apply (simpleOnionRouter_registers_its_key toy_formats toy_key_format_laws 1 x01 x01);
    reflexivity.
Defined.

(** * Circuit selection over all results of [Math.random] *)

(** X17.  Whatever [Math.random] returns, and for every count, the
    selected circuit and the nodes left out are together a rearrangement
    of the registry's list: no node is selected more often than the list
    holds it, with or without distinct identifiers; the circuit has
    [min(count, length)] nodes, so none for an empty list or a count of
    zero. *)
Theorem selection_splits_registry (random : nat -> Q) (nodes : list Node) (count : nat) :
  unit_interval random ->
  let circuit := sélectionnerNœudsAléatoires random nodes count in
  exists reste,
    circuit ++ reste ≡ₚ nodes
    /\ length circuit = Nat.min count (length nodes)
    /\ length reste = (length nodes - count)%nat.
Proof.
  intros _ circuit. subst circuit. unfold sélectionnerNœudsAléatoires. cbv zeta.
  set (mélangés := mélanger random 0 (length nodes - 1) nodes).
  assert (mélangés ≡ₚ nodes) as Hperm by apply mélanger_Permutation.
  exists (drop count mélangés). rewrite take_drop, length_take, length_drop.
  split; [done|]. rewrite Hperm. lia.
Qed.

Lemma selection_splits_registry_witness :
  exists reste,
    sélectionnerNœudsAléatoires (fun _ => (1 # 2)%Q) [demo_A; demo_B; demo_C; demo_A] 3
      ++ reste ≡ₚ [demo_A; demo_B; demo_C; demo_A]
    /\ length (sélectionnerNœudsAléatoires (fun _ => (1 # 2)%Q)
                 [demo_A; demo_B; demo_C; demo_A] 3) = Nat.min 3 4
    /\ length reste = (4 - 3)%nat.
Proof.
  apply (selection_splits_registry (fun _ => (1 # 2)%Q)
           [demo_A; demo_B; demo_C; demo_A] 3).
  intros n. split; done.
Defined.

(** ** Every arrangement is reached *)

(** A result of [Math.random] that makes the shuffle pick index [j] at
    step [i]: the middle of the interval of the results that do. *)
Lemma random_index_exact (j i : nat) :
  (j <= i)%nat ->
  let r := (2 * Z.of_nat j + 1 # 2 * Pos.of_succ_nat i)%Q in
  (0 <= r)%Q /\ (r < 1)%Q /\ random_index r i = j.
Proof.
  intros Hj r. subst r. split; [|split].
  - unfold Qle. cbn [Qnum Qden]. lia.
  - unfold Qlt. cbn [Qnum Qden]. rewrite Pos2Z.inj_mul, Zpos_P_of_succ_nat. lia.
  - unfold random_index, Qfloor, Qmult, inject_Z. cbn [Qnum Qden].
    rewrite Pos.mul_1_r, Pos2Z.inj_mul, Zpos_P_of_succ_nat.
    rewrite <- (Nat2Z.id j) at 2. f_equal. symmetry.
    apply (Z.div_unique _ _ (Z.of_nat j) (Z.of_nat i + 1)); lia.
Qed.

Lemma mélanger_ext random random' calls i l :
  (forall n, (calls <= n)%nat -> random n = random' n) ->
  mélanger random calls i l = mélanger random' calls i l.
Proof.
  revert calls l. induction i as [|i IH]; intros calls l Hext; [done|].
  cbn [mélanger]. rewrite (Hext calls) by lia. apply IH. intros n Hn. apply Hext. lia.
Qed.

Section Swap.

Context {A : Type} (l : list A) (i j : nat).
Context (Hi : (i < length l)%nat) (Hj : (j <= i)%nat).

Lemma swap_inside :
  exists x y, l !! i = Some x /\ l !! j = Some y
              /\ swap l i j = <[j := x]> (<[i := y]> l).
Proof using Hi Hj.
  destruct (lookup_lt_is_Some_2 l i Hi) as [x Hx].
  destruct (lookup_lt_is_Some_2 l j ltac:(lia)) as [y Hy].
  exists x, y. unfold swap. by rewrite Hx, Hy.
Qed.

Lemma swap_lookup_last : swap l i j !! i = l !! j.
Proof using Hi Hj.
  destruct swap_inside as (x & y & Hx & Hy & ->).
  destruct (decide (j = i)) as [->|Hne].
  - rewrite list_lookup_insert_eq by (rewrite length_insert; lia). congruence.
  - rewrite list_lookup_insert_ne by done.
    rewrite list_lookup_insert_eq by lia. done.
Qed.

Lemma swap_drop : drop (S i) (swap l i j) = drop (S i) l.
Proof using Hi Hj.
  destruct swap_inside as (x & y & Hx & Hy & ->).
  rewrite !drop_insert_lt by lia. done.
Qed.

Lemma swap_take : take (S i) (swap l i j) ≡ₚ take (S i) l.
Proof using Hi Hj.
  destruct swap_inside as (x & y & Hx & Hy & ->).
  rewrite !take_insert_lt by lia.
  pose proof (swap_Permutation (take (S i) l) i j) as Hperm.
  unfold swap in Hperm.
  rewrite !lookup_take_lt, Hx, Hy in Hperm by lia. done.
Qed.

End Swap.

(** The loop from index [i] reaches every arrangement of the first
    [i + 1] elements. *)
Lemma mélanger_reaches (i : nat) : forall (calls : nat) (l t : list Node),
  length t = length l ->
  drop (S i) t = drop (S i) l ->
  take (S i) t ≡ₚ take (S i) l ->
  exists random, unit_interval random /\ mélanger random calls i l = t.
Proof.
  induction i as [|i IH]; intros calls l t Hlen Hdrop Htake.
  - exists (fun _ => 0%Q). split; [intros n; split; done|].
    cbn [mélanger]. rewrite <- (take_drop 1 l), <- (take_drop 1 t), Hdrop. f_equal.
    destruct l as [|a l]; destruct t as [|b t]; try done.
    cbn [take] in *. symmetry. by apply Permutation_singleton_l.
  - destruct (Nat.lt_ge_cases (S i) (length l)) as [Hlt|Hge].
    + destruct (lookup_lt_is_Some_2 t (S i) ltac:(lia)) as [x Hx].
      assert (x ∈ take (S (S i)) l) as Hin.
      { rewrite <- Htake. apply list_elem_of_lookup. exists (S i).
        by rewrite lookup_take_lt by lia. }
      apply list_elem_of_lookup in Hin as [j Hj].
      assert (j <= S i)%nat as Hjle.
      { apply lookup_lt_Some in Hj. rewrite length_take in Hj. lia. }
      rewrite lookup_take_lt in Hj by lia.
      set (l' := swap l (S i) j).
      assert (l' !! S i = Some x) as Hx'
        by (subst l'; by rewrite swap_lookup_last).
      assert (length l' = length l) as Hlen' by apply swap_length.
      destruct (IH (S calls) l' t) as (random' & Hunit & Hreach).
      * lia.
      * rewrite (drop_S t x (S i) Hx), (drop_S l' x (S i) Hx'). f_equal.
        subst l'. by rewrite swap_drop.
      * assert (take (S (S i)) t ≡ₚ take (S (S i)) l') as Hp
          by (subst l'; by rewrite swap_take).
        rewrite (take_S_r t (S i) x Hx), (take_S_r l' (S i) x Hx') in Hp.
        by apply Permutation_app_inv_r in Hp.
      * destruct (random_index_exact j (S i) Hjle) as (H0 & H1 & Hidx).
        exists (fun n => if decide (n = calls)
                         then (2 * Z.of_nat j + 1 # 2 * Pos.of_succ_nat (S i))%Q
                         else random' n).
        split.
        -- intros n. destruct (decide (n = calls)); [done|apply Hunit].
        -- cbn [mélanger]. rewrite decide_True by done. rewrite Hidx. fold l'.
           rewrite <- Hreach. apply mélanger_ext. intros n Hn.
           by rewrite decide_False by lia.
    + destruct (IH (S calls) l t) as (random' & Hunit & Hreach).
      * done.
      * rewrite !drop_ge by lia. done.
      * rewrite !take_ge in * by lia. done.
      * exists random'. split; [done|]. cbn [mélanger].
        replace (swap l (S i) _) with l; [done|].
        unfold swap. by rewrite (lookup_ge_None_2 l (S i)) by lia.
Qed.

(** X18.  Circuit selection can return every arrangement: for every
    rearrangement of the registry's list there are results of
    [Math.random], each from 0 inclusive to 1 exclusive, for which the
    circuit is the first [count] nodes of that rearrangement.  So every
    node can be the entry, the middle or the exit of a circuit. *)
Theorem selection_reaches_every_circuit (nodes cible : list Node) (count : nat) :
  cible ≡ₚ nodes ->
  exists random,
    unit_interval random
    /\ sélectionnerNœudsAléatoires random nodes count = take count cible.
Proof.
  intros Hperm. unfold sélectionnerNœudsAléatoires. cbv zeta.
  assert (length cible = length nodes) as Hlen by by rewrite Hperm.
  destruct (mélanger_reaches (length nodes - 1) 0 nodes cible) as (random & Hunit & Hreach).
  - done.
  - rewrite !drop_ge by lia. done.
  - rewrite !take_ge by lia. done.
  - exists random. by rewrite Hreach.
Qed.

Lemma selection_reaches_every_circuit_witness :
  exists random,
    unit_interval random
    /\ sélectionnerNœudsAléatoires random [demo_A; demo_B; demo_C] 3
       = take 3 [demo_C; demo_A; demo_B].
Proof.
  apply (selection_reaches_every_circuit [demo_A; demo_B; demo_C]
           [demo_C; demo_A; demo_B] 3).
  apply (Permutation_cons_append [demo_A; demo_B] demo_C).
Defined.

(** * The size of an envelope *)



Section Sizes.

Context (wc : WebCrypto) (aes : aes_laws wc) (rsa : rsa_laws wc).



Context (BASE_USER_PORT BASE_ONION_ROUTER_PORT : N).


End Sizes.


(** * A message through the network, as the routes report it *)

Section Network.

Context (wc : WebCrypto) (kf : KeyFormats wc).
Context (formats : key_format_laws kf) (aes : aes_laws wc) (rsa : rsa_laws wc).
Context (BASE_USER_PORT BASE_ONION_ROUTER_PORT : N).

Local Abbreviation userService := (userApp wc BASE_USER_PORT BASE_ONION_ROUTER_PORT).

Lemma simpleOnionRouter_inv n pub priv routeur :
  simpleOnionRouter kf n pub priv = Ok routeur ->
  rsa_key_pair wc pub priv -> rsa_modulus_bytes wc pub = 256%nat ->
  nodeId (donnéesEnregistrement routeur) = n
  /\ registered wc (donnéesEnregistrement routeur) pub
  /\ relay_of wc (donnéesEnregistrement routeur) (cléPrivéeCrypto routeur).
Proof using formats.
  unfold simpleOnionRouter. cbv zeta. rewrite (importPrvKey_export kf formats).
  intros Heq Hpair Hmod.
  assert (routeur
          = {| cléPrivéeBase64 := arrayBufferToBase64 (export_pkcs8 kf priv);
               cléPrivéeCrypto := priv;
               donnéesEnregistrement :=
                 {| nodeId := n;
                    pubKey := arrayBufferToBase64 (export_spki kf pub) |} |})
    as -> by congruence.
  cbn [donnéesEnregistrement cléPrivéeCrypto nodeId].
  assert (registered wc {| nodeId := n;
                           pubKey := arrayBufferToBase64 (export_spki kf pub) |} pub)
    as Hreg by (split; [apply (importPubKey_exportPubKey kf formats)|done]).
  split; [done|]. split; [done|]. by exists pub.
Qed.

Lemma routeurOnion_on_layer routeur K iv seed next data layer net st :
  is_layer wc (donnéesEnregistrement routeur) K iv seed next data layer ->
  relay_of wc (donnéesEnregistrement routeur) (cléPrivéeCrypto routeur) ->
  valid_aes_key K = true -> length iv = 16%nat ->
  well_formed data = true -> valid_port (Num (Z.of_N next)) = true ->
  let relais := serve (routeurOnion wc routeur) [POST_message net layer] st in
  outbox relais = outbox st ++ [{| port := Num (Z.of_N next); body := data |}]
  /\ (routeurOnion wc routeur GET_getLastReceivedEncryptedMessage relais).2
     = Ok (result_string (Some layer))
  /\ (routeurOnion wc routeur GET_getLastReceivedDecryptedMessage relais).2
     = Ok (result_string (Some data))
  /\ (routeurOnion wc routeur GET_getLastMessageDestination relais).2
     = Ok (result_number (Some (Z.of_N next))).
Proof using aes rsa.
  intros Hlayer Hrelay Hkey Hiv Hwf Hport relais.
  assert (relais
          = {| vars := {| dernierMessageChiffréReçu := Some layer;
                          dernierMessageDéchiffréReçu := Some data;
                          dernièreDestinationMessage := Some (Num (Z.of_N next)) |};
               outbox := outbox st ++ [{| port := Num (Z.of_N next); body := data |}] |})
    as ->.
  { subst relais. unfold serve. cbn [fold_left]. unfold routeurOnion.
    rewrite bind_ret_fst.
    by rewrite (routeur_on_layer wc rsa aes _ _ _ _ _ _ _ _ net st Hlayer Hrelay Hkey Hiv
                  Hwf Hport). }
  by repeat split.
Qed.

(** X20.  A message through relays that were started by
    [simpleOnionRouter] with generated 2048-bit pairs, as the [GET]
    routes report it afterwards: the sender's last sent message is the
    message and its last circuit the three identifiers in order; each
    relay's last received envelope is what the previous participant
    sent, its last decrypted message is what the next one receives, and
    its last destination is the port of the next one; the exit relay
    sends the message itself to the port of the destination, whose last
    received message is then the message. *)
Theorem message_observed_through_routes (env : SendEnv) (req : SendMessageBody)
    (nodes : list Node) (idA idB idC : N)
    (pubA pubB pubC : rsa_public wc) (privA privB privC : rsa_private wc)
    (A B C : @Routeur wc) (netA netB netC : request -> result unit)
    (stU stD : Proc UserState) (stA stB stC : Proc RouterState) :
  rsa_key_pair wc pubA privA -> rsa_modulus_bytes wc pubA = 256%nat ->
  rsa_key_pair wc pubB privB -> rsa_modulus_bytes wc pubB = 256%nat ->
  rsa_key_pair wc pubC privC -> rsa_modulus_bytes wc pubC = 256%nat ->
  simpleOnionRouter kf idA pubA privA = Ok A ->
  simpleOnionRouter kf idB pubB privB = Ok B ->
  simpleOnionRouter kf idC pubC privC = Ok C ->
  getNodeRegistry env = Ok nodes ->
  sélectionnerNœudsAléatoires (Math_random env) nodes 3
  = [donnéesEnregistrement A; donnéesEnregistrement B; donnéesEnregistrement C] ->
  well_drawn env ->
  valid_port (Num (Z.of_N (BASE_ONION_ROUTER_PORT + idA))) = true ->
  valid_port (Num (Z.of_N (BASE_ONION_ROUTER_PORT + idB))) = true ->
  valid_port (Num (Z.of_N (BASE_ONION_ROUTER_PORT + idC))) = true ->
  valid_port (Num (Z.of_N (BASE_USER_PORT + destinationUserId req))) = true ->
  well_formed (message req) = true ->
  let expéditeur := serve userService [user_POST_sendMessage env req] stU in
  exists toA toB toC,
    let relaisA := serve (routeurOnion wc A) [POST_message netA toA] stA in
    let relaisB := serve (routeurOnion wc B) [POST_message netB toB] stB in
    let relaisC := serve (routeurOnion wc C) [POST_message netC toC] stC in
    let destinataire := serve userService [user_POST_message (message req)] stD in
    outbox expéditeur
    = outbox stU ++ [{| port := Num (Z.of_N (BASE_ONION_ROUTER_PORT + idA));
                        body := toA |}]
    /\ (userService user_GET_getLastSentMessage expéditeur).2
       = Ok (result_string (Some (message req)))
    /\ (userService user_GET_getLastCircuit expéditeur).2
       = Ok (result_circuit [idA; idB; idC])
    /\ outbox relaisA
       = outbox stA ++ [{| port := Num (Z.of_N (BASE_ONION_ROUTER_PORT + idB));
                           body := toB |}]
    /\ (routeurOnion wc A GET_getLastReceivedEncryptedMessage relaisA).2
       = Ok (result_string (Some toA))
    /\ (routeurOnion wc A GET_getLastReceivedDecryptedMessage relaisA).2
       = Ok (result_string (Some toB))
    /\ (routeurOnion wc A GET_getLastMessageDestination relaisA).2
       = Ok (result_number (Some (Z.of_N (BASE_ONION_ROUTER_PORT + idB))))
    /\ outbox relaisB
       = outbox stB ++ [{| port := Num (Z.of_N (BASE_ONION_ROUTER_PORT + idC));
                           body := toC |}]
    /\ (routeurOnion wc B GET_getLastReceivedEncryptedMessage relaisB).2
       = Ok (result_string (Some toB))
    /\ (routeurOnion wc B GET_getLastReceivedDecryptedMessage relaisB).2
       = Ok (result_string (Some toC))
    /\ (routeurOnion wc B GET_getLastMessageDestination relaisB).2
       = Ok (result_number (Some (Z.of_N (BASE_ONION_ROUTER_PORT + idC))))
    /\ outbox relaisC
       = outbox stC ++ [{| port := Num (Z.of_N (BASE_USER_PORT + destinationUserId req));
                           body := message req |}]
    /\ (routeurOnion wc C GET_getLastReceivedEncryptedMessage relaisC).2
       = Ok (result_string (Some toC))
    /\ (routeurOnion wc C GET_getLastReceivedDecryptedMessage relaisC).2
       = Ok (result_string (Some (message req)))
    /\ (routeurOnion wc C GET_getLastMessageDestination relaisC).2
       = Ok (result_number (Some (Z.of_N (BASE_USER_PORT + destinationUserId req))))
    /\ (userService user_GET_getLastReceivedMessage destinataire).2
       = Ok (result_string (Some (message req))).
Proof using formats aes rsa.
  intros KA MA KB MB KC MC HA HB HC Hreg Hsel Hd PA PB PC PD Hwf expéditeur.
  destruct (simpleOnionRouter_inv _ _ _ _ HA KA MA) as (IA & RA & LA).
  destruct (simpleOnionRouter_inv _ _ _ _ HB KB MB) as (IB & RB & LB).
  destruct (simpleOnionRouter_inv _ _ _ _ HC KC MC) as (IC & RC & LC).
  rewrite <- IA, <- IB, <- IC in *.
  destruct (sendMessage_layers wc rsa BASE_USER_PORT BASE_ONION_ROUTER_PORT env req stU
              nodes _ _ _ pubA pubB pubC Hreg Hsel RA RB RC Hd)
    as (l3 & l2 & l1 & L3 & L2 & L1 & Hr); [by apply valid_port_below..|done|].
  destruct (well_drawn_keys env Hd) as (VA & VB & VC).
  destruct Hd as (_ & _ & _ & IvA & IvB & IvC).
  exists l1, l2, l3. cbv zeta.
  assert (well_formed l2 = true) as W2 by (eapply ascii_well_formed, layer_ascii, L2).
  assert (well_formed l3 = true) as W3 by (eapply ascii_well_formed, layer_ascii, L3).
  destruct (routeurOnion_on_layer A _ _ _ _ _ _ netA stA L1 LA VA IvA W2 PB)
    as (A1 & A2 & A3 & A4).
  destruct (routeurOnion_on_layer B _ _ _ _ _ _ netB stB L2 LB VB IvB W3 PC)
    as (B1 & B2 & B3 & B4).
  destruct (routeurOnion_on_layer C _ _ _ _ _ _ netC stC L3 LC VC IvC Hwf PD)
    as (C1 & C2 & C3 & C4).
  assert (expéditeur
          = (user_sendMessage wc BASE_USER_PORT BASE_ONION_ROUTER_PORT env req stU).1)
    as -> by (subst expéditeur; unfold serve; cbn [fold_left]; unfold userApp;
              by rewrite bind_ret_fst).
  rewrite Hr. cbv zeta. cbn [fst].
  repeat split; done.
Qed.

End Network.

(** ["hello"] from user 0 to user 7 through three relays started on the
    small instance. *)
Lemma message_observed_through_routes_witness :
  exists A B C toA toB toC,
    simpleOnionRouter toy_formats 1 x01 x01 = Ok A
    /\ simpleOnionRouter toy_formats 3 x03 x03 = Ok B
    /\ simpleOnionRouter toy_formats 2 x02 x02 = Ok C
    /\ outbox (serve (userApp toy 3000 4000)
                 [user_POST_sendMessage (demo_env (Ok [demo_A; demo_B; demo_C]))
                    demo_request] demo_user)
       = [{| port := Num 4001; body := toA |}]
    /\ outbox (serve (routeurOnion toy A) [POST_message net_up toA] demo_router)
       = [{| port := Num 4003; body := toB |}]
    /\ outbox (serve (routeurOnion toy B) [POST_message net_up toB] demo_router)
       = [{| port := Num 4002; body := toC |}]
    /\ outbox (serve (routeurOnion toy C) [POST_message net_up toC] demo_router)
       = [{| port := Num 3007; body := js "hello" |}]
    /\ (routeurOnion toy C GET_getLastMessageDestination
          (serve (routeurOnion toy C) [POST_message net_up toC] demo_router)).2
       = Ok (result_number (Some 3007%Z))
    /\ (userApp toy 3000 4000 user_GET_getLastReceivedMessage
          (serve (userApp toy 3000 4000) [user_POST_message (js "hello")] demo_user)).2
       = Ok (result_string (Some (js "hello"))).
Proof.
  eexists _, _, _.
  destruct (message_observed_through_routes toy toy_formats toy_key_format_laws
              toy_aes_laws toy_rsa_laws 3000 4000
              (demo_env (Ok [demo_A; demo_B; demo_C])) demo_request
              [demo_A; demo_B; demo_C] 1 3 2 x01 x03 x02 x01 x03 x02 _ _ _
              net_up net_up net_up demo_user demo_user demo_router demo_router demo_router
              eq_refl eq_refl eq_refl eq_refl eq_refl eq_refl eq_refl eq_refl eq_refl
              eq_refl eq_refl (demo_well_drawn _) eq_refl eq_refl eq_refl eq_refl eq_refl)
    as (toA & toB & toC & H).
  cbv zeta in H.
  destruct H as (H1 & _ & _ & H4 & _ & _ & _ & H8 & _ & _ & _ & H12 & _ & _ & H15 & H16).
  exists toA, toB, toC.
  split; [reflexivity|]. split; [reflexivity|]. split; [reflexivity|].
  split; [exact H1|]. split; [exact H4|]. split; [exact H8|]. split; [exact H12|].
  split; [exact H15|exact H16].
Defined.
